(** * puzzle-pipes: the solver core of [blind_search.py]

    A shallow embedding of the pipe geometry table, [Tile], [GameState]
    and [AISolver], followed by the properties of the puzzle model and of
    the best-first search.

    Conventions.
    - Python [int] is [Z]; a position [(r, c)] is a pair [Z * Z].
    - A tile's [type] is a Python string; [PIPE_TYPES] is a finite map
      from strings, so an unknown kind is a missing key.
    - [self.tiles] is a Python [dict], whose iteration order is insertion
      order and feeds the tie-breaking of the search: it is an association
      list in that order, read by first match and updated in place.
    - Python [set]s ([visited]) are [gset]s, the [explored] dict, which is
      only looked up and assigned, is a [gmap].
    - A [KeyError] is the constructor [Raise KeyError] of [result]; loops
      run on fuel and answer [OutOfFuel] when it is used up. *)

From stdpp Require Import gmap strings list fin_maps sorting.
From Stdlib Require Import ZArith Lia.

#[local] Set Warnings "-clear-no-such-hyp".

Open Scope Z_scope.

(** ** Exceptions *)

Inductive exn := KeyError.

Inductive result (A : Type) :=
  | Ret (a : A)
  | Raise (e : exn)
  | OutOfFuel.
Arguments Ret {A} a.
Arguments Raise {A} e.
Arguments OutOfFuel {A}.

#[global] Instance result_ret : MRet result := λ A a, Ret a.
#[global] Instance result_bind : MBind result := λ A B f m,
  match m with
  | Ret a => f a
  | Raise e => Raise e
  | OutOfFuel => OutOfFuel
  end.

(** [d[k]] on a Python dict given as an optional value. *)
Definition subscript {A} (o : option A) : result A :=
  match o with
  | Some a => Ret a
  | None => Raise KeyError
  end.

(** ** Pipe definitions *)

Definition pos : Type := Z * Z.

Definition PIPE_TYPES_items : list (string * list (list nat)) :=
  [ ("l", [[1; 3]; [0; 2]]);
    ("v", [[0; 1]; [1; 2]; [2; 3]; [3; 0]]);
    ("t", [[0; 1; 3]; [0; 1; 2]; [1; 2; 3]; [0; 2; 3]]);
    ("c", [[0; 1; 2; 3]]);
    ("e", [[0]; [1]; [2]; [3]]);
    ("n", [[]]) ]%nat.

Definition PIPE_TYPES : gmap string (list (list nat)) :=
  list_to_map PIPE_TYPES_items.

(** directions: 0=up, 1=right, 2=down, 3=left *)
Definition DIRS : list pos := [(-1, 0); (0, 1); (1, 0); (0, -1)].

(** [DIRS[d]]; every index stored in [PIPE_TYPES] is in range
    ([PIPE_TYPES_dirs_in_range]). *)
Definition DIRS_at (d : nat) : pos := default ((0, 0) : pos) (DIRS !! d).

(** [variations[rot]] for [0 <= rot]; every use has
    [rot < len(variations)]. *)
Definition variation (variations : list (list nat)) (rot : Z) : list nat :=
  default [] (variations !! Z.to_nat rot).

(** [len(variations)] as a Python int. *)
Definition len {A} (l : list A) : Z := Z.of_nat (length l).

(** ** Basic classes *)

Record Action := mkAction { a_pos : pos; a_rotation : Z }.

Record Tile := mkTile { type : string; rotation : Z }.

#[global] Instance Action_eq_dec : EqDecision Action.
Proof. solve_decision. Defined.
#[global] Instance Tile_eq_dec : EqDecision Tile.
Proof. solve_decision. Defined.

Definition rotate (self : Tile) (rot : Z) : Tile := mkTile (type self) rot.

Definition get_connections (self : Tile) : list pos :=
  match PIPE_TYPES !! type self with
  | None => []
  | Some variations =>
      let rot := rotation self `mod` len variations in
      DIRS_at <$> variation variations rot
  end.

(** The expression
    [[DIRS[d] for d in PIPE_TYPES[t.type][t.rotation % len(PIPE_TYPES[t.type])]]]
    of [is_goal] and [get_connected_tiles]: unlike [get_connections] it
    subscripts [PIPE_TYPES] without a membership test. *)
Definition table_connections (t : Tile) : result (list pos) :=
  variations ← subscript (PIPE_TYPES !! type t);
  mret (DIRS_at <$> variation variations (rotation t `mod` len variations)).

(** ** Insertion-ordered dictionaries *)

Section dict.
Context {K V : Type} `{EqDecision K}.

Fixpoint dict_get (d : list (K * V)) (k : K) : option V :=
  match d with
  | [] => None
  | (k', v) :: d' => if decide (k' = k) then Some v else dict_get d' k
  end.

Definition dict_mem (d : list (K * V)) (k : K) : bool :=
  bool_decide (is_Some (dict_get d k)).

(** [d[k] = v]: an existing key keeps its place, a new one goes last. *)
Fixpoint dict_set (d : list (K * V)) (k : K) (v : V) : list (K * V) :=
  match d with
  | [] => [(k, v)]
  | (k', v') :: d' =>
      if decide (k' = k) then (k, v) :: d' else (k', v') :: dict_set d' k v
  end.

(** A Python dict holds every key once. *)
Definition dict_wf (d : list (K * V)) : Prop := NoDup d.*1.
End dict.

(** ** Game states *)

Record GameState := mkGameState {
  grid_size : Z;
  tiles : list (pos * Tile);
  source : pos
}.

Definition key : Type := list (pos * string * Z).

Definition pos_le (p q : pos) : Prop :=
  p.1 < q.1 ∨ (p.1 = q.1 ∧ p.2 <= q.2).

#[global] Instance pos_le_dec p q : Decision (pos_le p q).
Proof. unfold pos_le. apply _. Defined.

(** The order [sorted] uses on the items of a dict: the keys decide, as
    no two items of a dict have the same key. *)
Definition item_le (x y : pos * Tile) : Prop := pos_le x.1 y.1.

#[global] Instance item_le_dec x y : Decision (item_le x y).
Proof. unfold item_le. apply _. Defined.

Definition sorted_items (d : list (pos * Tile)) : list (pos * Tile) :=
  merge_sort item_le d.

Definition hash (self : GameState) : key :=
  (λ '(p, t), (p, type t, rotation t)) <$> sorted_items (tiles self).

Definition GameState_eq (self other : GameState) : bool :=
  bool_decide (hash self = hash other).

Definition apply_action (self : GameState) (action : Action) : result GameState :=
  let new_tiles := tiles self in
  t ← subscript (dict_get new_tiles (a_pos action));
  let new_tiles := dict_set new_tiles (a_pos action) (rotate t (a_rotation action)) in
  mret (mkGameState (grid_size self) new_tiles (source self)).

(** The inner [for dr, dc in tile.get_connections()] loop shared by
    [is_goal] and [get_connected_tiles].  The frontier is a Python list
    used as a stack: [append] and [pop] work at its end, which is the
    head of the list here. *)
Fixpoint push_neighbors (tiles : list (pos * Tile)) (p : pos)
    (connections : list pos) (frontier : list pos) : result (list pos) :=
  match connections with
  | [] => Ret frontier
  | (dr, dc) :: connections =>
      let n := (p.1 + dr, p.2 + dc) in
      match dict_get tiles n with
      | Some neighbor =>
          back ← table_connections neighbor;
          if bool_decide ((- dr, - dc) ∈ back)
          then push_neighbors tiles p connections (n :: frontier)
          else push_neighbors tiles p connections frontier
      | None => push_neighbors tiles p connections frontier
      end
  end.

Fixpoint is_goal_loop (fuel : nat) (tiles : list (pos * Tile))
    (visited : gset pos) (frontier : list pos) : result (gset pos) :=
  match fuel with
  | O => OutOfFuel
  | S fuel =>
      match frontier with
      | [] => Ret visited
      | p :: frontier =>
          if bool_decide (p ∈ visited)
          then is_goal_loop fuel tiles visited frontier
          else
            let visited := {[p]} ∪ visited in
            match dict_get tiles p with
            | None => is_goal_loop fuel tiles visited frontier
            | Some tile =>
                frontier ← push_neighbors tiles p (get_connections tile) frontier;
                is_goal_loop fuel tiles visited frontier
            end
      end
  end.

(** Each tile is expanded once and pushes at most four positions, so
    both traversals pop at most [4 * len(tiles) + 1] times
    ([get_connected_tiles_total], [is_goal_total]). *)
Definition traversal_fuel (tiles : list (pos * Tile)) : nat :=
  (4 * length tiles + 2)%nat.

Definition is_goal (self : GameState) : result bool :=
  visited ← is_goal_loop (traversal_fuel (tiles self)) (tiles self) ∅ [source self];
  mret (bool_decide (Z.of_nat (size visited) = len (tiles self))).

Fixpoint connected_loop (fuel : nat) (tiles : list (pos * Tile))
    (visited : gset pos) (frontier : list pos) : result (gset pos) :=
  match fuel with
  | O => OutOfFuel
  | S fuel =>
      match frontier with
      | [] => Ret visited
      | p :: frontier =>
          if bool_decide (p ∈ visited) || negb (dict_mem tiles p)
          then connected_loop fuel tiles visited frontier
          else
            let visited := {[p]} ∪ visited in
            match dict_get tiles p with
            | None => Raise KeyError
            | Some tile =>
                frontier ← push_neighbors tiles p (get_connections tile) frontier;
                connected_loop fuel tiles visited frontier
            end
      end
  end.

Definition get_connected_tiles (self : GameState) : result (gset pos) :=
  connected_loop (traversal_fuel (tiles self)) (tiles self) ∅ [source self].

(** The [for ... else] of [get_possible_actions]: [true] when the loop
    over the directions of the candidate rotation reaches [break]. *)
Definition faces_end (tiles : list (pos * Tile)) (p : pos) (dirs : list pos) : bool :=
  existsb (λ '(dr, dc),
    match dict_get tiles (p.1 + dr, p.2 + dc) with
    | Some n => bool_decide (type n = "e"%string)
    | None => false
    end) dirs.

Fixpoint rotations_loop (tiles : list (pos * Tile)) (p : pos) (tile : Tile)
    (variations : list (list nat)) (rots : list Z) (actions : list Action)
    : list Action :=
  match rots with
  | [] => actions
  | rot :: rots =>
      let actions :=
        if bool_decide (rot ≠ rotation tile) then
          if bool_decide (type tile = "e"%string) then
            if faces_end tiles p (DIRS_at <$> variation variations rot)
            then actions
            else actions ++ [mkAction p rot]
          else actions ++ [mkAction p rot]
        else actions in
      rotations_loop tiles p tile variations rots actions
  end.

Fixpoint actions_loop (tiles : list (pos * Tile)) (items : list (pos * Tile))
    (actions : list Action) : result (list Action) :=
  match items with
  | [] => Ret actions
  | (p, tile) :: items =>
      variations ← subscript (PIPE_TYPES !! type tile);
      actions_loop tiles items
        (rotations_loop tiles p tile variations (seqZ 0 (len variations)) actions)
  end.

Definition get_possible_actions (self : GameState) : result (list Action) :=
  actions_loop (tiles self) (tiles self) [].

(** ** The solver *)

(** The two nested [for] loops of [heuristic]. *)
Definition dangling_step (tiles : list (pos * Tile)) (p : pos)
    (dangling : Z) (d : pos) : Z :=
  let n := (p.1 + d.1, p.2 + d.2) in
  match dict_get tiles n with
  | None => dangling + 1
  | Some neighbor =>
      if bool_decide ((- d.1, - d.2) ∉ get_connections neighbor)
      then dangling + 1 else dangling
  end.

Definition dangling_loop (tiles : list (pos * Tile)) : Z :=
  fold_left (λ dangling '(p, tile),
    fold_left (dangling_step tiles p) (get_connections tile) dangling)
    tiles 0.

Definition heuristic (state : GameState) : result Z :=
  connected_tiles ← get_connected_tiles state;
  let connected := Z.of_nat (size connected_tiles) in
  let dangling := dangling_loop (tiles state) in
  mret (- (connected * 10) + dangling).

(** An entry of the frontier: [(f, counter, state, path)]. *)
Definition node : Type := Z * Z * GameState * list Action.

Definition node_f (x : node) : Z := x.1.1.1.
Definition node_counter (x : node) : Z := x.1.1.2.
Definition node_state (x : node) : GameState := x.1.2.
Definition node_path (x : node) : list Action := x.2.

(** Python compares the tuples from the left; [counter] differs between
    any two entries, so the states are never compared. *)
Definition node_le (x y : node) : Prop :=
  node_f x < node_f y ∨ (node_f x = node_f y ∧ node_counter x <= node_counter y).

#[global] Instance node_le_dec x y : Decision (node_le x y).
Proof. unfold node_le. apply _. Defined.

(** [heapq] is a priority queue: [heappop] takes out the least entry.
    The queue is kept in ascending order, least entry first. *)
Fixpoint heappush (heap : list node) (item : node) : list node :=
  match heap with
  | [] => [item]
  | x :: heap' =>
      if decide (node_le item x) then item :: heap else x :: heappush heap' item
  end.

Definition heappop (heap : list node) : option (node * list node) :=
  match heap with
  | [] => None
  | x :: heap' => Some (x, heap')
  end.

(** The local variables of [solve] that live across iterations. *)
Record search := mkSearch {
  frontier : list node;
  explored : gmap key Z;
  counter : Z
}.

(** The [for action in state.get_possible_actions()] loop of [solve]. *)
Fixpoint expand (state : GameState) (path : list Action) (g : Z)
    (actions : list Action) (frontier : list node) (counter : Z)
    : result (list node * Z) :=
  match actions with
  | [] => Ret (frontier, counter)
  | action :: actions =>
      new_state ← apply_action state action;
      h ← heuristic new_state;
      let new_f := g + 1 + h in
      let counter := counter + 1 in
      expand state path g actions
        (heappush frontier (new_f, counter, new_state, path ++ [action])) counter
  end.

(** What one iteration of [while frontier] does: leave [solve] with its
    return value, or go round with new locals. *)
Inductive iteration :=
  | Return (r : option (list Action))
  | Continue (m : search).

Definition solve_step (m : search) : result iteration :=
  match heappop (frontier m) with
  | None => Ret (Return None)
  | Some ((f, _, state, path), frontier) =>
      goal ← is_goal state;
      if goal : bool then Ret (Return (Some path))
      else
        let stale :=
          match explored m !! hash state with
          | Some f' => bool_decide (f' <= f)
          | None => false
          end in
        if stale then Ret (Continue (mkSearch frontier (explored m) (counter m)))
        else
          let explored := <[hash state := f]> (explored m) in
          let g := len path in
          actions ← get_possible_actions state;
          '(frontier, counter) ← expand state path g actions frontier (counter m);
          Ret (Continue (mkSearch frontier explored counter))
  end.

Fixpoint solve_loop (fuel : nat) (m : search) : result (option (list Action)) :=
  match fuel with
  | O => OutOfFuel
  | S fuel =>
      it ← solve_step m;
      match it with
      | Return r => Ret r
      | Continue m => solve_loop fuel m
      end
  end.

Definition solve_init (initial_state : GameState) : search :=
  mkSearch (heappush [] (0, 0, initial_state, [])) ∅ 0.

(** [solve] with a bound on the number of iterations of its loop. *)
Definition solve (fuel : nat) (initial_state : GameState)
    : result (option (list Action)) :=
  solve_loop fuel (solve_init initial_state).

(** Folding [apply_action] over an action sequence. *)
Fixpoint apply_actions (s : GameState) (path : list Action) : result GameState :=
  match path with
  | [] => Ret s
  | a :: path => s' ← apply_action s a; apply_actions s' path
  end.

(** ** Python objects: states that share or copy their dict

    [apply_action] builds its result from [dict(self.tiles)], a new dict
    object.  Here dict objects live in a heap and a [GameState] object
    holds the address of its dict, so that a write through one state
    would be seen by every state holding the same address. *)
Module Store.

Abbreviation loc := nat.
Abbreviation heap := (list (list (pos * Tile))).

Record GameStateObj := mkObj {
  o_grid_size : Z;
  o_tiles : loc;
  o_source : pos
}.

(** The value of a state object in a heap. *)
Definition view (h : heap) (o : GameStateObj) : option GameState :=
  d ← h !! o_tiles o;
  Some (mkGameState (o_grid_size o) d (o_source o)).

(** [dict(d)]: a new object with the items of [d]. *)
Definition dict_copy (h : heap) (l : loc) : heap * loc :=
  (h ++ [default [] (h !! l)], length h).

(** [new_tiles[k] = v]: a write into the object at [l]. *)
Definition dict_store (h : heap) (l : loc) (k : pos) (v : Tile) : heap :=
  alter (λ d, dict_set d k v) l h.

Definition apply_action (h : heap) (self : GameStateObj) (action : Action)
    : heap * result GameStateObj :=
  let '(h, new_tiles) := dict_copy h (o_tiles self) in
  match dict_get (default [] (h !! new_tiles)) (a_pos action) with
  | None => (h, Raise KeyError)
  | Some t =>
      let h := dict_store h new_tiles (a_pos action) (rotate t (a_rotation action)) in
      (h, Ret (mkObj (o_grid_size self) new_tiles (o_source self)))
  end.

End Store.

(** ** Auxiliary notions used by the statements *)

(** What every entry of [PIPE_TYPES] satisfies: at least one variation,
    at most four directions in each, every direction an index of
    [DIRS]. *)
Definition variations_ok (vs : list (list nat)) : Prop :=
  (0 < length vs)%nat ∧
  Forall (λ v, (length v ≤ 4)%nat ∧ Forall (λ d, (d < length DIRS)%nat) v) vs.

(** [len(PIPE_TYPES[k])], and 0 for a kind that is not in the table. *)
Definition variant_count (k : string) : Z :=
  match PIPE_TYPES !! k with
  | Some variations => len variations
  | None => 0
  end.

(** One step of a full turn: the next rotation index. *)
Definition rotate_next (t : Tile) : Tile := rotate t (rotation t + 1).

(** Every dict object of [h] is still there, unchanged, in [h']. *)
Definition heap_preserved (h h' : Store.heap) : Prop :=
  ∀ l d, h !! l = Some d → h' !! l = Some d.

(** The opposite of a direction given as an offset. *)
Definition opposite (d : pos) : pos := (- d.1, - d.2).

(** The cell next to [p] in direction [d]. *)
Definition neighbor_pos (p d : pos) : pos := (p.1 + d.1, p.2 + d.2).

(** The specification's dangling connection: the neighbouring cell is
    absent from the tile map, or the neighbour does not have the opposite
    direction among its connections. *)
Definition is_dangling (tiles : list (pos * Tile)) (p d : pos) : Prop :=
  match dict_get tiles (neighbor_pos p d) with
  | None => True
  | Some neighbor => opposite d ∉ get_connections neighbor
  end.

#[global] Instance is_dangling_dec tiles p d : Decision (is_dangling tiles p d).
Proof. unfold is_dangling. destruct (dict_get tiles (neighbor_pos p d)); apply _. Defined.

(** The specification's [danglingCount]: over every tile and each of its
    connection directions, the number of dangling ones. *)
Definition danglingCount (s : GameState) : Z :=
  Z.of_nat (sum_list ((λ '(p, t),
    length (filter (is_dangling (tiles s) p) (get_connections t))) <$> tiles s)).

(** The two-tile row of the scenario: a horizontal Straight tile at the
    source [(0, 0)] and an End tile with rotation [r] to its right.  The
    End tile faces the Straight tile when [r = 3] and away from it when
    [r = 1]. *)
Definition two_tile_row (r : Z) : GameState :=
  mkGameState 2 [((0, 0), mkTile "l" 0); ((0, 1), mkTile "e" r)] (0, 0).

(** The positions of a tile map as a set. *)
Definition positions (tiles : list (pos * Tile)) : gset pos :=
  list_to_set tiles.*1.

(** Every tile has a kind of the geometry table, as the level format
    prescribes. *)
Definition known_kinds (tiles : list (pos * Tile)) : Prop :=
  Forall (λ x, is_Some (PIPE_TYPES !! type x.2)) tiles.

(** ** The states the search can meet *)

(** An action of the generator leads from [s] to [s']. *)
Definition gen_step (s s' : GameState) : Prop :=
  ∃ acts a, get_possible_actions s = Ret acts ∧ a ∈ acts ∧ apply_action s a = Ret s'.

(** A goal state can be reached from [s] through actions of the
    generator. *)
Definition gen_solvable (s : GameState) : Prop :=
  ∃ s', rtc gen_step s s' ∧ is_goal s' = Ret true.

(** The rotations a tile can have in the course of a search: the one it
    starts with and the indices of its variations. *)
Definition rot_ok (t : Tile) (r : Z) : Prop :=
  r = rotation t ∨ 0 <= r < variant_count (type t).

Definition rot_choices (t : Tile) : list Z :=
  rotation t :: seqZ 0 (variant_count (type t)).

(** [s] has the grid, the source, the positions (in the same order) and
    the kinds of [s0], and rotations [s0] can reach. *)
Definition same_shape (s0 s : GameState) : Prop :=
  grid_size s = grid_size s0 ∧ source s = source s0 ∧
  Forall2 (λ x y, y.1 = x.1 ∧ type y.2 = type x.2 ∧ rot_ok x.2 (rotation y.2))
    (tiles s0) (tiles s).

Fixpoint tile_choices (d : list (pos * Tile)) : list (list (pos * Tile)) :=
  match d with
  | [] => [[]]
  | (p, t) :: d =>
      r ← rot_choices t; d' ← tile_choices d; [(p, mkTile (type t) r) :: d']
  end.

(** All states of the shape of [s0]. *)
Definition universe (s0 : GameState) : list GameState :=
  (λ d, mkGameState (grid_size s0) d (source s0)) <$> tile_choices (tiles s0).

(** What the search has left to do, in lexicographic order: the states
    of the universe whose key is not in [explored], the distance of the
    recorded priorities from their lower bound, the frontier. *)
Definition unexplored (s0 : GameState) (m : search) : nat :=
  length (filter (λ u, explored m !! hash u = None) (universe s0)).

Definition slack (s0 : GameState) (m : search) : nat :=
  sum_list ((λ u,
    match explored m !! hash u with
    | Some f => Z.to_nat (f + 10 * len (tiles s0))
    | None => 0%nat
    end) <$> universe s0).

(** The invariant of the loop of [solve] started on [s0]. *)
Record search_inv (s0 : GameState) (m : search) : Prop := {
  inv_frontier : ∀ x, x ∈ frontier m →
    apply_actions s0 (node_path x) = Ret (node_state x) ∧
    rtc gen_step s0 (node_state x) ∧
    - (10 * len (tiles s0)) <= node_f x;
  inv_explored : ∀ k f, explored m !! k = Some f →
    - (10 * len (tiles s0)) <= f ∧
    ∃ s, rtc gen_step s0 s ∧ hash s = k ∧ is_goal s = Ret false ∧
      ∀ s', gen_step s s' →
        is_Some (explored m !! hash s') ∨ ∃ x, x ∈ frontier m ∧ node_state x = s';
  inv_initial :
    is_Some (explored m !! hash s0) ∨ ∃ x, x ∈ frontier m ∧ node_state x = s0
}.

(** A goal state can be reached from [s] by some sequence of actions,
    emitted by the generator or not. *)
Definition solvable (s : GameState) : Prop :=
  ∃ path s', apply_actions s path = Ret s' ∧ is_goal s' = Ret true.

(** Two End tiles side by side and nothing else, the source on one of
    them, and the state not a goal state: the two are not turned towards
    each other. *)
Definition stuck_end_pair (s : GameState) : Prop :=
  ∃ p1 t1 p2 t2 d,
    tiles s = [(p1, t1); (p2, t2)] ∧ type t1 = "e"%string ∧ type t2 = "e"%string ∧
    d ∈ DIRS ∧ p2 = neighbor_pos p1 d ∧ source s ∈ [p1; p2] ∧
    is_goal s = Ret false.

(** Two tiles at the same position with the same kind. *)
Definition same_kind (x y : pos * Tile) : Prop :=
  y.1 = x.1 ∧ type y.2 = type x.2.

(** Two tiles at the same position with the same kind and the same
    connections. *)
Definition same_connections (x y : pos * Tile) : Prop :=
  y.1 = x.1 ∧ type y.2 = type x.2 ∧ get_connections y.2 = get_connections x.2.

(** The rotation the search gives a tile of the initial state to get the
    connections of the tile [tg]: none if the tile has them already,
    else the index of the variation. *)
Definition target_rotation (t0 tg : Tile) : Z :=
  let n := variant_count (type t0) in
  if decide (rotation tg `mod` n = rotation t0 `mod` n)
  then rotation t0 else rotation tg `mod` n.

Definition retarget (d0 dg : list (pos * Tile)) : list (pos * Tile) :=
  zip_with (λ x y, (x.1, mkTile (type x.2) (target_rotation x.2 y.2))) d0 dg.

(** Two End tiles side by side, the left one at the source and turned
    up, the right one facing the left one.  Turning the left tile to the
    right connects the two. *)
Definition end_pair : GameState :=
  mkGameState 2 [((0, 0), mkTile "e" 0); ((0, 1), mkTile "e" 3)] (0, 0).

(** ** Notions used by the further properties *)

(** [q] is the neighbour of [p] in a direction [p]'s tile connects to,
    and [q]'s tile connects back: the test of the traversals. *)
Definition linked (tiles : list (pos * Tile)) (p q : pos) : Prop :=
  ∃ t d n, dict_get tiles p = Some t ∧ d ∈ get_connections t ∧
    q = neighbor_pos p d ∧ dict_get tiles q = Some n ∧
    opposite d ∈ get_connections n.

(** [p] can be reached from the source over linked tiles. *)
Definition connected_to_source (s : GameState) (p : pos) : Prop :=
  source s ∈ (tiles s).*1 ∧ rtc (linked (tiles s)) (source s) p.

(** Positions in the order of [sorted]: by row, then by column. *)
Definition pos_lt (p q : pos) : Prop :=
  p.1 < q.1 ∨ (p.1 = q.1 ∧ p.2 < q.2).

(** One iteration of the loop of [solve] that goes on. *)
Definition search_next (m m' : search) : Prop :=
  solve_step m = Ret (Continue m').

(** The locals of [solve] on [s0] after some iterations. *)
Definition search_reachable (s0 : GameState) (m : search) : Prop :=
  rtc search_next (solve_init s0) m.

(** Every action of [path] is emitted by the generator in the state in
    which it is applied, starting from [s]. *)
Fixpoint gen_walk (s : GameState) (path : list Action) : Prop :=
  match path with
  | [] => True
  | a :: path =>
      ∃ acts s', get_possible_actions s = Ret acts ∧ a ∈ acts ∧
                 apply_action s a = Ret s' ∧ gen_walk s' path
  end.

(** * The interactive game of [game.py]

    The game keeps its tiles in a square grid, a list of rows, and
    rotates them in place.  A tile object is a record here and a method
    that assigns to [self] returns the new record. *)
Module Game.

Inductive error := KeyError | IndexError | ZeroDivisionError.

Inductive outcome (A : Type) :=
  | Done (a : A)
  | Fail (e : error)
  | Timeout.
Arguments Done {A} a.
Arguments Fail {A} e.
Arguments Timeout {A}.

#[global] Instance outcome_ret : MRet outcome := λ A a, Done a.
#[global] Instance outcome_bind : MBind outcome := λ A B f m,
  match m with
  | Done a => f a
  | Fail e => Fail e
  | Timeout => Timeout
  end.

(** [l[i]] on a Python list: negative indices count from the end. *)
Definition index {A} (l : list A) (i : Z) : outcome A :=
  let i := if bool_decide (i < 0) then i + len l else i in
  if bool_decide (0 <= i) then
    match l !! Z.to_nat i with
    | Some a => Done a
    | None => Fail IndexError
    end
  else Fail IndexError.

(** [a % b] *)
Definition modulo (a b : Z) : outcome Z :=
  if bool_decide (b = 0) then Fail ZeroDivisionError else Done (a `mod` b).

Definition PIPE_TYPES_items : list (string * list (list nat)) :=
  [ ("l", [[1; 3]; [0; 2]]);
    ("v", [[0; 1]; [1; 2]; [2; 3]; [3; 0]]);
    ("t", [[0; 1; 3]; [0; 1; 2]; [1; 2; 3]; [0; 2; 3]]);
    ("c", [[0; 1; 2; 3]]);
    ("e", [[0]; [1]; [2]; [3]]);
    ("n", [[]]) ]%nat.

Definition PIPE_TYPES : gmap string (list (list nat)) :=
  list_to_map PIPE_TYPES_items.

Record Tile := mkTile {
  type_name : string;
  variations : list (list nat);
  rotation : Z;
  connections : list nat;
  locked : bool
}.

(** [Tile(type_name, rotation)] *)
Definition Tile_init (type_name : string) (rotation : Z) : outcome Tile :=
  match PIPE_TYPES !! type_name with
  | None => Fail KeyError
  | Some variations =>
      rotation ← modulo rotation (len variations);
      connections ← index variations rotation;
      mret (mkTile type_name variations rotation connections false)
  end.

Definition rotate (self : Tile) (clockwise : bool) : outcome Tile :=
  if locked self then Done self
  else
    let num_vars := len (variations self) in
    rotation ← modulo (rotation self + (if clockwise then 1 else -1)) num_vars;
    connections ← index (variations self) rotation;
    mret (mkTile (type_name self) (variations self) rotation connections (locked self)).

Definition get_connections (self : Tile) : list nat := connections self.

(** The fields of [PipesGame] the connectivity code reads. *)
Record PipesGame := mkGame {
  grid : list (list Tile);
  water_source : pos;
  grid_size : Z
}.

(** [self.grid[row][col]] *)
Definition cell (self : PipesGame) (row col : Z) : outcome Tile :=
  r ← index (grid self) row; index r col.

(** N, E, S, W *)
Definition deltas : list (Z * Z * nat * nat) :=
  [(-1, 0, 0%nat, 2%nat); (0, 1, 1%nat, 3%nat);
   (1, 0, 2%nat, 0%nat); (0, -1, 3%nat, 1%nat)].

Fixpoint neighbors_loop (self : PipesGame) (row col : Z)
    (ds : list (Z * Z * nat * nat)) (neighbors : list (Z * Z * nat * nat))
    : outcome (list (Z * Z * nat * nat)) :=
  match ds with
  | [] => Done neighbors
  | (dr, dc, my_dir, their_dir) :: ds =>
      let nr := row + dr in
      let nc := col + dc in
      if bool_decide (0 <= nr < grid_size self) && bool_decide (0 <= nc < grid_size self)
      then
        mine ← cell self row col;
        if bool_decide (my_dir ∈ get_connections mine) then
          theirs ← cell self nr nc;
          if bool_decide (their_dir ∈ get_connections theirs)
          then neighbors_loop self row col ds (neighbors ++ [(nr, nc, my_dir, their_dir)])
          else neighbors_loop self row col ds neighbors
        else neighbors_loop self row col ds neighbors
      else neighbors_loop self row col ds neighbors
  end.

Definition get_neighbors (self : PipesGame) (row col : Z)
    : outcome (list (Z * Z * nat * nat)) :=
  neighbors_loop self row col deltas [].

(** The inner [for] of [update_connected_tiles]; the deque is used as a
    stack, its right end is the head of the list. *)
Fixpoint push_unvisited (visited : gset pos) (ns : list (Z * Z * nat * nat))
    (stack : list pos) : list pos :=
  match ns with
  | [] => stack
  | (nr, nc, _, _) :: ns =>
      if bool_decide ((nr, nc) ∉ visited)
      then push_unvisited visited ns ((nr, nc) :: stack)
      else push_unvisited visited ns stack
  end.

Fixpoint flood_loop (fuel : nat) (self : PipesGame)
    (connected_tiles visited : gset pos) (stack : list pos) : outcome (gset pos) :=
  match fuel with
  | O => Timeout
  | S fuel =>
      match stack with
      | [] => Done connected_tiles
      | (r, c) :: stack =>
          if bool_decide ((r, c) ∈ visited)
          then flood_loop fuel self connected_tiles visited stack
          else
            let visited := {[(r, c)]} ∪ visited in
            t ← cell self r c;
            let connected_tiles :=
              if bool_decide (get_connections t ≠ [])
              then {[(r, c)]} ∪ connected_tiles else connected_tiles in
            ns ← get_neighbors self r c;
            flood_loop fuel self connected_tiles visited (push_unvisited visited ns stack)
      end
  end.

(** The cells within the bounds of the grid, row by row. *)
Definition cells (self : PipesGame) : list pos :=
  r ← seqZ 0 (grid_size self); c ← seqZ 0 (grid_size self); [(r, c)].

(** Every cell is visited once and pushes at most four cells, so the
    loop pops at most [4 * (cells + 1) + 1] times. *)
Definition flood_fuel (self : PipesGame) : nat :=
  (4 * S (length (cells self)) + 2)%nat.

(** [update_connected_tiles], returning the new [self.connected_tiles]. *)
Definition update_connected_tiles (self : PipesGame) : outcome (gset pos) :=
  flood_loop (flood_fuel self) self ∅ ∅ [water_source self].

(** [d[k]] on a dict. *)
Definition getitem {V} (d : list (pos * V)) (k : pos) : outcome V :=
  match dict_get d k with
  | Some v => Done v
  | None => Fail KeyError
  end.

(** The closure [find] of [check_connected_and_acyclic], with the dict
    [parent] it updates; [fuel] bounds the depth of the recursion. *)
Fixpoint find (fuel : nat) (parent : list (pos * pos)) (x : pos)
    : outcome (list (pos * pos) * pos) :=
  match fuel with
  | O => Timeout
  | S fuel =>
      px ← getitem parent x;
      parent ←
        (if bool_decide (px ≠ x) then
           px ← getitem parent x;
           '(parent, root) ← find fuel parent px;
           mret (dict_set parent x root)
         else mret parent);
      r ← getitem parent x;
      mret (parent, r)
  end.

(** A chain of parents holds every key at most once. *)
Definition find_fuel (parent : list (pos * pos)) : nat := S (length parent).

(** The closure [union], with the dicts [parent] and [rank]. *)
Definition union (parent : list (pos * pos)) (rank : list (pos * Z)) (x y : pos)
    : outcome (list (pos * pos) * list (pos * Z) * bool) :=
  '(parent, px) ← find (find_fuel parent) parent x;
  '(parent, py) ← find (find_fuel parent) parent y;
  if bool_decide (px = py) then mret (parent, rank, false)
  else
    rx ← getitem rank px;
    ry ← getitem rank py;
    if bool_decide (rx > ry) then mret (dict_set parent py px, rank, true)
    else
      rx ← getitem rank px;
      ry ← getitem rank py;
      if bool_decide (rx < ry) then mret (dict_set parent px py, rank, true)
      else
        rx ← getitem rank px;
        mret (dict_set parent py px, dict_set rank px (rx + 1), true).

(** The first pair of loops: every tile with a connection becomes a
    class of its own. *)
Fixpoint init_cells (self : PipesGame) (cs : list pos)
    (parent : list (pos * pos)) (rank : list (pos * Z)) (num_tiles : Z)
    : outcome (list (pos * pos) * list (pos * Z) * Z) :=
  match cs with
  | [] => Done (parent, rank, num_tiles)
  | (r, c) :: cs =>
      t ← cell self r c;
      if bool_decide (get_connections t ≠ [])
      then init_cells self cs (dict_set parent (r, c) (r, c)) (dict_set rank (r, c) 0)
             (num_tiles + 1)
      else init_cells self cs parent rank num_tiles
  end.

(** A loop either goes on with its variables or leaves the function
    with [return b]. *)
Inductive flow (S : Type) :=
  | Next (s : S)
  | Return (b : bool).
Arguments Next {S} s.
Arguments Return {S} b.

(** The loop over the neighbours of the cell [(r, c)]. *)
Fixpoint union_neighbors (ns : list (Z * Z * nat * nat)) (r c : Z)
    (parent : list (pos * pos)) (rank : list (pos * Z)) (edges : Z)
    : outcome (flow (list (pos * pos) * list (pos * Z) * Z)) :=
  match ns with
  | [] => Done (Next (parent, rank, edges))
  | (nr, nc, _, _) :: ns =>
      if dict_mem parent (nr, nc) then
        let edges :=
          if bool_decide (r < nr ∨ (r = nr ∧ c < nc)) then edges + 1 else edges in
        '(parent, rank, merged) ← union parent rank (r, c) (nr, nc);
        if negb merged then Done (Return false)
        else union_neighbors ns r c parent rank edges
      else union_neighbors ns r c parent rank edges
  end.

(** The second pair of loops. *)
Fixpoint union_cells (self : PipesGame) (cs : list pos)
    (parent : list (pos * pos)) (rank : list (pos * Z)) (edges : Z)
    : outcome (flow (list (pos * pos) * list (pos * Z) * Z)) :=
  match cs with
  | [] => Done (Next (parent, rank, edges))
  | (r, c) :: cs =>
      if dict_mem parent (r, c) then
        ns ← get_neighbors self r c;
        next ← union_neighbors ns r c parent rank edges;
        match next with
        | Return b => Done (Return b)
        | Next (parent, rank, edges) => union_cells self cs parent rank edges
        end
      else union_cells self cs parent rank edges
  end.

(** [all(find(k) == root for k in parent)] *)
Fixpoint all_find (ks : list pos) (parent : list (pos * pos)) (root : pos)
    : outcome bool :=
  match ks with
  | [] => Done true
  | k :: ks =>
      '(parent, fk) ← find (find_fuel parent) parent k;
      if bool_decide (fk = root) then all_find ks parent root else Done false
  end.

Definition check_connected_and_acyclic (self : PipesGame) : outcome bool :=
  '(parent, rank, num_tiles) ← init_cells self (cells self) [] [] 0;
  if bool_decide (num_tiles = 0) then Done true
  else
    next ← union_cells self (cells self) parent rank 0;
    match next with
    | Return b => Done b
    | Next (parent, rank, edges) =>
        '(parent, root) ← find (find_fuel parent) parent (water_source self);
        all_find parent.*1 parent root
    end.

(** [check_win], returning the lines it prints. *)
Definition check_win (self : PipesGame) : outcome (list string) :=
  won ← check_connected_and_acyclic self;
  mret (if won : bool then ["You win! All pipes connected without loops."] else []).

End Game.

(** A tile object as [__init__] and [rotate] leave it: the variations
    of its kind, a rotation within them, the connections of that
    rotation. *)
Definition tile_ok (t : Game.Tile) : Prop :=
  Game.PIPE_TYPES !! Game.type_name t = Some (Game.variations t) ∧
  0 <= Game.rotation t < len (Game.variations t) ∧
  Game.variations t !! Z.to_nat (Game.rotation t) = Some (Game.connections t).

(** [n] calls of [tile.rotate()] in a row. *)
Fixpoint rotate_times (n : nat) (t : Game.Tile) : Game.outcome Game.Tile :=
  match n with
  | O => Game.Done t
  | S n => t' ← Game.rotate t true; rotate_times n t'
  end.

(** A cell within the bounds [get_neighbors] checks. *)
Definition in_grid (g : Game.PipesGame) (p : pos) : Prop :=
  0 <= p.1 < Game.grid_size g ∧ 0 <= p.2 < Game.grid_size g.

(** What [load_level] checks before it fills the grid: [grid_size] rows
    of [grid_size] tiles. *)
Definition grid_ok (g : Game.PipesGame) : Prop :=
  len (Game.grid g) = Game.grid_size g ∧
  Forall (λ row, len row = Game.grid_size g) (Game.grid g).

(** The tile of [p] has an arm towards the cell [q] next to it, and the
    tile of [q] has the opposite arm. *)
Definition game_linked (g : Game.PipesGame) (p q : pos) : Prop :=
  in_grid g q ∧
  ∃ my_dir their_dir mine theirs,
    (q.1 - p.1, q.2 - p.2, my_dir, their_dir) ∈ Game.deltas ∧
    Game.cell g p.1 p.2 = Game.Done mine ∧ my_dir ∈ Game.get_connections mine ∧
    Game.cell g q.1 q.2 = Game.Done theirs ∧ their_dir ∈ Game.get_connections theirs.

(** What [get_neighbors] appends for a row of its table of directions. *)
Definition neighbor_entry (g : Game.PipesGame) (row col : Z)
    (ds : list (Z * Z * nat * nat)) (x : Z * Z * nat * nat) : Prop :=
  ∃ dr dc md td mine theirs,
    (dr, dc, md, td) ∈ ds ∧ x = (row + dr, col + dc, md, td) ∧
    in_grid g (row + dr, col + dc) ∧
    Game.cell g row col = Game.Done mine ∧ md ∈ Game.get_connections mine ∧
    Game.cell g (row + dr) (col + dc) = Game.Done theirs ∧
    td ∈ Game.get_connections theirs.

(** The tile of [p] has at least one arm. *)
Definition has_pipe (g : Game.PipesGame) (p : pos) : Prop :=
  ∃ t, Game.cell g p.1 p.2 = Game.Done t ∧ Game.get_connections t ≠ [].

(** The rank of a key, [0] for a key [rank] does not hold. *)
Definition rk (rank : list (pos * Z)) (x : pos) : Z := default 0 (dict_get rank x).

(** [r] is the root the chain of parents of [x] ends in. *)
Inductive rep (parent : list (pos * pos)) : pos → pos → Prop :=
  | rep_root x : dict_get parent x = Some x → rep parent x x
  | rep_step x y r :
      dict_get parent x = Some y → y ≠ x → rep parent y r → rep parent x r.

(** Two keys of one class: their chains end in the same root. *)
Definition same_class (parent : list (pos * pos)) (x y : pos) : Prop :=
  ∃ r, rep parent x r ∧ rep parent y r.

(** The forest [find] and [union] work on: parents are keys, every key
    has a rank, and the rank grows along the chain of parents. *)
Record uf_inv (parent : list (pos * pos)) (rank : list (pos * Z)) : Prop := {
  uf_closed : ∀ x y, dict_get parent x = Some y → y ∈ parent.*1;
  uf_ranked : ∀ x, x ∈ parent.*1 → x ∈ rank.*1;
  uf_rank_lt : ∀ x y, dict_get parent x = Some y → y ≠ x → rk rank x < rk rank y
}.

(** The keys of a rank above that of [x]. *)
Definition higher (parent : list (pos * pos)) (rank : list (pos * Z)) (x : pos)
    : gset pos :=
  filter (λ k, rk rank x < rk rank k) (list_to_set parent.*1).

(** [has_pipe] as a test. *)
Definition has_pipeb (g : Game.PipesGame) (p : pos) : bool :=
  match Game.cell g p.1 p.2 with
  | Game.Done t => bool_decide (Game.get_connections t ≠ [])
  | _ => false
  end.

(** The cells with a pipe, row by row: the keys of [parent]. *)
Definition pipe_cells (g : Game.PipesGame) : list pos :=
  filter (λ p, has_pipeb g p) (Game.cells g).

(** The invariant of the second pair of loops: [P a b] holds for the
    pairs handed to [union] so far; they are in one class and no pair
    has been handed over in both directions. *)
Record loop_inv (K : list pos) (parent : list (pos * pos)) (rank : list (pos * Z))
    (P : pos → pos → Prop) : Prop := {
  li_uf : uf_inv parent rank;
  li_keys : parent.*1 = K;
  li_same : ∀ a b, P a b → same_class parent a b;
  li_once : ∀ a b, P a b → ¬ P b a
}.

(** No cell of the grid has a neighbour. *)
Definition unlinkedb (g : Game.PipesGame) : bool :=
  forallb (λ p, match Game.get_neighbors g p.1 p.2 with
                | Game.Done [] => true
                | _ => false
                end) (Game.cells g).

(** Small boards: an empty left column, and a right column of two
    tiles with the water source at the bottom. *)
Definition end_tile (rotation : Z) : Game.Tile :=
  Game.mkTile "e" [[0]; [1]; [2]; [3]]%nat rotation [Z.to_nat rotation] false.

Definition none_tile : Game.Tile := Game.mkTile "n" [[]] 0 [] false.

Definition column_game (top bottom : Game.Tile) : Game.PipesGame :=
  Game.mkGame [[none_tile; top]; [none_tile; bottom]] (1, 1) 2.

(** A forest of three keys: a chain of two and a root of its own. *)
Definition forest_parent : list (pos * pos) :=
  [((0, 0), (0, 1)); ((0, 1), (0, 1)); ((1, 1), (1, 1))].

Definition forest_rank : list (pos * Z) :=
  [((0, 0), 0); ((0, 1), 1); ((1, 1), 0)].

(** * Properties *)

(** ** The result monad *)

Lemma bind_Ret_inv {A B} (m : result A) (f : A → result B) b :
  m ≫= f = Ret b → ∃ a, m = Ret a ∧ f a = Ret b.
Proof. destruct m; simpl; [eauto | done..]. Qed.

Lemma subscript_Ret {A} (o : option A) a : subscript o = Ret a ↔ o = Some a.
Proof. destruct o; simpl; split; congruence. Qed.

Lemma subscript_Raise {A} (o : option A) e : subscript o = Raise e ↔ o = None.
Proof. destruct o, e; simpl; split; congruence. Qed.

Ltac inv_bind H :=
  let a := fresh "a" in
  let Ha := fresh "Ha" in
  apply bind_Ret_inv in H as (a & Ha & H).

(** ** Dictionaries *)

Section dict_facts.
Context {K V : Type} `{EqDecision K}.
Implicit Types (d : list (K * V)) (k : K) (v : V).

Lemma dict_get_None d k : dict_get d k = None ↔ k ∉ d.*1.
Proof.
  induction d as [|[k' v'] d IH]; simpl.
  - split; [intros _; apply not_elem_of_nil | done].
  - rewrite not_elem_of_cons. case_decide; subst.
    + split; [done | intros [? _]; done].
    + rewrite IH. split; [intros ?; split; [congruence | done] | by intros [_ ?]].
Qed.

Lemma dict_get_is_Some d k : is_Some (dict_get d k) ↔ k ∈ d.*1.
Proof.
  rewrite <- not_eq_None_Some, dict_get_None.
  split; [apply dec_stable | auto].
Qed.

Lemma dict_mem_true d k : dict_mem d k = true ↔ k ∈ d.*1.
Proof. unfold dict_mem. rewrite bool_decide_eq_true. apply dict_get_is_Some. Qed.

Lemma dict_get_Some_elem d k v : dict_get d k = Some v → (k, v) ∈ d.
Proof.
  induction d as [|[k' v'] d IH]; simpl; [done|].
  case_decide; subst.
  - intros Heq. injection Heq as ->. left.
  - intros. right. auto.
Qed.

Lemma dict_get_elem_wf d k v : dict_wf d → (k, v) ∈ d → dict_get d k = Some v.
Proof.
  unfold dict_wf. induction d as [|[k' v'] d IH]; simpl.
  - intros _ Hin. by apply elem_of_nil in Hin.
  - rewrite NoDup_cons. intros [Hk Hd] Hin.
    apply elem_of_cons in Hin as [Heq | Hin].
    + injection Heq as <- <-. by rewrite decide_True.
    + rewrite decide_False; [auto|].
      intros ->. apply Hk. apply (list_elem_of_fmap_2 fst) in Hin. done.
Qed.

Lemma dict_get_set_eq d k v : dict_get (dict_set d k v) k = Some v.
Proof.
  induction d as [|[k' v'] d IH]; simpl.
  - by rewrite decide_True.
  - case_decide; simpl; [by rewrite decide_True | by rewrite decide_False].
Qed.

Lemma dict_get_set_ne d k k' v :
  k' ≠ k → dict_get (dict_set d k v) k' = dict_get d k'.
Proof.
  intros Hne. induction d as [|[k0 v0] d IH]; simpl.
  - by rewrite decide_False.
  - case_decide; subst; simpl.
    + by rewrite !decide_False.
    + by rewrite IH.
Qed.

Lemma dict_set_keys d k v :
  is_Some (dict_get d k) → (dict_set d k v).*1 = d.*1.
Proof.
  induction d as [|[k0 v0] d IH]; simpl.
  - by intros [? ?].
  - case_decide; subst; simpl; [done|]. intros. f_equal. auto.
Qed.

Lemma dict_set_length d k v :
  is_Some (dict_get d k) → length (dict_set d k v) = length d.
Proof.
  intros H1. apply dict_set_keys with (v := v) in H1.
  apply (f_equal length) in H1. by rewrite !length_fmap in H1.
Qed.

(** Two dicts with the same keys in the same order and the same
    lookups are the same list. *)
Lemma dict_ext d1 d2 :
  dict_wf d1 → d1.*1 = d2.*1 →
  (∀ k, dict_get d1 k = dict_get d2 k) → d1 = d2.
Proof.
  unfold dict_wf. revert d2.
  induction d1 as [|[k1 v1] d1 IH]; intros [|[k2 v2] d2]; simpl; try done.
  rewrite NoDup_cons. intros [Hk Hnd] [= -> Hkeys] Hget.
  f_equal.
  - specialize (Hget k2). rewrite !decide_True in Hget by done. congruence.
  - apply IH; [done..|]. intros k. specialize (Hget k).
    destruct (decide (k2 = k)) as [->|]; [|done].
    assert (dict_get d1 k = None) as -> by by apply dict_get_None.
    symmetry. apply dict_get_None.
    unfold fmap in *. by rewrite <- Hkeys.
Qed.
End dict_facts.

(** ** The geometry table *)


Lemma PIPE_TYPES_lookup k vs :
  PIPE_TYPES !! k = Some vs → (k, vs) ∈ PIPE_TYPES_items.
Proof. apply elem_of_list_to_map_2. Qed.

Lemma PIPE_TYPES_items_ok : Forall (λ kv, variations_ok kv.2) PIPE_TYPES_items.
Proof. unfold variations_ok. repeat constructor; simpl; lia. Qed.

Lemma PIPE_TYPES_ok k vs : PIPE_TYPES !! k = Some vs → variations_ok vs.
Proof.
  intros Hk%PIPE_TYPES_lookup.
  pose proof PIPE_TYPES_items_ok as Hall.
  rewrite Forall_forall in Hall. apply (Hall _ Hk).
Qed.

Lemma PIPE_TYPES_nonempty k vs : PIPE_TYPES !! k = Some vs → 0 < len vs.
Proof. intros [Hlen _]%PIPE_TYPES_ok. unfold len. lia. Qed.

(** No [IndexError]: [DIRS[d]] is within [DIRS] for every direction of
    the table. *)
Lemma PIPE_TYPES_dirs_in_range k vs v d :
  PIPE_TYPES !! k = Some vs → v ∈ vs → d ∈ v → is_Some (DIRS !! d).
Proof.
  intros [_ Hall]%PIPE_TYPES_ok Hv Hd.
  rewrite Forall_forall in Hall. destruct (Hall _ Hv) as [_ Hdirs].
  rewrite Forall_forall in Hdirs. apply lookup_lt_is_Some. auto.
Qed.

(** No [IndexError]: a rotation reduced modulo the number of variations
    selects a variation. *)
Lemma variation_in_range (vs : list (list nat)) (r : Z) :
  0 < len vs → is_Some (vs !! Z.to_nat (r `mod` len vs)).
Proof.
  intros Hlen. apply lookup_lt_is_Some.
  pose proof (Z.mod_pos_bound r (len vs) Hlen). unfold len in *. lia.
Qed.

Lemma variation_length k vs r :
  PIPE_TYPES !! k = Some vs → (length (variation vs r) ≤ 4)%nat.
Proof.
  intros [_ Hall]%PIPE_TYPES_ok. unfold variation.
  destruct (vs !! Z.to_nat r) as [v|] eqn:Hv; simpl; [|lia].
  apply list_elem_of_lookup_2 in Hv.
  rewrite Forall_forall in Hall. by destruct (Hall _ Hv).
Qed.

Lemma get_connections_length t : (length (get_connections t) ≤ 4)%nat.
Proof.
  unfold get_connections.
  destruct (PIPE_TYPES !! type t) as [vs|] eqn:Hk; simpl; [|lia].
  rewrite length_fmap. by eapply variation_length.
Qed.


Lemma get_connections_mod k r n :
  get_connections (mkTile k (r + n * variant_count k)) =
  get_connections (mkTile k r).
Proof.
  unfold get_connections, variant_count; simpl.
  destruct (PIPE_TYPES !! k) as [vs|] eqn:Hk; [|done].
  by rewrite Z_mod_plus_full.
Qed.

Lemma rotate_next_iter (n : nat) t :
  Nat.iter n rotate_next t = mkTile (type t) (rotation t + Z.of_nat n).
Proof.
  induction n as [|n IH]; simpl.
  - destruct t; simpl. f_equal. lia.
  - rewrite IH. unfold rotate_next, rotate; simpl. f_equal. lia.
Qed.

(** C9. Rotation closure: for every kind [k] and rotation index [r],
    the tile [Tile(k, r + variantCount(k))] has the connections of
    [Tile(k, r)], and turning a tile step by step through as many
    rotations as its kind has variations gives back its connections. *)
Theorem rotation_closure (k : string) (r : Z) :
  get_connections (mkTile k (r + variant_count k)) = get_connections (mkTile k r) ∧
  get_connections (Nat.iter (Z.to_nat (variant_count k)) rotate_next (mkTile k r)) =
    get_connections (mkTile k r).
Proof.
  split.
  - rewrite <- (get_connections_mod k r 1). do 2 f_equal. lia.
  - rewrite rotate_next_iter; simpl.
    rewrite <- (get_connections_mod k r 1). do 2 f_equal.
    unfold variant_count. destruct (PIPE_TYPES !! k); unfold len; lia.
Qed.

(** ** [apply_action] *)

Lemma apply_action_Ret s a t :
  dict_get (tiles s) (a_pos a) = Some t →
  apply_action s a =
    Ret (mkGameState (grid_size s)
           (dict_set (tiles s) (a_pos a) (rotate t (a_rotation a))) (source s)).
Proof. intros Ht. unfold apply_action. by rewrite Ht. Qed.

Lemma apply_action_Ret_inv s a s' :
  apply_action s a = Ret s' →
  ∃ t, dict_get (tiles s) (a_pos a) = Some t ∧
       s' = mkGameState (grid_size s)
              (dict_set (tiles s) (a_pos a) (rotate t (a_rotation a))) (source s).
Proof.
  unfold apply_action. intros H. inv_bind H.
  apply subscript_Ret in Ha. injection H as <-. eauto.
Qed.

Lemma apply_action_Raise s a :
  apply_action s a = Raise KeyError ↔ a_pos a ∉ (tiles s).*1.
Proof.
  rewrite <- dict_get_None. unfold apply_action.
  destruct (dict_get (tiles s) (a_pos a)); simpl; split; done.
Qed.

Module StoreFacts.


Lemma view_preserved h h' o s : heap_preserved h h' → Store.view h o = Some s → Store.view h' o = Some s.
Proof.
  unfold Store.view. intros Hp Hv.
  destruct (h !! Store.o_tiles o) as [d|] eqn:Hd; [|done].
  by rewrite (Hp _ _ Hd).
Qed.

(** The object-level [apply_action] computes the value-level one in a
    new dict object and writes to no other. *)
Lemma apply_action_refines h o s a :
  Store.view h o = Some s →
  ∃ h', heap_preserved h h' ∧
    match apply_action s a with
    | Ret s' =>
        Store.apply_action h o a =
          (h', Ret (Store.mkObj (Store.o_grid_size o) (length h) (Store.o_source o))) ∧
        Store.o_tiles o ≠ length h ∧
        Store.view h' (Store.mkObj (Store.o_grid_size o) (length h) (Store.o_source o)) = Some s'
    | r => Store.apply_action h o a = (h', Raise KeyError) ∧ r = Raise KeyError
    end.
Proof.
  unfold Store.view. intros Hv.
  destruct (h !! Store.o_tiles o) as [d|] eqn:Hd; [|done].
  injection Hv as <-.
  pose proof (lookup_lt_Some _ _ _ Hd) as Hlt.
  unfold Store.apply_action, apply_action, Store.dict_copy; simpl.
  rewrite Hd; simpl. rewrite lookup_app_r, Nat.sub_diag by lia; simpl.
  destruct (dict_get d (a_pos a)) as [t|] eqn:Ht; simpl.
  - eexists. split; [|split; [reflexivity|split; [lia|]]].
    + intros l' d' Hl'. pose proof (lookup_lt_Some _ _ _ Hl').
      unfold Store.dict_store. rewrite list_lookup_alter_ne by lia.
      by apply lookup_app_l_Some.
    + unfold Store.dict_store. rewrite list_lookup_alter_eq.
      by rewrite lookup_app_r, Nat.sub_diag.
  - eexists. split; [|split; reflexivity].
    intros l' d' Hl'. by apply lookup_app_l_Some.
Qed.
End StoreFacts.

Lemma apply_action_tiles s a t :
  dict_get (tiles s) (a_pos a) = Some t →
  ∃ s', apply_action s a = Ret s' ∧
    grid_size s' = grid_size s ∧ source s' = source s ∧
    dict_get (tiles s') (a_pos a) = Some (mkTile (type t) (a_rotation a)) ∧
    (∀ p, p ≠ a_pos a → dict_get (tiles s') p = dict_get (tiles s) p) ∧
    (tiles s').*1 = (tiles s).*1.
Proof.
  intros Ht. eexists. split; [by apply apply_action_Ret|]. simpl.
  repeat split.
  - apply dict_get_set_eq.
  - intros p Hp. by apply dict_get_set_ne.
  - apply dict_set_keys. by rewrite Ht.
Qed.

(** C6. Frame of [apply_action]: for a state object [o] whose value is
    [s] and an action on a position of the tile map, the call returns a
    new state with the same grid size and source, in which the action's
    position holds a tile of the same kind with the action's rotation and
    every other position holds the tile it held; the result owns a new
    dict object, and no dict object that existed before the call, the
    one of the input state included, is changed. *)
Theorem apply_action_frame (h : Store.heap) (o : Store.GameStateObj)
    (s : GameState) (a : Action) (t : Tile) :
  Store.view h o = Some s →
  dict_get (tiles s) (a_pos a) = Some t →
  ∃ h' o' s',
    Store.apply_action h o a = (h', Ret o') ∧
    apply_action s a = Ret s' ∧
    Store.view h' o' = Some s' ∧
    grid_size s' = grid_size s ∧ source s' = source s ∧
    dict_get (tiles s') (a_pos a) = Some (mkTile (type t) (a_rotation a)) ∧
    (∀ p, p ≠ a_pos a → dict_get (tiles s') p = dict_get (tiles s) p) ∧
    (tiles s').*1 = (tiles s).*1 ∧
    Store.o_tiles o' ≠ Store.o_tiles o ∧
    heap_preserved h h' ∧
    Store.view h' o = Some s.
Proof.
  intros Hv Ht.
  destruct (StoreFacts.apply_action_refines h o s a Hv) as (h' & Hp & Hm).
  destruct (apply_action_tiles s a t Ht) as (s' & Hs' & Hg & Hsrc & Hat & Hother & Hkeys).
  rewrite Hs' in Hm. destruct Hm as (Hcall & Hfresh & Hv').
  exists h', (Store.mkObj (Store.o_grid_size o) (length h) (Store.o_source o)), s'.
  repeat split; try done.
  by eapply StoreFacts.view_preserved.
Qed.

Lemma apply_action_frame_witness :
  ∃ h' o' s',
    Store.apply_action [[((0, 0), mkTile "l" 0); ((0, 1), mkTile "e" 1)]]
      (Store.mkObj 2 0%nat (0, 0)) (mkAction (0, 1) 3) = (h', Ret o') ∧
    apply_action (mkGameState 2 [((0, 0), mkTile "l" 0); ((0, 1), mkTile "e" 1)] (0, 0))
      (mkAction (0, 1) 3) = Ret s' ∧
    Store.view h' o' = Some s' ∧
    grid_size s' = 2 ∧ source s' = (0, 0) ∧
    dict_get (tiles s') (0, 1) = Some (mkTile "e" 3) ∧
    (∀ p, p ≠ (0, 1) →
       dict_get (tiles s') p =
       dict_get [((0, 0), mkTile "l" 0); ((0, 1), mkTile "e" 1)] p) ∧
    (tiles s').*1 = [(0, 0); (0, 1)] ∧
    Store.o_tiles o' ≠ 0%nat ∧
    heap_preserved [[((0, 0), mkTile "l" 0); ((0, 1), mkTile "e" 1)]] h' ∧
    Store.view h' (Store.mkObj 2 0%nat (0, 0)) =
      Some (mkGameState 2 [((0, 0), mkTile "l" 0); ((0, 1), mkTile "e" 1)] (0, 0)).
Proof.
  apply (apply_action_frame
           [[((0, 0), mkTile "l" 0); ((0, 1), mkTile "e" 1)]]
           (Store.mkObj 2 0%nat (0, 0))
           (mkGameState 2 [((0, 0), mkTile "l" 0); ((0, 1), mkTile "e" 1)] (0, 0))
           (mkAction (0, 1) 3) (mkTile "e" 1)); reflexivity.
Defined.

(** C7. [apply_action] raises (a [KeyError], the code's form of
    [InvalidAction]) exactly when the action's position is not a key of
    the tile map; then no successor state is returned and every dict
    object, the one of the input state included, is as it was. *)
Theorem apply_action_invalid (h : Store.heap) (o : Store.GameStateObj)
    (s : GameState) (a : Action) :
  Store.view h o = Some s →
  (apply_action s a = Raise KeyError ↔ a_pos a ∉ (tiles s).*1) ∧
  ((Store.apply_action h o a).2 = Raise KeyError ↔ a_pos a ∉ (tiles s).*1) ∧
  (a_pos a ∉ (tiles s).*1 →
     (∀ s', apply_action s a ≠ Ret s') ∧
     (∀ o', (Store.apply_action h o a).2 ≠ Ret o') ∧
     heap_preserved h (Store.apply_action h o a).1 ∧
     Store.view (Store.apply_action h o a).1 o = Some s).
Proof.
  intros Hv.
  destruct (StoreFacts.apply_action_refines h o s a Hv) as (h' & Hp & Hm).
  pose proof (apply_action_Raise s a) as Hraise.
  destruct (apply_action s a) as [s'| [] |] eqn:Hs'.
  - destruct Hm as (-> & _ & _); simpl.
    split; [done|]. split; [split; [done | by intros ?%Hraise]|].
    by intros ?%Hraise.
  - destruct Hm as (-> & _); simpl.
    split; [done|]. split; [by rewrite <- Hraise|].
    intros _. repeat split; try done.
    by eapply StoreFacts.view_preserved.
  - by destruct Hm as (_ & ?).
Qed.

Lemma apply_action_invalid_witness :
  (apply_action (mkGameState 2 [((0, 0), mkTile "l" 0)] (0, 0)) (mkAction (3, 3) 1)
     = Raise KeyError ↔ (3, 3) ∉ [(0, 0)]) ∧
  ((Store.apply_action [[((0, 0), mkTile "l" 0)]] (Store.mkObj 2 0%nat (0, 0))
      (mkAction (3, 3) 1)).2 = Raise KeyError ↔ (3, 3) ∉ [(0, 0)]) ∧
  ((3, 3) ∉ [(0, 0)] →
     (∀ s', apply_action (mkGameState 2 [((0, 0), mkTile "l" 0)] (0, 0))
              (mkAction (3, 3) 1) ≠ Ret s') ∧
     (∀ o', (Store.apply_action [[((0, 0), mkTile "l" 0)]]
               (Store.mkObj 2 0%nat (0, 0)) (mkAction (3, 3) 1)).2 ≠ Ret o') ∧
     heap_preserved [[((0, 0), mkTile "l" 0)]]
       (Store.apply_action [[((0, 0), mkTile "l" 0)]]
          (Store.mkObj 2 0%nat (0, 0)) (mkAction (3, 3) 1)).1 ∧
     Store.view
       (Store.apply_action [[((0, 0), mkTile "l" 0)]]
          (Store.mkObj 2 0%nat (0, 0)) (mkAction (3, 3) 1)).1
       (Store.mkObj 2 0%nat (0, 0)) =
       Some (mkGameState 2 [((0, 0), mkTile "l" 0)] (0, 0))).
Proof.
  apply (apply_action_invalid [[((0, 0), mkTile "l" 0)]]
           (Store.mkObj 2 0%nat (0, 0))
           (mkGameState 2 [((0, 0), mkTile "l" 0)] (0, 0)) (mkAction (3, 3) 1)).
  reflexivity.
Defined.

(** ** The heuristic *)

Lemma dangling_step_count tiles p d acc :
  dangling_step tiles p acc d =
  acc + (if decide (is_dangling tiles p d) then 1 else 0).
Proof.
  destruct (decide (is_dangling tiles p d)) as [H|H];
    unfold dangling_step, is_dangling, neighbor_pos, opposite in *;
    destruct (dict_get tiles (p.1 + d.1, p.2 + d.2)) as [n|];
    try case_bool_decide; try done; lia.
Qed.

Lemma dangling_inner tiles p ds acc :
  fold_left (dangling_step tiles p) ds acc =
  acc + Z.of_nat (length (filter (is_dangling tiles p) ds)).
Proof.
  revert acc. induction ds as [|d ds IH]; intros acc; simpl; [lia|].
  rewrite IH, dangling_step_count, filter_cons.
  destruct (decide (is_dangling tiles p d)); simpl; lia.
Qed.

Lemma dangling_outer tiles items acc :
  fold_left (λ dangling '(p, tile),
      fold_left (dangling_step tiles p) (get_connections tile) dangling)
    items acc =
  acc + Z.of_nat (sum_list ((λ '(p, t),
    length (filter (is_dangling tiles p) (get_connections t))) <$> items)).
Proof.
  revert acc. induction items as [|[p t] items IH]; intros acc; simpl; [lia|].
  rewrite IH, dangling_inner. unfold fmap. lia.
Qed.

Lemma dangling_loop_count s : dangling_loop (tiles s) = danglingCount s.
Proof. unfold dangling_loop, danglingCount. by rewrite dangling_outer. Qed.

Lemma heuristic_unfold state :
  heuristic state =
  (connected ← get_connected_tiles state;
   mret (- (Z.of_nat (size connected) * 10) + danglingCount state)).
Proof. unfold heuristic. by rewrite dangling_loop_count. Qed.

(** C3. The heuristic is [-(10 * |connectedSet(state)|)] plus
    [danglingCount(state)]; it raises where [get_connected_tiles]
    raises. *)
Theorem heuristic_formula (state : GameState) :
  heuristic state =
  (connected ← get_connected_tiles state;
   mret (- (10 * Z.of_nat (size connected)) + danglingCount state)).
Proof.
  rewrite heuristic_unfold.
  destruct (get_connected_tiles state) as [c| |]; simpl; [|done..].
  do 2 f_equal. lia.
Qed.

(** ** The action generator *)

Lemma rotations_loop_elem tiles p tile vs rots acc a :
  a ∈ rotations_loop tiles p tile vs rots acc ↔
  a ∈ acc ∨
  (a_pos a = p ∧ a_rotation a ∈ rots ∧ a_rotation a ≠ rotation tile ∧
   (type tile = "e"%string →
    faces_end tiles p (DIRS_at <$> variation vs (a_rotation a)) = false)).
Proof.
  revert acc. induction rots as [|rot rots IH]; intros acc; simpl.
  - split; [auto | intros [?|(_ & Hin & _)]; [done | by apply elem_of_nil in Hin]].
  - rewrite IH, elem_of_cons. clear IH. destruct a as [ap ar]; simpl.
    repeat case_bool_decide; try destruct (faces_end _ _ _) eqn:Hf;
      rewrite ?elem_of_app, ?list_elem_of_singleton;
      (split; intros Hx; destruct_or?; destruct_and?; destruct_or?;
       simplify_eq/=; eauto 10).
    all: try (exfalso; naive_solver).
    all: try (right; repeat split; eauto; congruence).
    all: match goal with
         | Hi : ?P → ?x = false, Hp : ?P, Ht : ?x = true |- _ =>
             exfalso; rewrite (Hi Hp) in Ht; discriminate
         end.
Qed.

Lemma actions_loop_elem tiles items acc acts a :
  actions_loop tiles items acc = Ret acts →
  a ∈ acts ↔
  a ∈ acc ∨
  ∃ tile vs, (a_pos a, tile) ∈ items ∧ PIPE_TYPES !! type tile = Some vs ∧
    0 <= a_rotation a < len vs ∧ a_rotation a ≠ rotation tile ∧
    (type tile = "e"%string →
     faces_end tiles (a_pos a) (DIRS_at <$> variation vs (a_rotation a)) = false).
Proof.
  revert acc. induction items as [|[p tile] items IH]; intros acc; simpl.
  - intros [= <-]. split; [auto | intros [?|(? & ? & Hin & _)]; [done | by apply elem_of_nil in Hin]].
  - intros H. inv_bind H. apply subscript_Ret in Ha.
    rewrite (IH _ H), rotations_loop_elem. clear IH H.
    rewrite elem_of_seqZ. split.
    + intros [[?|(<- & ? & ? & ?)]|(t & vs & ? & ?)]; [auto| |].
      * right. exists tile, a0. split; [left|]. split; [done|]. split; [lia|done].
      * right. exists t, vs. split; [by right|done].
    + intros [?|(t & vs & Hin & Hvs & ? & ? & ?)]; [auto|].
      apply elem_of_cons in Hin as [Heq|Hin].
      * injection Heq as <- <-. left. right.
        assert (vs = a0) as -> by congruence.
        split; [done|]. split; [lia|done].
      * right. exists t, vs. done.
Qed.

Lemma get_possible_actions_elem s acts a :
  get_possible_actions s = Ret acts →
  a ∈ acts ↔
  ∃ tile vs, (a_pos a, tile) ∈ tiles s ∧ PIPE_TYPES !! type tile = Some vs ∧
    0 <= a_rotation a < len vs ∧ a_rotation a ≠ rotation tile ∧
    (type tile = "e"%string →
     faces_end (tiles s) (a_pos a) (DIRS_at <$> variation vs (a_rotation a)) = false).
Proof.
  intros H. rewrite (actions_loop_elem _ _ _ _ a H).
  split; [intros [Hin|?]; [by apply elem_of_nil in Hin | done] | auto].
Qed.

Lemma faces_end_false tiles p dirs :
  faces_end tiles p dirs = false ↔
  ∀ d n, d ∈ dirs → dict_get tiles (neighbor_pos p d) = Some n → type n ≠ "e"%string.
Proof.
  unfold faces_end, neighbor_pos. induction dirs as [|[dr dc] dirs IH]; simpl.
  - split; [intros _ d n Hd; by apply elem_of_nil in Hd | done].
  - rewrite orb_false_iff, IH. clear IH. split.
    + intros [Hhd Htl] d n [->|Hd]%elem_of_cons Hn; simpl in *.
      * rewrite Hn in Hhd. by apply bool_decide_eq_false in Hhd.
      * eauto.
    + intros Hall. split.
      * destruct (dict_get tiles (p.1 + dr, p.2 + dc)) as [n|] eqn:Hn; [|done].
        apply bool_decide_eq_false. apply (Hall (dr, dc) n); [left | done].
      * intros d n Hd. apply Hall. by right.
Qed.

(** A rotation index within range selects its own variation. *)
Lemma get_connections_in_range k vs r :
  PIPE_TYPES !! k = Some vs → 0 <= r < len vs →
  get_connections (mkTile k r) = DIRS_at <$> variation vs r.
Proof.
  intros Hk Hr. unfold get_connections; simpl. rewrite Hk.
  by rewrite Z.mod_small.
Qed.

(** C4. Action legality: every action the generator emits targets a
    position of the tile map with a rotation index other than the tile's
    current one, so applying it gives a state that differs from the input
    in the rotation of that one tile; and when the tile is an End tile,
    no direction of the chosen orientation leads to a position that holds
    an End tile, whatever the rotation of that neighbour. *)
Theorem action_legality (s : GameState) (acts : list Action) (a : Action) :
  dict_wf (tiles s) →
  get_possible_actions s = Ret acts →
  a ∈ acts →
  ∃ t s',
    dict_get (tiles s) (a_pos a) = Some t ∧
    a_rotation a ≠ rotation t ∧
    apply_action s a = Ret s' ∧
    dict_get (tiles s') (a_pos a) = Some (mkTile (type t) (a_rotation a)) ∧
    (∀ p, p ≠ a_pos a → dict_get (tiles s') p = dict_get (tiles s) p) ∧
    (tiles s').*1 = (tiles s).*1 ∧
    grid_size s' = grid_size s ∧ source s' = source s ∧
    (type t = "e"%string →
     ∀ d n, d ∈ get_connections (mkTile (type t) (a_rotation a)) →
       dict_get (tiles s) (neighbor_pos (a_pos a) d) = Some n →
       type n ≠ "e"%string).
Proof.
  intros Hwf Hacts Ha.
  apply (get_possible_actions_elem _ _ _ Hacts) in Ha
    as (t & vs & Hin & Hvs & Hrange & Hrot & Hend).
  apply (dict_get_elem_wf _ _ _ Hwf) in Hin.
  destruct (apply_action_tiles s a t Hin) as (s' & Hs' & Hg & Hsrc & Hat & Hother & Hkeys).
  exists t, s'. repeat split; try done.
  intros He d n Hd. rewrite (get_connections_in_range _ vs) in Hd by done.
  specialize (Hend He). rewrite faces_end_false in Hend. eauto.
Qed.

Lemma action_legality_witness :
  ∃ t s',
    dict_get (tiles (two_tile_row 1)) (0, 1) = Some t ∧
    3 ≠ rotation t ∧
    apply_action (two_tile_row 1) (mkAction (0, 1) 3) = Ret s' ∧
    dict_get (tiles s') (0, 1) = Some (mkTile (type t) 3) ∧
    (∀ p, p ≠ (0, 1) → dict_get (tiles s') p = dict_get (tiles (two_tile_row 1)) p) ∧
    (tiles s').*1 = (tiles (two_tile_row 1)).*1 ∧
    grid_size s' = grid_size (two_tile_row 1) ∧ source s' = source (two_tile_row 1) ∧
    (type t = "e"%string →
     ∀ d n, d ∈ get_connections (mkTile (type t) 3) →
       dict_get (tiles (two_tile_row 1)) (neighbor_pos (0, 1) d) = Some n →
       type n ≠ "e"%string).
Proof.
  apply (action_legality (two_tile_row 1)
           [mkAction (0, 0) 1; mkAction (0, 1) 0; mkAction (0, 1) 2; mkAction (0, 1) 3]
           (mkAction (0, 1) 3)).
  - unfold dict_wf. compute_done.
  - reflexivity.
  - compute_done.
Defined.

(** ** The canonical key *)

#[global] Instance item_le_trans : Transitive item_le.
Proof. intros x y z. unfold item_le, pos_le. lia. Qed.

#[global] Instance item_le_total : Total item_le.
Proof. intros x y. unfold item_le, pos_le. lia. Qed.

Lemma item_le_antisym_key x y : item_le x y → item_le y x → x.1 = y.1.
Proof.
  unfold item_le, pos_le. destruct x as [[] ?], y as [[] ?]; simpl.
  intros. f_equal; lia.
Qed.

Lemma sorted_items_perm d : sorted_items d ≡ₚ d.
Proof. apply merge_sort_Permutation. Qed.

Lemma sorted_items_sorted d : Sorted item_le (sorted_items d).
Proof. apply (Sorted_merge_sort item_le). Qed.

Lemma dict_wf_NoDup (d : list (pos * Tile)) : dict_wf d → NoDup d.
Proof. apply NoDup_fmap_1. Qed.

(** Two dicts that are equal as maps hold the same items. *)
Lemma dict_equal_perm (d1 d2 : list (pos * Tile)) :
  dict_wf d1 → dict_wf d2 →
  (∀ p, dict_get d1 p = dict_get d2 p) → d1 ≡ₚ d2.
Proof.
  intros Hwf1 Hwf2 Hget.
  apply NoDup_Permutation; [by apply dict_wf_NoDup..|].
  intros [p t]. split; intros Hin.
  - apply dict_get_Some_elem. rewrite <- Hget. by apply dict_get_elem_wf.
  - apply dict_get_Some_elem. rewrite Hget. by apply dict_get_elem_wf.
Qed.

Lemma sorted_items_ext (d1 d2 : list (pos * Tile)) :
  dict_wf d1 → dict_wf d2 →
  (∀ p, dict_get d1 p = dict_get d2 p) → sorted_items d1 = sorted_items d2.
Proof.
  intros Hwf1 Hwf2 Hget.
  pose proof (dict_equal_perm d1 d2 Hwf1 Hwf2 Hget) as Hperm.
  apply (Sorted_unique_strong item_le); [|apply sorted_items_sorted..|].
  - intros [p1 t1] [p2 t2] H1 H2 Hle1 Hle2.
    pose proof (item_le_antisym_key _ _ Hle1 Hle2) as Hk. simpl in Hk. subst p2.
    rewrite sorted_items_perm in H1, H2.
    apply (dict_get_elem_wf _ _ _ Hwf1) in H1.
    apply (dict_get_elem_wf _ _ _ Hwf2) in H2.
    rewrite Hget in H1. congruence.
  - by rewrite !sorted_items_perm.
Qed.

(** C10. The canonical key and the equality of states look at the tile
    map only: two states whose tile maps are equal as maps have the same
    key and compare equal, whatever their sources, grid sizes and
    insertion orders. *)
Theorem hash_depends_on_tile_map_only (s1 s2 : GameState) :
  dict_wf (tiles s1) → dict_wf (tiles s2) →
  (∀ p, dict_get (tiles s1) p = dict_get (tiles s2) p) →
  hash s1 = hash s2 ∧ GameState_eq s1 s2 = true.
Proof.
  intros Hwf1 Hwf2 Hget.
  assert (hash s1 = hash s2) as Heq.
  { unfold hash. by rewrite (sorted_items_ext _ _ Hwf1 Hwf2 Hget). }
  split; [done|]. unfold GameState_eq. by apply bool_decide_eq_true.
Qed.

Lemma hash_depends_on_tile_map_only_witness :
  hash (mkGameState 2 [((0, 0), mkTile "l" 0); ((0, 1), mkTile "e" 1)] (0, 0)) =
  hash (mkGameState 7 [((0, 1), mkTile "e" 1); ((0, 0), mkTile "l" 0)] (0, 1)) ∧
  GameState_eq
    (mkGameState 2 [((0, 0), mkTile "l" 0); ((0, 1), mkTile "e" 1)] (0, 0))
    (mkGameState 7 [((0, 1), mkTile "e" 1); ((0, 0), mkTile "l" 0)] (0, 1)) = true.
Proof.
  apply (hash_depends_on_tile_map_only
           (mkGameState 2 [((0, 0), mkTile "l" 0); ((0, 1), mkTile "e" 1)] (0, 0))
           (mkGameState 7 [((0, 1), mkTile "e" 1); ((0, 0), mkTile "l" 0)] (0, 1))).
  - unfold dict_wf. compute_done.
  - unfold dict_wf. compute_done.
  - intros p; simpl. repeat case_decide; congruence.
Defined.

(** ** The first push of [solve] *)

(** C5, as the code has it. [solve] starts from a frontier that holds
    one entry: the initial state with the empty path, so [g = 0],
    sequence number 0 and priority [f = 0]; the priority is the literal
    0 and not the heuristic of the initial state.  It is the priority
    the first iteration records for the initial state in [explored]. *)
Theorem solve_initial_push (initial_state : GameState) :
  frontier (solve_init initial_state) = [(0, 0, initial_state, [])] ∧
  explored (solve_init initial_state) = ∅ ∧
  counter (solve_init initial_state) = 0 ∧
  heappop (frontier (solve_init initial_state)) = Some ((0, 0, initial_state, []), []) ∧
  len (node_path (0, 0, initial_state, [])) = 0 ∧
  (∀ m, solve_step (solve_init initial_state) = Ret (Continue m) →
        explored m = {[hash initial_state := 0]}).
Proof.
  repeat split. intros m. unfold solve_step. simpl.
  destruct (is_goal initial_state) as [[]| |]; simpl; try done.
  rewrite lookup_empty.
  destruct (get_possible_actions initial_state) as [acts| |]; simpl; try done.
  destruct (expand initial_state [] (len []) acts [] 0) as [[F c]| |]; simpl; try done.
  intros [= <-]. simpl. apply insert_empty.
Qed.

Lemma solve_initial_push_witness :
  ∃ m, solve_step (solve_init (two_tile_row 1)) = Ret (Continue m) ∧
       explored m = {[hash (two_tile_row 1) := 0]}.
Proof.
  eexists. split.
  - vm_compute. reflexivity.
  - apply (solve_initial_push (two_tile_row 1)). vm_compute. reflexivity.
Defined.

(** C5 as stated fails: on the two-tile row the heuristic of the initial
    state is -7, and the entry pushed for it has priority 0. *)
Lemma solve_initial_push_not_heuristic :
  heuristic (two_tile_row 1) = Ret (-7) ∧
  node_f <$> frontier (solve_init (two_tile_row 1)) = [0] ∧
  ¬ (∀ s x, x ∈ frontier (solve_init s) → heuristic s = Ret (node_f x)).
Proof.
  split; [reflexivity|]. split; [reflexivity|].
  intros H. specialize (H (two_tile_row 1) (0, 0, two_tile_row 1, [])).
  assert (heuristic (two_tile_row 1) = Ret 0) as Hh by (apply H; left).
  vm_compute in Hh. discriminate.
Qed.

(** ** The two-tile scenario *)


(** ** The traversals *)

Lemma elem_of_positions tiles p : p ∈ positions tiles ↔ p ∈ tiles.*1.
Proof. unfold positions. apply elem_of_list_to_set. Qed.

Lemma size_list_to_set_le (l : list pos) :
  (size (list_to_set (C := gset pos) l) ≤ length l)%nat.
Proof.
  induction l as [|p l IH].
  - rewrite list_to_set_nil, size_empty. simpl. lia.
  - rewrite list_to_set_cons, size_union_alt, size_singleton.
    assert (size (list_to_set (C := gset pos) l ∖ {[p]}) ≤
            size (list_to_set (C := gset pos) l))%nat
      by (apply subseteq_size; set_solver).
    simpl. lia.
Qed.

Lemma size_positions tiles : (size (positions tiles) ≤ length tiles)%nat.
Proof.
  unfold positions. etrans; [apply size_list_to_set_le|]. by rewrite length_fmap.
Qed.

Lemma table_connections_known tiles p t :
  known_kinds tiles → dict_get tiles p = Some t →
  table_connections t = Ret (get_connections t).
Proof.
  intros Hk Ht%dict_get_Some_elem. unfold known_kinds in Hk.
  rewrite Forall_forall in Hk. destruct (Hk _ Ht) as [vs Hvs]; simpl in Hvs.
  unfold table_connections, get_connections. by rewrite Hvs.
Qed.

Lemma table_connections_not_OutOfFuel t : table_connections t ≠ OutOfFuel.
Proof. unfold table_connections. by destruct (PIPE_TYPES !! type t). Qed.

(** The inner loop pushes positions of the tile map, at most one per
    connection, on top of the frontier. *)
Lemma push_neighbors_Ret tiles p conns F F' :
  push_neighbors tiles p conns F = Ret F' →
  ∃ new, F' = new ++ F ∧ (length new ≤ length conns)%nat ∧
         Forall (λ q, q ∈ tiles.*1) new.
Proof.
  revert F. induction conns as [|[dr dc] conns IH]; intros F; simpl.
  - intros [= <-]. exists []. by repeat split.
  - destruct (dict_get tiles (p.1 + dr, p.2 + dc)) as [n|] eqn:Hn.
    + intros H. inv_bind H. case_bool_decide.
      * apply IH in H as (new & -> & Hlen & Hall).
        exists (new ++ [(p.1 + dr, p.2 + dc)]). rewrite <- app_assoc. split; [done|].
        rewrite length_app; simpl. split; [lia|].
        apply Forall_app. split; [done|]. constructor; [|done].
        apply dict_get_is_Some. by rewrite Hn.
      * apply IH in H as (new & -> & Hlen & Hall). exists new.
        split; [done|]. split; [simpl; lia | done].
    + intros H. apply IH in H as (new & -> & Hlen & Hall).
      exists new.
        split; [done|]. split; [simpl; lia | done].
Qed.

Lemma push_neighbors_not_OutOfFuel tiles p conns F :
  push_neighbors tiles p conns F ≠ OutOfFuel.
Proof.
  revert F. induction conns as [|[dr dc] conns IH]; intros F; simpl; [done|].
  destruct (dict_get tiles (p.1 + dr, p.2 + dc)) as [n|]; [|done].
  pose proof (table_connections_not_OutOfFuel n).
  destruct (table_connections n); simpl; [|done..]. by case_bool_decide.
Qed.

Lemma push_neighbors_known tiles p conns F :
  known_kinds tiles → ∃ F', push_neighbors tiles p conns F = Ret F'.
Proof.
  intros Hk. revert F. induction conns as [|[dr dc] conns IH]; intros F; simpl; [eauto|].
  destruct (dict_get tiles (p.1 + dr, p.2 + dc)) as [n|] eqn:Hn; [|done].
  rewrite (table_connections_known _ _ _ Hk Hn); simpl. by case_bool_decide.
Qed.

Lemma size_unvisited_step (K V : gset pos) p :
  p ∈ K → p ∉ V → size (K ∖ V) = S (size (K ∖ ({[p]} ∪ V))).
Proof.
  intros HK HV.
  assert (K ∖ V = {[p]} ∪ K ∖ ({[p]} ∪ V)) as ->.
  { apply set_eq. intros x. destruct (decide (x = p)); set_solver. }
  rewrite size_union by set_solver. by rewrite size_singleton.
Qed.

(** The fuel of [traversal_fuel] is enough: what is left to do, four
    pushes per unvisited tile and the frontier, goes down in every
    iteration. *)
Lemma connected_loop_total fuel tiles V F :
  (4 * size (positions tiles ∖ V) + length F < fuel)%nat →
  connected_loop fuel tiles V F ≠ OutOfFuel.
Proof.
  revert V F. induction fuel as [|fuel IH]; intros V F Hlt; [lia|]. simpl.
  destruct F as [|p F]; [done|]. simpl in Hlt.
  destruct (bool_decide (p ∈ V) || negb (dict_mem tiles p)) eqn:Hc.
  - apply IH. lia.
  - apply orb_false_iff in Hc as [HV Hmem].
    apply bool_decide_eq_false in HV. apply negb_false_iff in Hmem.
    pose proof Hmem as Hin. apply dict_mem_true, elem_of_positions in Hin.
    apply dict_mem_true, dict_get_is_Some in Hmem as [tile Htile]. rewrite Htile.
    pose proof (push_neighbors_not_OutOfFuel tiles p (get_connections tile) F).
    destruct (push_neighbors tiles p (get_connections tile) F) as [F'| |] eqn:Hpush;
      simpl; [|done..].
    apply push_neighbors_Ret in Hpush as (new & -> & Hlen & _).
    apply IH. rewrite length_app.
    pose proof (get_connections_length tile).
    rewrite (size_unvisited_step _ _ p Hin HV) in Hlt. lia.
Qed.

Lemma is_goal_loop_total fuel tiles V F :
  (4 * size (positions tiles ∖ V) + length F < fuel)%nat →
  is_goal_loop fuel tiles V F ≠ OutOfFuel.
Proof.
  revert V F. induction fuel as [|fuel IH]; intros V F Hlt; [lia|]. simpl.
  destruct F as [|p F]; [done|]. simpl in Hlt.
  case_bool_decide as HV; [apply IH; lia|].
  assert (size (positions tiles ∖ ({[p]} ∪ V)) ≤ size (positions tiles ∖ V))%nat
    by (apply subseteq_size; set_solver).
  destruct (dict_get tiles p) as [tile|] eqn:Htile; [|apply IH; lia].
  assert (p ∈ positions tiles) as Hin.
  { apply elem_of_positions, dict_get_is_Some. by rewrite Htile. }
  pose proof (push_neighbors_not_OutOfFuel tiles p (get_connections tile) F).
  destruct (push_neighbors tiles p (get_connections tile) F) as [F'| |] eqn:Hpush;
    simpl; [|done..].
  apply push_neighbors_Ret in Hpush as (new & -> & Hlen & _).
  apply IH. rewrite length_app.
  pose proof (get_connections_length tile).
  rewrite (size_unvisited_step _ _ p Hin HV) in Hlt. lia.
Qed.

Lemma connected_loop_known fuel tiles V F e :
  known_kinds tiles → connected_loop fuel tiles V F ≠ Raise e.
Proof.
  intros Hk. revert V F. induction fuel as [|fuel IH]; intros V F; [done|]. simpl.
  destruct F as [|p F]; [done|].
  destruct (bool_decide (p ∈ V) || negb (dict_mem tiles p)) eqn:Hc; [apply IH|].
  apply orb_false_iff in Hc as [_ Hmem]. apply negb_false_iff in Hmem.
  apply dict_mem_true, dict_get_is_Some in Hmem as [tile Htile]. rewrite Htile.
  destruct (push_neighbors_known tiles p (get_connections tile) F Hk) as [F' ->].
  apply IH.
Qed.

Lemma is_goal_loop_known fuel tiles V F e :
  known_kinds tiles → is_goal_loop fuel tiles V F ≠ Raise e.
Proof.
  intros Hk. revert V F. induction fuel as [|fuel IH]; intros V F; [done|]. simpl.
  destruct F as [|p F]; [done|].
  case_bool_decide; [apply IH|].
  destruct (dict_get tiles p) as [tile|]; [|apply IH].
  destruct (push_neighbors_known tiles p (get_connections tile) F Hk) as [F' ->].
  apply IH.
Qed.

(** The result of the traversal holds what was visited before and, on
    top of it, positions of the tile map only. *)
Lemma connected_loop_bounds fuel tiles V F R :
  connected_loop fuel tiles V F = Ret R → V ⊆ R ∧ R ⊆ V ∪ positions tiles.
Proof.
  revert V F. induction fuel as [|fuel IH]; intros V F; [done|]. simpl.
  destruct F as [|p F]; [intros [= <-]; set_solver|].
  destruct (bool_decide (p ∈ V) || negb (dict_mem tiles p)) eqn:Hc; [apply IH|].
  apply orb_false_iff in Hc as [_ Hmem]. apply negb_false_iff in Hmem.
  pose proof Hmem as Hin. apply dict_mem_true, elem_of_positions in Hin.
  apply dict_mem_true, dict_get_is_Some in Hmem as [tile Htile]. rewrite Htile.
  intros H. inv_bind H. apply IH in H. set_solver.
Qed.

(** As long as the frontier holds positions of the tile map only, the
    two traversals do the same. *)
Lemma is_goal_loop_connected fuel tiles V F :
  Forall (λ q, q ∈ tiles.*1) F →
  is_goal_loop fuel tiles V F = connected_loop fuel tiles V F.
Proof.
  revert V F. induction fuel as [|fuel IH]; intros V F HF; [done|]. simpl.
  destruct F as [|p F]; [done|].
  apply Forall_cons in HF as [Hp HF].
  pose proof Hp as Hmem. apply dict_mem_true in Hmem. rewrite Hmem, orb_false_r.
  case_bool_decide; [by apply IH|].
  apply dict_get_is_Some in Hp as [tile Htile]. rewrite Htile.
  destruct (push_neighbors tiles p (get_connections tile) F) as [F'| |] eqn:Hpush;
    simpl; [|done..].
  apply IH. apply push_neighbors_Ret in Hpush as (new & -> & _ & Hall).
  by apply Forall_app.
Qed.

Lemma traversal_fuel_enough tiles (src : pos) :
  (4 * size (positions tiles ∖ ∅) + length [src] < traversal_fuel tiles)%nat.
Proof.
  unfold traversal_fuel. simpl.
  assert (size (positions tiles ∖ ∅) ≤ size (positions tiles))%nat
    by (apply subseteq_size; set_solver).
  pose proof (size_positions tiles). lia.
Qed.

(** [get_connected_tiles] and [is_goal] return or raise: their loops
    end within the fuel they are given. *)
Lemma get_connected_tiles_total s : get_connected_tiles s ≠ OutOfFuel.
Proof. apply connected_loop_total, traversal_fuel_enough. Qed.

Lemma is_goal_total s : is_goal s ≠ OutOfFuel.
Proof.
  unfold is_goal.
  pose proof (is_goal_loop_total _ _ _ _ (traversal_fuel_enough (tiles s) (source s))).
  by destruct (is_goal_loop _ _ _ _).
Qed.

Lemma get_connected_tiles_known s :
  known_kinds (tiles s) → ∃ R, get_connected_tiles s = Ret R.
Proof.
  intros Hk. pose proof (get_connected_tiles_total s) as Ht.
  unfold get_connected_tiles in *.
  pose proof (connected_loop_known (traversal_fuel (tiles s)) (tiles s) ∅ [source s]) as Hr.
  destruct (connected_loop _ _ _ _) as [R|e|]; [eauto | by destruct (Hr e) | done].
Qed.

Lemma is_goal_known s : known_kinds (tiles s) → ∃ b, is_goal s = Ret b.
Proof.
  intros Hk. pose proof (is_goal_total s) as Ht. unfold is_goal in *.
  pose proof (is_goal_loop_known (traversal_fuel (tiles s)) (tiles s) ∅ [source s]) as Hr.
  destruct (is_goal_loop _ _ _ _) as [R|e|]; [eauto | by destruct (Hr e) | done].
Qed.

Lemma get_connected_tiles_size s R :
  get_connected_tiles s = Ret R → (size R ≤ length (tiles s))%nat.
Proof.
  intros [_ H]%connected_loop_bounds.
  etrans; [|apply size_positions]. apply subseteq_size. set_solver.
Qed.

(** With the source on the tile map, [is_goal] compares the size of the
    connected set with the number of tiles. *)
Lemma is_goal_on_map s :
  source s ∈ (tiles s).*1 →
  is_goal s =
  (visited ← get_connected_tiles s;
   mret (bool_decide (Z.of_nat (size visited) = len (tiles s)))).
Proof.
  intros Hsrc. unfold is_goal, get_connected_tiles.
  rewrite is_goal_loop_connected; [done|]. by constructor.
Qed.

(** With the source off the tile map, [is_goal] still counts it as
    visited, and [get_connected_tiles] does not. *)
Lemma is_goal_off_map s :
  source s ∉ (tiles s).*1 →
  is_goal s = Ret (bool_decide (1 = len (tiles s))) ∧
  get_connected_tiles s = Ret ∅.
Proof.
  intros Hsrc. pose proof Hsrc as Hget. apply dict_get_None in Hget.
  unfold is_goal, get_connected_tiles, traversal_fuel.
  replace (4 * length (tiles s) + 2)%nat with (S (S (4 * length (tiles s)))) by lia.
  cbn [is_goal_loop connected_loop]. unfold dict_mem. rewrite Hget.
  rewrite bool_decide_eq_false_2 by set_solver.
  rewrite (bool_decide_eq_false_2 (is_Some None)) by (by intros [? ?]).
  cbn [orb negb mbind result_bind mret result_ret]. split; [|done].
  by rewrite union_empty_r_L, size_singleton.
Qed.

Lemma source_connected s R :
  source s ∈ (tiles s).*1 → get_connected_tiles s = Ret R → source s ∈ R.
Proof.
  intros Hsrc. pose proof Hsrc as Hmem. apply dict_mem_true in Hmem.
  apply dict_get_is_Some in Hsrc as [tile Htile].
  unfold get_connected_tiles, traversal_fuel.
  replace (4 * length (tiles s) + 2)%nat with (S (4 * length (tiles s) + 1)) by lia.
  cbn [connected_loop]. rewrite Hmem, Htile.
  rewrite bool_decide_eq_false_2 by set_solver. cbn [orb negb].
  intros H. inv_bind H. apply connected_loop_bounds in H. set_solver.
Qed.

(** Goal soundness for a source on the tile map. *)
Lemma goal_soundness_on_map s :
  source s ∈ (tiles s).*1 → is_goal s = Ret true →
  ∃ R, get_connected_tiles s = Ret R ∧ size R = length (tiles s) ∧ source s ∈ R.
Proof.
  intros Hsrc Hgoal. rewrite (is_goal_on_map s Hsrc) in Hgoal.
  inv_bind Hgoal. injection Hgoal as Hgoal. apply bool_decide_eq_true in Hgoal.
  exists a. split; [done|]. split; [unfold len in Hgoal; lia|].
  by apply source_connected.
Qed.

(** C2 at a state the parser can produce: one tile and a source that is
    not a position of the tile map.  [is_goal] answers true, while the
    connected set is empty: its size is not the number of tiles and the
    source is not in it. *)
Theorem is_goal_counts_source_off_map :
  is_goal (mkGameState 1 [((0, 0), mkTile "e" 0)] (5, 5)) = Ret true ∧
  get_connected_tiles (mkGameState 1 [((0, 0), mkTile "e" 0)] (5, 5)) = Ret ∅ ∧
  size (∅ : gset pos) ≠ length [((0, 0), mkTile "e" 0)] ∧
  (5, 5) ∉ (∅ : gset pos).
Proof.
  destruct (is_goal_off_map (mkGameState 1 [((0, 0), mkTile "e" 0)] (5, 5)))
    as [Hgoal Hconn]; [compute_done|].
  split; [done|]. split; [done|]. split; [by rewrite size_empty | set_solver].
Qed.

(** ** Shapes *)

Lemma variant_count_lookup k vs : PIPE_TYPES !! k = Some vs → variant_count k = len vs.
Proof. intros H. unfold variant_count. by rewrite H. Qed.

Lemma same_shape_refl s : same_shape s s.
Proof.
  split; [done|]. split; [done|].
  apply Forall2_same_length_lookup_2; [done|].
  intros i x y Hx Hy. assert (x = y) as -> by congruence.
  split; [done|]. split; [done|]. by left.
Qed.

Lemma same_shape_keys s0 s : same_shape s0 s → (tiles s).*1 = (tiles s0).*1.
Proof.
  intros (_ & _ & H). induction H as [|x y l l' (Hk & _) _ IH]; simpl; [done|].
  f_equal; [done | exact IH].
Qed.

Lemma same_shape_length s0 s : same_shape s0 s → len (tiles s) = len (tiles s0).
Proof. intros (_ & _ & H). unfold len. by rewrite (Forall2_length _ _ _ H). Qed.

Lemma same_shape_wf s0 s : dict_wf (tiles s0) → same_shape s0 s → dict_wf (tiles s).
Proof. unfold dict_wf. intros Hwf Hs. by rewrite (same_shape_keys _ _ Hs). Qed.

Lemma same_shape_known s0 s :
  known_kinds (tiles s0) → same_shape s0 s → known_kinds (tiles s).
Proof.
  unfold known_kinds. intros Hk (_ & _ & H).
  induction H as [|x y l l' (_ & Ht & _) _ IH]; [done|].
  apply Forall_cons in Hk as [Hx Hk]. constructor; [by rewrite Ht | auto].
Qed.

Lemma Forall2_dict_set {A} (R : A → pos * Tile → Prop) l d k t v :
  Forall2 R l d → dict_get d k = Some t →
  (∀ x, R x (k, t) → R x (k, v)) →
  Forall2 R l (dict_set d k v).
Proof.
  intros H Hget Hrep. induction H as [|x [k' v'] l d Hxy H IH]; simpl in *; [done|].
  case_decide; subst.
  - injection Hget as ->. constructor; auto.
  - constructor; auto.
Qed.

Lemma same_shape_step s0 s s' :
  dict_wf (tiles s0) → same_shape s0 s → gen_step s s' → same_shape s0 s'.
Proof.
  intros Hwf Hs (acts & a & Hacts & Ha & Happ).
  pose proof (same_shape_wf _ _ Hwf Hs) as Hwfs.
  apply (get_possible_actions_elem _ _ _ Hacts) in Ha
    as (t & vs & Hin & Hvs & Hrange & _).
  apply (dict_get_elem_wf _ _ _ Hwfs) in Hin.
  rewrite (apply_action_Ret _ _ _ Hin) in Happ. injection Happ as <-.
  destruct Hs as (Hg & Hsrc & Hall). split; [done|]. split; [done|]. simpl.
  eapply Forall2_dict_set; [done..|].
  intros x (Hk & Ht & _); simpl in *. split; [done|]. split; [done|].
  right. rewrite <- Ht, (variant_count_lookup _ _ Hvs). done.
Qed.

Lemma same_shape_reach s0 s :
  dict_wf (tiles s0) → rtc gen_step s0 s → same_shape s0 s.
Proof.
  intros Hwf. revert s. apply rtc_ind_r; [apply same_shape_refl|].
  intros y z _ Hstep Hy. by eapply same_shape_step.
Qed.

Lemma elem_of_rot_choices t r : r ∈ rot_choices t ↔ rot_ok t r.
Proof.
  unfold rot_choices, rot_ok. rewrite elem_of_cons, elem_of_seqZ.
  split; (intros [?|?]; [by left | right; lia]).
Qed.

Lemma elem_of_tile_choices d0 d :
  Forall2 (λ x y, y.1 = x.1 ∧ type y.2 = type x.2 ∧ rot_ok x.2 (rotation y.2)) d0 d →
  d ∈ tile_choices d0.
Proof.
  induction 1 as [|[p0 t0] [p t] d0 d (Hp & Ht & Hr) _ IH]; cbn [tile_choices].
  - by left.
  - apply list_elem_of_bind. exists (rotation t). split; [|by apply elem_of_rot_choices].
    apply list_elem_of_bind. exists d. split; [|done].
    apply list_elem_of_singleton. simpl in *. subst p0. rewrite <- Ht. by destruct t.
Qed.

Lemma elem_of_universe s0 s : same_shape s0 s → s ∈ universe s0.
Proof.
  intros (Hg & Hsrc & Hall). unfold universe.
  apply list_elem_of_fmap. exists (tiles s). split.
  - destruct s; simpl in *. by subst.
  - by apply elem_of_tile_choices.
Qed.

(** Within a shape the key tells the states apart. *)
Lemma hash_inj s0 s1 s2 :
  dict_wf (tiles s0) → same_shape s0 s1 → same_shape s0 s2 →
  hash s1 = hash s2 → s1 = s2.
Proof.
  intros Hwf H1 H2 Hh.
  pose proof (same_shape_wf _ _ Hwf H1) as Hwf1.
  pose proof (same_shape_wf _ _ Hwf H2) as Hwf2.
  assert (sorted_items (tiles s1) = sorted_items (tiles s2)) as Hsorted.
  { unfold hash in Hh. revert Hh. generalize (sorted_items (tiles s1)) (sorted_items (tiles s2)).
    induction l as [|[p t] l IH]; intros [|[p' t'] l']; simpl; try done.
    intros [= -> Ht Hr Hl]. f_equal; [|auto].
    destruct t, t'; simpl in *. by subst. }
  assert (tiles s1 = tiles s2) as Htiles.
  { apply dict_ext; [done|by rewrite (same_shape_keys _ _ H1), (same_shape_keys _ _ H2)|].
    intros k. destruct (dict_get (tiles s1) k) as [t|] eqn:Hk.
    - symmetry. apply dict_get_elem_wf; [done|].
      rewrite <- sorted_items_perm, <- Hsorted, sorted_items_perm.
      by apply dict_get_Some_elem.
    - symmetry. apply dict_get_None. apply dict_get_None in Hk.
      by rewrite (same_shape_keys _ _ H2), <- (same_shape_keys _ _ H1). }
  destruct H1 as (Hg1 & Hs1 & _), H2 as (Hg2 & Hs2 & _).
  destruct s1, s2; simpl in *. congruence.
Qed.

(** ** The pieces of an iteration *)

Lemma elem_of_heappush heap item x : x ∈ heappush heap item ↔ x = item ∨ x ∈ heap.
Proof.
  induction heap as [|y heap IH]; simpl.
  - set_solver.
  - case_decide; rewrite !elem_of_cons; [done|]. rewrite IH. tauto.
Qed.

Lemma length_heappush heap item : length (heappush heap item) = S (length heap).
Proof. induction heap as [|y heap IH]; simpl; [done|]. case_decide; simpl; lia. Qed.

Lemma danglingCount_nonneg s : 0 <= danglingCount s.
Proof. unfold danglingCount. lia. Qed.

Lemma heuristic_lower_bound s h :
  heuristic s = Ret h → - (10 * len (tiles s)) <= h.
Proof.
  rewrite heuristic_unfold. intros H. inv_bind H. injection H as <-.
  pose proof (get_connected_tiles_size _ _ Ha).
  pose proof (danglingCount_nonneg s). unfold len. lia.
Qed.

Lemma heuristic_known s : known_kinds (tiles s) → ∃ h, heuristic s = Ret h.
Proof.
  intros [R HR]%get_connected_tiles_known. rewrite heuristic_unfold, HR. by eexists.
Qed.

Lemma actions_loop_known tiles items acc :
  known_kinds items → ∃ acts, actions_loop tiles items acc = Ret acts.
Proof.
  intros Hk. revert acc. induction Hk as [|[p t] items [vs Hvs] _ IH]; intros acc; simpl.
  - eauto.
  - simpl in Hvs. rewrite Hvs; simpl. apply IH.
Qed.

Lemma get_possible_actions_known s :
  known_kinds (tiles s) → ∃ acts, get_possible_actions s = Ret acts.
Proof. apply actions_loop_known. Qed.

(** The entries [expand] adds: one for every action, with the successor
    state, its priority and the path that leads to it. *)
Lemma expand_Ret s path g acts F c F' c' :
  expand s path g acts F c = Ret (F', c') →
  (length F' = length F + length acts)%nat ∧
  (∀ x, x ∈ F → x ∈ F') ∧
  (∀ x, x ∈ F' → x ∈ F ∨ ∃ a s' h, a ∈ acts ∧ apply_action s a = Ret s' ∧
      heuristic s' = Ret h ∧ node_f x = g + 1 + h ∧ node_state x = s' ∧
      node_path x = path ++ [a]) ∧
  (∀ a s', a ∈ acts → apply_action s a = Ret s' →
      ∃ x, x ∈ F' ∧ node_state x = s').
Proof.
  revert F c. induction acts as [|a acts IH]; intros F c; simpl.
  - intros [= <- <-]. split; [lia|]. split; [done|]. split; [auto|].
    intros a s' Ha. by apply elem_of_nil in Ha.
  - intros H. inv_bind H. inv_bind H. apply IH in H as (Hlen & Hold & Hnew & Hall).
    rewrite length_heappush in Hlen. split; [lia|]. split; [|split].
    + intros x Hx. apply Hold, elem_of_heappush. by right.
    + intros x Hx. apply Hnew in Hx as [Hx|(a' & s' & h & Hin & Hrest)].
      * apply elem_of_heappush in Hx as [->|Hx]; [|by left].
        right. exists a, a0, a1. split; [left|done].
      * right. exists a', s', h. split; [by right|done].
    + intros a' s' Hin Happ. apply elem_of_cons in Hin as [->|Hin]; [|eauto].
      rewrite Ha in Happ. injection Happ as <-.
      eexists. split; [apply Hold, elem_of_heappush; by left|done].
Qed.

Lemma expand_total s path g acts F c :
  (∀ a, a ∈ acts → ∃ s' h, apply_action s a = Ret s' ∧ heuristic s' = Ret h) →
  ∃ F' c', expand s path g acts F c = Ret (F', c').
Proof.
  revert F c. induction acts as [|a acts IH]; intros F c Hall; simpl; [eauto|].
  destruct (Hall a) as (s' & h & -> & Hh); [left|]. simpl. rewrite Hh. simpl.
  apply IH. intros a' Ha'. apply Hall. by right.
Qed.

Lemma apply_actions_snoc s0 path s a s' :
  apply_actions s0 path = Ret s → apply_action s a = Ret s' →
  apply_actions s0 (path ++ [a]) = Ret s'.
Proof.
  revert s0. induction path as [|b path IH]; intros s0; simpl.
  - intros [= ->] ->. done.
  - intros H Ha. inv_bind H. rewrite Ha0. simpl. eauto.
Qed.

(** The ways an iteration of the loop of [solve] can end. *)
Lemma solve_step_Ret m it :
  solve_step m = Ret it →
  (frontier m = [] ∧ it = Return None) ∨
  ∃ x F, frontier m = x :: F ∧
    ((is_goal (node_state x) = Ret true ∧ it = Return (Some (node_path x))) ∨
     (is_goal (node_state x) = Ret false ∧
      ∃ f', explored m !! hash (node_state x) = Some f' ∧ f' <= node_f x ∧
            it = Continue (mkSearch F (explored m) (counter m))) ∨
     (is_goal (node_state x) = Ret false ∧
      (∀ f', explored m !! hash (node_state x) = Some f' → node_f x < f') ∧
      ∃ acts F' c',
        get_possible_actions (node_state x) = Ret acts ∧
        expand (node_state x) (node_path x) (len (node_path x)) acts F (counter m)
          = Ret (F', c') ∧
        it = Continue (mkSearch F' (<[hash (node_state x) := node_f x]> (explored m)) c'))).
Proof.
  unfold solve_step. destruct (frontier m) as [|[[[f c] s] path] F]; simpl.
  - intros [= <-]. by left.
  - intros H. right. exists (f, c, s, path), F. split; [done|].
    unfold node_state, node_path, node_f; simpl.
    inv_bind H. destruct a.
    + injection H as <-. by left.
    + right. destruct (explored m !! hash s) as [f'|] eqn:Hex.
      * case_bool_decide.
        -- injection H as <-. left. split; [done|]. by exists f'.
        -- right. split; [done|]. split; [intros ? [= <-]; lia|].
           inv_bind H. inv_bind H. destruct a0 as [F' c'].
           injection H as <-. by exists a, F', c'.
      * right. split; [done|]. split; [done|].
        inv_bind H. inv_bind H. destruct a0 as [F' c'].
        injection H as <-. by exists a, F', c'.
Qed.


(** ** Termination measure *)

Lemma filter_length_lt {A} (P Q : A → Prop) `{∀ x, Decision (P x)} `{∀ x, Decision (Q x)}
    (l : list A) (x : A) :
  (∀ y, Q y → P y) → x ∈ l → P x → ¬ Q x →
  (length (filter Q l) < length (filter P l))%nat.
Proof.
  intros HQP Hx HP HQ.
  assert (∀ l', length (filter Q l') ≤ length (filter P l'))%nat as Hle.
  { induction l' as [|y l' IH]; [done|]. rewrite !filter_cons.
    destruct (decide (Q y)), (decide (P y)); simpl; try lia. naive_solver. }
  induction l as [|y l IH]; [by apply elem_of_nil in Hx|].
  rewrite !filter_cons. apply elem_of_cons in Hx as [<-|Hx].
  - rewrite decide_False, decide_True by done. simpl. specialize (Hle l). lia.
  - specialize (IH Hx). destruct (decide (Q y)), (decide (P y)); simpl; try lia.
    naive_solver.
Qed.

Lemma filter_length_ext {A} (P Q : A → Prop) `{∀ x, Decision (P x)} `{∀ x, Decision (Q x)}
    (l : list A) :
  (∀ y, Q y ↔ P y) → length (filter Q l) = length (filter P l).
Proof.
  intros HQP. induction l as [|y l IH]; [done|]. rewrite !filter_cons.
  destruct (decide (Q y)), (decide (P y)); simpl; try lia; naive_solver.
Qed.

Lemma sum_list_fmap_lt {A} (g g' : A → nat) (l : list A) (x : A) :
  (∀ y, (g' y ≤ g y)%nat) → x ∈ l → (g' x < g x)%nat →
  (sum_list (g' <$> l) < sum_list (g <$> l))%nat.
Proof.
  intros Hle Hx Hlt.
  assert (∀ l', sum_list (g' <$> l') ≤ sum_list (g <$> l'))%nat as Hall.
  { induction l' as [|y l' IH]; simpl; [done|].
    specialize (Hle y). unfold fmap in *. lia. }
  induction l as [|y l IH]; [by apply elem_of_nil in Hx|].
  apply elem_of_cons in Hx as [<-|Hx]; simpl.
  - specialize (Hall l). unfold fmap in *. lia.
  - specialize (IH Hx). specialize (Hle y). unfold fmap in *. lia.
Qed.


(** ** The loop of [solve] *)

Section search.
Context (s0 : GameState) (Hwf : dict_wf (tiles s0)) (Hkn : known_kinds (tiles s0)).

Lemma reach_known s : rtc gen_step s0 s → known_kinds (tiles s).
Proof. intros H. eapply same_shape_known; [done|]. by apply same_shape_reach. Qed.

Lemma reach_len s : rtc gen_step s0 s → len (tiles s) = len (tiles s0).
Proof. intros H. by apply same_shape_length, same_shape_reach. Qed.

Lemma solve_init_inv : search_inv s0 (solve_init s0).
Proof.
  split; simpl.
  - intros x ->%list_elem_of_singleton. simpl. split; [done|]. split; [done|].
    unfold node_f, len; simpl. lia.
  - intros k f Hk. by rewrite lookup_empty in Hk.
  - right. exists (0, 0, s0, []). split; [by apply list_elem_of_singleton | done].
Qed.

(** Every iteration returns or goes on: nothing raises. *)
Lemma solve_step_total m : search_inv s0 m → ∃ it, solve_step m = Ret it.
Proof.
  intros [Hfr _ _]. unfold solve_step.
  destruct (frontier m) as [|[[[f c] s] path] F]; simpl; [eauto|].
  destruct (Hfr (f, c, s, path)) as (Hpath & Hreach & Hf); [left|].
  unfold node_state, node_path in *; simpl in *.
  destruct (is_goal_known s (reach_known s Hreach)) as [b ->]; simpl.
  destruct b; [eauto|].
  destruct (match explored m !! hash s with Some f' => bool_decide (f' <= f) | None => false end);
    [eauto|].
  destruct (get_possible_actions_known s (reach_known s Hreach)) as [acts Hacts].
  rewrite Hacts; simpl.
  destruct (expand_total s path (len path) acts F (counter m)) as (F' & c' & ->); [|simpl; eauto].
  intros a Ha. pose proof Ha as Hel.
  apply (get_possible_actions_elem _ _ _ Hacts) in Hel as (t & vs & Hin & _).
  assert (dict_wf (tiles s)) as Hwfs by (eapply same_shape_wf; [done|]; by apply same_shape_reach).
  apply (dict_get_elem_wf _ _ _ Hwfs) in Hin.
  eexists. rewrite (apply_action_Ret _ _ _ Hin).
  assert (rtc gen_step s0
    (mkGameState (grid_size s) (dict_set (tiles s) (a_pos a) (rotate t (a_rotation a))) (source s)))
    as Hreach'.
  { eapply rtc_r; [done|]. exists acts, a. split; [done|].
    split; [done | by apply apply_action_Ret]. }
  destruct (heuristic_known _ (reach_known _ Hreach')) as [h Hh]. eauto.
Qed.

(** The invariant holds after an iteration that goes on. *)
Lemma solve_step_inv m m' :
  search_inv s0 m → solve_step m = Ret (Continue m') → search_inv s0 m'.
Proof.
  intros [Hfr Hex Hinit] Hstep.
  apply solve_step_Ret in Hstep as [[_ [=]]|(x & F & HF & Hcases)].
  rewrite HF in Hfr, Hex, Hinit.
  destruct (Hfr x) as (Hpath & Hreach & Hf); [left|].
  destruct Hcases as [[_ [=]]|[(Hgoal & f' & Hf' & Hle & [= ->])|
    (Hgoal & Hfresh & acts & F' & c' & Hacts & Hexp & [= ->])]].
  - (* a stale entry *)
    assert (∀ s', (is_Some (explored m !! hash s') ∨
                   ∃ y, y ∈ x :: F ∧ node_state y = s') →
                  is_Some (explored m !! hash s') ∨
                   ∃ y, y ∈ F ∧ node_state y = s') as Hcover.
    { intros s' [?|(y & [->|Hy]%elem_of_cons & <-)]; [by left| |by eauto].
      left. by rewrite Hf'. }
    split; simpl.
    + intros y Hy. apply Hfr. by right.
    + intros k f Hk. destruct (Hex k f Hk) as (Hlow & s & Hs & Hh & Hg & Hsucc).
      split; [done|]. exists s. repeat split; try done. intros s' Hs'. auto.
    + auto.
  - (* an expansion *)
    apply expand_Ret in Hexp as (_ & Hold & Hnew & Hall).
    assert (∀ s', (is_Some (explored m !! hash s') ∨
                   ∃ y, y ∈ x :: F ∧ node_state y = s') →
                  is_Some (<[hash (node_state x) := node_f x]> (explored m) !! hash s') ∨
                   ∃ y, y ∈ F' ∧ node_state y = s') as Hcover.
    { intros s' [Hs'|(y & [->|Hy]%elem_of_cons & <-)].
      - left. rewrite lookup_insert_is_Some. destruct (decide (hash (node_state x) = hash s')); auto.
      - left. by rewrite lookup_insert_eq.
      - right. eauto. }
    split; simpl.
    + intros y Hy. apply Hnew in Hy as [Hy|(a & s' & h & Ha & Happ & Hh & Hyf & Hys & Hyp)].
      { apply Hfr. by right. }
      assert (rtc gen_step s0 s') as Hreach'.
      { eapply rtc_r; [done|]. by exists acts, a. }
      rewrite Hyf, Hys, Hyp. split; [by eapply apply_actions_snoc|]. split; [done|].
      apply heuristic_lower_bound in Hh. rewrite (reach_len _ Hreach') in Hh.
      unfold len in *. lia.
    + intros k f Hk. apply lookup_insert_Some in Hk as [[<- <-]|[Hne Hk]].
      * split; [done|]. exists (node_state x). repeat split; try done.
        intros s' (acts' & a & Hacts' & Ha & Happ).
        rewrite Hacts in Hacts'. injection Hacts' as <-.
        right. eauto.
      * destruct (Hex k f Hk) as (Hlow & s & Hs & Hh & Hg & Hsucc).
        split; [done|]. exists s. repeat split; try done. intros s' Hs'. auto.
    + auto.
Qed.

(** Every iteration that goes on brings the search closer to its end. *)
Lemma solve_step_decreases m m' :
  search_inv s0 m → solve_step m = Ret (Continue m') →
  (unexplored s0 m' < unexplored s0 m)%nat ∨
  (unexplored s0 m' = unexplored s0 m ∧ slack s0 m' < slack s0 m)%nat ∨
  (unexplored s0 m' = unexplored s0 m ∧ slack s0 m' = slack s0 m ∧
   length (frontier m') < length (frontier m))%nat.
Proof.
  intros [Hfr Hex Hinit] Hstep.
  apply solve_step_Ret in Hstep as [[_ [=]]|(x & F & HF & Hcases)].
  rewrite HF in Hfr.
  destruct (Hfr x) as (Hpath & Hreach & Hf); [left|].
  pose proof (elem_of_universe _ _ (same_shape_reach _ _ Hwf Hreach)) as HU.
  destruct Hcases as [[_ [=]]|[(Hgoal & f' & Hf' & Hle & [= ->])|
    (Hgoal & Hfresh & acts & F' & c' & Hacts & Hexp & [= ->])]].
  - right. right. rewrite HF. unfold unexplored, slack. simpl. auto.
  - destruct (explored m !! hash (node_state x)) as [f'|] eqn:Hold.
    + right. left. specialize (Hfresh f' eq_refl). split.
      * unfold unexplored; simpl. apply filter_length_ext. intros u.
        rewrite lookup_insert_None. split; [tauto|]. intros Hu. split; [done|].
        intros Heq. congruence.
      * unfold slack; simpl. apply (sum_list_fmap_lt _ _ _ (node_state x)); [|done|].
        -- intros u. destruct (decide (hash (node_state x) = hash u)) as [Heq|Hne].
           ++ rewrite <- Heq, lookup_insert_eq, Hold. lia.
           ++ by rewrite lookup_insert_ne.
        -- rewrite lookup_insert_eq, Hold. lia.
    + left. unfold unexplored; simpl.
      apply (filter_length_lt _ _ _ (node_state x)); [|done|done|].
      * intros u. rewrite lookup_insert_None. tauto.
      * by rewrite lookup_insert_eq.
Qed.

(** A returned path leads from the initial state to a goal state. *)
Lemma solve_step_found m path :
  search_inv s0 m → solve_step m = Ret (Return (Some path)) →
  ∃ s', apply_actions s0 path = Ret s' ∧ rtc gen_step s0 s' ∧ is_goal s' = Ret true.
Proof.
  intros [Hfr _ _] Hstep.
  apply solve_step_Ret in Hstep as [[_ [=]]|(x & F & HF & Hcases)].
  rewrite HF in Hfr. destruct (Hfr x) as (Hpath & Hreach & _); [left|].
  destruct Hcases as [[Hgoal [= ->]]|[(_ & ? & _ & _ & [=])|(_ & _ & ? & ? & ? & _ & _ & [=])]].
  eauto.
Qed.

(** When the frontier is empty, [explored] holds every state the
    generator can reach, and none of them is a goal. *)
Lemma solve_step_not_found m :
  search_inv s0 m → solve_step m = Ret (Return None) → ¬ gen_solvable s0.
Proof.
  intros [Hfr Hex Hinit] Hstep.
  apply solve_step_Ret in Hstep as [[HF _]|(x & F & HF & Hcases)]; cycle 1.
  { by destruct Hcases as [[_ [=]]|[(_ & ? & _ & _ & [=])|(_ & _ & ? & ? & ? & _ & _ & [=])]]. }
  rewrite HF in Hex, Hinit.
  assert (∀ s, (is_Some (explored m !! hash s) ∨ ∃ y, y ∈ [] ∧ node_state y = s) →
               is_Some (explored m !! hash s)) as Hempty.
  { intros s [?|(y & Hy & _)]; [done | by apply elem_of_nil in Hy]. }
  assert (∀ s, rtc gen_step s0 s →
            is_goal s = Ret false ∧
            ∀ s', gen_step s s' → is_Some (explored m !! hash s')) as Hclosed.
  { apply (rtc_ind_r (λ s, is_goal s = Ret false ∧
            ∀ s', gen_step s s' → is_Some (explored m !! hash s'))).
    - destruct (Hempty _ Hinit) as [f Hk].
      destruct (Hex _ _ Hk) as (_ & s & Hs & Hh & Hg & Hsucc).
      assert (s = s0) as ->.
      { apply (hash_inj s0); [done|by apply same_shape_reach|apply same_shape_refl|done]. }
      split; [done|]. intros s' Hs'. apply Hempty. auto.
    - intros s1 s2 Hs1 Hstep12 [_ Hcov].
      destruct (Hcov _ Hstep12) as [f Hk].
      destruct (Hex _ _ Hk) as (_ & s & Hs & Hh & Hg & Hsucc).
      assert (s = s2) as ->.
      { apply (hash_inj s0); [done|by apply same_shape_reach| |done].
        apply same_shape_reach; [done|]. by apply (rtc_r _ s1). }
      split; [done|]. intros s' Hs'. apply Hempty. auto. }
  intros (s' & Hs' & Hgoal). destruct (Hclosed _ Hs') as [Hng _]. congruence.
Qed.

Lemma solve_loop_more fuel k m r :
  solve_loop fuel m = Ret r → solve_loop (fuel + k) m = Ret r.
Proof.
  revert m. induction fuel as [|fuel IH]; intros m; simpl; [done|].
  destruct (solve_step m) as [[r'|m']| |]; simpl; auto.
Qed.

(** The loop of [solve] ends, by the measure of [solve_step_decreases],
    and what it returns is as [solve_step_found] and
    [solve_step_not_found] say. *)
Lemma solve_loop_terminates (a b c : nat) m :
  search_inv s0 m →
  unexplored s0 m = a → slack s0 m = b → length (frontier m) = c →
  ∃ fuel r, solve_loop fuel m = Ret r ∧
    match r with
    | Some path =>
        ∃ s', apply_actions s0 path = Ret s' ∧ rtc gen_step s0 s' ∧
              is_goal s' = Ret true
    | None => ¬ gen_solvable s0
    end.
Proof.
  revert b c m.
  induction a as [a IHa] using lt_wf_ind. intros b.
  induction b as [b IHb] using lt_wf_ind. intros c.
  induction c as [c IHc] using lt_wf_ind. intros m Hinv Ha Hb Hc.
  destruct (solve_step_total m Hinv) as [[r|m'] Hstep].
  - exists 1%nat, r. simpl. rewrite Hstep. split; [done|].
    destruct r as [path|].
    + by apply (solve_step_found m).
    + by apply (solve_step_not_found m).
  - pose proof (solve_step_inv m m' Hinv Hstep) as Hinv'.
    assert (∃ fuel r, solve_loop fuel m' = Ret r ∧
      match r with
      | Some path =>
          ∃ s', apply_actions s0 path = Ret s' ∧ rtc gen_step s0 s' ∧
                is_goal s' = Ret true
      | None => ¬ gen_solvable s0
      end) as (fuel & r & Hloop & Hr).
    { destruct (solve_step_decreases m m' Hinv Hstep) as [Hlt|[[Heq Hlt]|(Heq1 & Heq2 & Hlt)]].
      - eapply (IHa (unexplored s0 m')); [lia|done..].
      - eapply (IHb (slack s0 m')); [lia|done|congruence|done..].
      - eapply (IHc (length (frontier m'))); [lia|done|congruence|congruence|done]. }
    exists (S fuel), r. simpl. rewrite Hstep. done.
Qed.

Lemma solve_terminates :
  ∃ fuel r, solve_loop fuel (solve_init s0) = Ret r ∧
    match r with
    | Some path =>
        ∃ s', apply_actions s0 path = Ret s' ∧ rtc gen_step s0 s' ∧
              is_goal s' = Ret true
    | None => ¬ gen_solvable s0
    end.
Proof. by eapply solve_loop_terminates; [apply solve_init_inv|..]. Qed.
End search.

(** ** Tile maps with the same connections *)

Lemma Forall2_dict_get {R : pos * Tile → pos * Tile → Prop} d1 d2 p :
  (∀ x y, R x y → y.1 = x.1) →
  Forall2 R d1 d2 →
  match dict_get d1 p, dict_get d2 p with
  | Some t1, Some t2 => R (p, t1) (p, t2)
  | None, None => True
  | _, _ => False
  end.
Proof.
  intros Hkey H. induction H as [|[p1 t1] [p2 t2] d1 d2 HR _ IH]; simpl; [done|].
  pose proof (Hkey _ _ HR) as Hp. simpl in Hp. subst p2.
  case_decide; [by subst|done].
Qed.

Lemma table_connections_same t1 t2 :
  type t2 = type t1 → get_connections t2 = get_connections t1 →
  table_connections t2 = table_connections t1.
Proof.
  intros Ht Hc. unfold table_connections, get_connections in *. rewrite Ht in *.
  destruct (PIPE_TYPES !! type t1); simpl in *; [by rewrite Hc | done].
Qed.

Lemma push_neighbors_same d1 d2 p conns F :
  Forall2 same_connections d1 d2 →
  push_neighbors d2 p conns F = push_neighbors d1 p conns F.
Proof.
  intros H. revert F. induction conns as [|[dr dc] conns IH]; intros F; simpl; [done|].
  pose proof (Forall2_dict_get d1 d2 (p.1 + dr, p.2 + dc) (λ x y Hxy, proj1 Hxy) H) as Hget.
  destruct (dict_get d1 (p.1 + dr, p.2 + dc)) as [t1|],
           (dict_get d2 (p.1 + dr, p.2 + dc)) as [t2|]; try done.
  destruct Hget as (_ & Ht & Hc); simpl in *.
  rewrite (table_connections_same t1 t2 Ht Hc).
  destruct (table_connections t1); simpl; [|done..]. by case_bool_decide.
Qed.

Lemma is_goal_loop_same fuel d1 d2 V F :
  Forall2 same_connections d1 d2 →
  is_goal_loop fuel d2 V F = is_goal_loop fuel d1 V F.
Proof.
  intros H. revert V F. induction fuel as [|fuel IH]; intros V F; simpl; [done|].
  destruct F as [|p F]; [done|]. case_bool_decide; [done|].
  pose proof (Forall2_dict_get d1 d2 p (λ x y Hxy, proj1 Hxy) H) as Hget.
  destruct (dict_get d1 p) as [t1|], (dict_get d2 p) as [t2|]; try done.
  destruct Hget as (_ & Ht & Hc); simpl in *.
  rewrite Hc, (push_neighbors_same d1 d2) by done.
  destruct (push_neighbors d1 p (get_connections t1) F); simpl; [|done..]. done.
Qed.

Lemma is_goal_same s1 s2 :
  source s2 = source s1 → Forall2 same_connections (tiles s1) (tiles s2) →
  is_goal s2 = is_goal s1.
Proof.
  intros Hsrc H. unfold is_goal, traversal_fuel, len.
  rewrite <- (Forall2_length _ _ _ H), Hsrc.
  by rewrite (is_goal_loop_same _ (tiles s1) (tiles s2)).
Qed.

(** ** Reaching a solution through the generator *)

Lemma same_kind_refl d : Forall2 same_kind d d.
Proof. apply Forall2_same_length_lookup_2; [done|]. intros i x y ? ?. by simplify_eq. Qed.

Lemma same_kind_keys d0 d : Forall2 same_kind d0 d → d.*1 = d0.*1.
Proof.
  induction 1 as [|x y d0 d [Hk _] _ IH]; simpl; [done|]. f_equal; [done | exact IH].
Qed.

Lemma same_kind_wf d0 d : dict_wf d0 → Forall2 same_kind d0 d → dict_wf d.
Proof. unfold dict_wf. intros Hwf H. by rewrite (same_kind_keys _ _ H). Qed.

Lemma same_kind_known d0 d : known_kinds d0 → Forall2 same_kind d0 d → known_kinds d.
Proof.
  unfold known_kinds. intros Hk H. induction H as [|x y d0 d [_ Ht] _ IH]; [done|].
  apply Forall_cons in Hk as [Hx Hk]. constructor; [by rewrite Ht | auto].
Qed.

Lemma same_kind_replace d0 pre x x' suf :
  Forall2 same_kind d0 (pre ++ x :: suf) → same_kind x x' →
  Forall2 same_kind d0 (pre ++ x' :: suf).
Proof.
  intros H [Hk Ht]. apply Forall2_app_inv_r in H as (d0a & d0b & Ha & Hb & ->).
  apply Forall2_cons_inv_r in Hb as (x0 & d0b' & [Hk0 Ht0] & Hb & ->).
  apply Forall2_app; [done|]. constructor; [|done].
  split; congruence.
Qed.

Lemma apply_action_same_kind s a s' :
  apply_action s a = Ret s' →
  grid_size s' = grid_size s ∧ source s' = source s ∧
  Forall2 same_kind (tiles s) (tiles s').
Proof.
  intros (t & Ht & ->)%apply_action_Ret_inv. simpl. split; [done|]. split; [done|].
  eapply Forall2_dict_set; [apply same_kind_refl|done|].
  intros x [Hk Hty]. split; [done|]. done.
Qed.

Lemma apply_actions_same_kind s path s' :
  apply_actions s path = Ret s' →
  grid_size s' = grid_size s ∧ source s' = source s ∧
  Forall2 same_kind (tiles s) (tiles s').
Proof.
  revert s. induction path as [|a path IH]; intros s; simpl.
  - intros [= <-]. split; [done|]. split; [done|]. apply same_kind_refl.
  - intros H. inv_bind H.
    apply apply_action_same_kind in Ha as (Hg1 & Hs1 & H1).
    apply IH in H as (Hg2 & Hs2 & H2).
    split; [congruence|]. split; [congruence|].
    eapply Forall2_trans; [|done..].
    intros x y z [? ?] [? ?]. split; congruence.
Qed.

Lemma dict_get_app_notin (pre suf : list (pos * Tile)) p :
  p ∉ pre.*1 → dict_get (pre ++ suf) p = dict_get suf p.
Proof.
  induction pre as [|[q t] pre IH]; simpl; [done|].
  rewrite not_elem_of_cons. intros [Hne Hp]. rewrite decide_False by done. auto.
Qed.

Lemma dict_set_app_notin (pre suf : list (pos * Tile)) p v :
  p ∉ pre.*1 → dict_set (pre ++ suf) p v = pre ++ dict_set suf p v.
Proof.
  induction pre as [|[q t] pre IH]; simpl; [done|].
  rewrite not_elem_of_cons. intros [Hne Hp]. rewrite decide_False by done.
  f_equal. auto.
Qed.

Lemma target_rotation_connections t0 tg vs :
  PIPE_TYPES !! type t0 = Some vs → type tg = type t0 →
  get_connections (mkTile (type t0) (target_rotation t0 tg)) = get_connections tg.
Proof.
  intros Hvs Ht. unfold target_rotation, get_connections; simpl.
  rewrite Ht, Hvs, (variant_count_lookup _ _ Hvs).
  case_decide as Hmod; [by rewrite Hmod|].
  by rewrite Z.mod_mod by (pose proof (PIPE_TYPES_nonempty _ _ Hvs); lia).
Qed.

Lemma target_rotation_cases t0 tg vs :
  PIPE_TYPES !! type t0 = Some vs →
  target_rotation t0 tg = rotation t0 ∨
  (0 <= target_rotation t0 tg < len vs ∧ target_rotation t0 tg ≠ rotation t0).
Proof.
  intros Hvs. unfold target_rotation. rewrite (variant_count_lookup _ _ Hvs).
  pose proof (PIPE_TYPES_nonempty _ _ Hvs) as Hpos.
  case_decide as Hmod; [by left|]. right.
  pose proof (Z.mod_pos_bound (rotation tg) (len vs) Hpos). split; [lia|].
  intros Heq. apply Hmod. rewrite <- Heq. by rewrite Z.mod_mod by lia.
Qed.

Lemma DIRS_at_elem k vs r d :
  PIPE_TYPES !! k = Some vs → d ∈ DIRS_at <$> variation vs r → d ∈ DIRS.
Proof.
  intros Hvs (i & -> & Hi)%list_elem_of_fmap. unfold variation in Hi.
  destruct (vs !! Z.to_nat r) as [v|] eqn:Hv; simpl in Hi; [|by apply elem_of_nil in Hi].
  apply list_elem_of_lookup_2 in Hv.
  destruct (PIPE_TYPES_dirs_in_range _ _ _ _ Hvs Hv Hi) as [x Hx].
  unfold DIRS_at. rewrite Hx. simpl. by eapply list_elem_of_lookup_2.
Qed.

(** The generator emits the action that gives one tile its target
    rotation, unless that turns an End tile towards an End tile. *)
Lemma retarget_step G src pre p t suf r vs :
  dict_wf (pre ++ (p, t) :: suf) → known_kinds (pre ++ (p, t) :: suf) →
  PIPE_TYPES !! type t = Some vs → 0 <= r < len vs → r ≠ rotation t →
  (type t = "e"%string → ∀ d n, d ∈ DIRS_at <$> variation vs r →
     dict_get (pre ++ (p, t) :: suf) (neighbor_pos p d) = Some n → type n ≠ "e"%string) →
  gen_step (mkGameState G (pre ++ (p, t) :: suf) src)
           (mkGameState G (pre ++ (p, mkTile (type t) r) :: suf) src).
Proof.
  intros Hwf Hkn Hvs Hr Hne Hfree.
  assert (p ∉ pre.*1) as Hp.
  { unfold dict_wf in Hwf. rewrite fmap_app, fmap_cons in Hwf.
    apply NoDup_app in Hwf as (_ & Hdisj & _). intros Hin.
    apply (Hdisj _ Hin). left. }
  assert (dict_get (pre ++ (p, t) :: suf) p = Some t) as Hget.
  { rewrite dict_get_app_notin by done. simpl. by rewrite decide_True. }
  destruct (get_possible_actions_known (mkGameState G (pre ++ (p, t) :: suf) src) Hkn)
    as [acts Hacts].
  exists acts, (mkAction p r). split; [done|]. split.
  - apply (get_possible_actions_elem _ _ _ Hacts). simpl.
    exists t, vs. split; [by apply dict_get_Some_elem|]. repeat split; try done; try lia.
    intros He. apply faces_end_false. by apply Hfree.
  - rewrite (apply_action_Ret _ _ t) by done. simpl. do 2 f_equal.
    rewrite dict_set_app_notin by done. simpl. by rewrite decide_True.
Qed.

Lemma retarget_reach G src d0 pre suf dg :
  dict_wf d0 → known_kinds d0 →
  (∀ p tg d n, (p, tg) ∈ dg → type tg = "e"%string → d ∈ get_connections tg →
     dict_get d0 (neighbor_pos p d) = Some n → type n ≠ "e"%string) →
  Forall2 same_kind d0 (pre ++ suf) → Forall2 same_kind suf dg →
  rtc gen_step (mkGameState G (pre ++ suf) src)
               (mkGameState G (pre ++ retarget suf dg) src).
Proof.
  intros Hwf Hkn. revert pre dg.
  induction suf as [|[p t] suf IH]; intros pre dg Hfaces H0 Hg.
  - apply Forall2_nil_inv_l in Hg as ->. done.
  - apply Forall2_cons_inv_l in Hg as ([pg tg] & dg' & [Hk Ht] & Hg & ->).
    simpl in Hk, Ht. subst pg.
    unfold retarget; simpl. fold (retarget suf dg').
    pose proof (same_kind_known _ _ Hkn H0) as Hkn'.
    assert (is_Some (PIPE_TYPES !! type t)) as [vs Hvs].
    { unfold known_kinds in Hkn'. rewrite Forall_app, Forall_cons in Hkn'.
      by destruct Hkn' as (_ & ? & _). }
    assert (∀ p' tg' d n, (p', tg') ∈ dg' → type tg' = "e"%string →
              d ∈ get_connections tg' → dict_get d0 (neighbor_pos p' d) = Some n →
              type n ≠ "e"%string) as Hfaces'.
    { intros p' tg' d n Hin. apply Hfaces. by right. }
    destruct (target_rotation_cases t tg vs Hvs) as [Heq|[Hr Hne]].
    + rewrite Heq.
      replace (p, {| type := type t; rotation := rotation t |}) with (p, t)
        by (by destruct t).
      rewrite !(cons_middle (p, t)), !app_assoc. apply IH; [done| |done].
      by rewrite <- app_assoc.
    + eapply rtc_l.
      * apply (retarget_step G src pre p t suf (target_rotation t tg) vs); try done.
        -- by eapply same_kind_wf.
        -- intros He d n Hd Hn.
           pose proof (Forall2_dict_get d0 (pre ++ (p, t) :: suf) (neighbor_pos p d)
                         (λ x y Hxy, proj1 Hxy) H0) as Hn0.
           rewrite Hn in Hn0.
           destruct (dict_get d0 (neighbor_pos p d)) as [n0|] eqn:Hn0'; [|done].
           destruct Hn0 as [_ Hnt]. simpl in Hnt. rewrite Hnt.
           apply (Hfaces p tg d n0); [by left | congruence | | done].
           rewrite <- (target_rotation_connections t tg vs Hvs Ht).
           by rewrite (get_connections_in_range _ vs).
      * rewrite !(cons_middle (p, _)), !app_assoc. apply IH; [done| |done].
        rewrite <- app_assoc. simpl.
        eapply same_kind_replace; [done|]. by split.
Qed.

Lemma retarget_same_connections d0 dg :
  known_kinds d0 → Forall2 same_kind d0 dg →
  Forall2 same_connections dg (retarget d0 dg).
Proof.
  intros Hkn H. induction H as [|[p0 t0] [pg tg] d0 dg [Hk Ht] _ IH]; simpl in *.
  - constructor.
  - apply Forall_cons in Hkn as [[vs Hvs] Hkn]. simpl in Hvs.
    constructor; [|by apply IH].
    split; [done|]. split; [done|]. simpl.
    by apply (target_rotation_connections _ _ vs).
Qed.

Lemma gen_solvable_solvable s : gen_solvable s → solvable s.
Proof.
  intros (s' & Hreach & Hgoal).
  assert (∃ path, apply_actions s path = Ret s') as [path Hpath].
  { clear Hgoal. revert s' Hreach. apply rtc_ind_r; [by exists []|].
    intros s1 s2 _ (acts & a & _ & _ & Happ) [path Hpath].
    exists (path ++ [a]). by eapply apply_actions_snoc. }
  by exists path, s'.
Qed.

(** * Further properties *)

(** ** What the traversals compute *)

Lemma table_connections_Ret t back :
  table_connections t = Ret back → back = get_connections t.
Proof.
  unfold table_connections, get_connections.
  destruct (PIPE_TYPES !! type t); simpl; [by intros [= <-] | done].
Qed.

(** The positions the inner loop pushes are the linked neighbours. *)
Lemma push_neighbors_elem tiles p conns F F' :
  push_neighbors tiles p conns F = Ret F' →
  ∃ new, F' = new ++ F ∧
    ∀ q, q ∈ new ↔
      ∃ d n, d ∈ conns ∧ q = neighbor_pos p d ∧ dict_get tiles q = Some n ∧
             opposite d ∈ get_connections n.
Proof.
  revert F. induction conns as [|[dr dc] conns IH]; intros F; simpl.
  - intros [= <-]. exists []. split; [done|]. intros q. split.
    + by intros ?%elem_of_nil.
    + by intros (d & _ & ?%elem_of_nil & _).
  - change (p.1 + dr, p.2 + dc) with (neighbor_pos p (dr, dc)).
    change (- dr, - dc) with (opposite (dr, dc)).
    destruct (dict_get tiles (neighbor_pos p (dr, dc))) as [n|] eqn:Hn.
    + intros H. inv_bind H. apply table_connections_Ret in Ha as ->.
      case_bool_decide as Hback.
      * apply IH in H as (new & -> & Hnew).
        exists (new ++ [neighbor_pos p (dr, dc)]). rewrite <- app_assoc. split; [done|].
        intros q. rewrite elem_of_app, list_elem_of_singleton, Hnew. split.
        -- intros [(d & n' & Hd & Hrest)| ->].
           ++ exists d, n'. split; [by right|done].
           ++ exists (dr, dc), n. split; [left|done].
        -- intros (d & n' & [-> |Hd]%elem_of_cons & Hq & Hrest); [by right|].
           left. by exists d, n'.
      * apply IH in H as (new & -> & Hnew). exists new. split; [done|].
        intros q. rewrite Hnew. split.
        -- intros (d & n' & Hd & Hrest). exists d, n'. split; [by right|done].
        -- intros (d & n' & [-> |Hd]%elem_of_cons & -> & Hn' & Hopp).
           ++ rewrite Hn in Hn'. by injection Hn' as <-.
           ++ by exists d, n'.
    + intros H. apply IH in H as (new & -> & Hnew). exists new. split; [done|].
      intros q. rewrite Hnew. split.
      * intros (d & n' & Hd & Hrest). exists d, n'. split; [by right|done].
      * intros (d & n' & [-> |Hd]%elem_of_cons & -> & Hn' & Hopp).
        -- by rewrite Hn in Hn'.
        -- by exists d, n'.
Qed.

(** The invariant of [get_connected_tiles]: what is visited or waiting
    can be reached from the source, and a linked neighbour of a visited
    position is visited or waiting. *)
Lemma connected_loop_reach fuel tiles src V F R :
  connected_loop fuel tiles V F = Ret R →
  (∀ q, q ∈ V ∨ q ∈ F → rtc (linked tiles) src q) →
  (∀ v w, v ∈ V → linked tiles v w → w ∈ V ∨ w ∈ F) →
  (∀ q, q ∈ R → rtc (linked tiles) src q) ∧
  (∀ v w, v ∈ R → linked tiles v w → w ∈ R) ∧
  (∀ q, q ∈ F → q ∈ tiles.*1 → q ∈ R).
Proof.
  revert V F. induction fuel as [|fuel IH]; intros V F; simpl; [done|].
  destruct F as [|p F].
  - intros [= <-] Hreach Hclosed. split; [auto|]. split.
    + intros v w Hv Hl. destruct (Hclosed v w Hv Hl) as [?|?%elem_of_nil]; done.
    + by intros q ?%elem_of_nil.
  - destruct (bool_decide (p ∈ V) || negb (dict_mem tiles p)) eqn:Hc.
    + intros H Hreach Hclosed.
      apply orb_true_iff in Hc.
      assert (p ∈ V ∨ p ∉ tiles.*1) as Hp.
      { destruct Hc as [Hc|Hc]; [left; by apply bool_decide_eq_true in Hc|].
        right. apply negb_true_iff in Hc. rewrite <- dict_mem_true. by rewrite Hc. }
      pose proof (connected_loop_bounds _ _ _ _ _ H) as [HVR _].
      apply IH in H as (H1 & H2 & H3).
      * split; [done|]. split; [done|].
        intros q [-> |Hq]%elem_of_cons Hkey; [|auto].
        destruct Hp as [Hp|Hp]; [by apply HVR | done].
      * intros q [?|?]; apply Hreach; [by left | right; by right].
      * intros v w Hv Hl. destruct (Hclosed v w Hv Hl) as [?|[-> |?]%elem_of_cons]; auto.
        destruct Hp as [?|Hp]; [by left|].
        destruct Hl as (_ & _ & n & _ & _ & _ & Hn & _).
        destruct Hp. apply dict_get_is_Some. by rewrite Hn.
    + apply orb_false_iff in Hc as [HV Hmem].
      apply bool_decide_eq_false in HV. apply negb_false_iff in Hmem.
      apply dict_mem_true, dict_get_is_Some in Hmem as [tile Htile]. rewrite Htile.
      intros H Hreach Hclosed. inv_bind H.
      apply push_neighbors_elem in Ha as (new & -> & Hnew).
      pose proof (connected_loop_bounds _ _ _ _ _ H) as [HVR _].
      apply IH in H as (H1 & H2 & H3).
      * split; [done|]. split; [done|].
        intros q [-> |Hq]%elem_of_cons Hkey.
        -- apply HVR. set_solver.
        -- apply H3; [|done]. apply elem_of_app. by right.
      * intros q [[->%elem_of_singleton|Hq]%elem_of_union|[Hq|Hq]%elem_of_app].
        -- apply Hreach. right. left.
        -- apply Hreach. by left.
        -- apply Hnew in Hq as (d & n & Hd & -> & Hn & Hopp).
           eapply rtc_r; [apply Hreach; right; left|].
           by exists tile, d, n.
        -- apply Hreach. right. by right.
      * intros v w [->%elem_of_singleton|Hv]%elem_of_union Hl.
        -- right. apply elem_of_app. left. apply Hnew.
           destruct Hl as (t & d & n & Ht & Hd & -> & Hn & Hopp).
           rewrite Htile in Ht. injection Ht as <-. by exists d, n.
        -- destruct (Hclosed v w Hv Hl) as [?|[-> |?]%elem_of_cons].
           ++ left. set_solver.
           ++ left. set_solver.
           ++ right. apply elem_of_app. by right.
Qed.

Lemma connected_set_spec s R :
  get_connected_tiles s = Ret R →
  ∀ p, p ∈ R ↔ connected_to_source s p.
Proof.
  intros HR p.
  pose proof (connected_loop_bounds _ _ _ _ _ HR) as [_ Hsub].
  destruct (connected_loop_reach _ _ (source s) _ _ _ HR) as (H1 & H2 & H3).
  { intros q [?| ->%list_elem_of_singleton]; [set_solver | done]. }
  { intros v w Hv. set_solver. }
  split.
  - intros Hp. split; [|by apply H1].
    destruct (decide (source s ∈ (tiles s).*1)) as [|Hoff]; [done|].
    destruct (is_goal_off_map s Hoff) as [_ Hempty].
    rewrite Hempty in HR. injection HR as <-. set_solver.
  - intros [Hsrc Hreach].
    assert (source s ∈ R) as Hin by (apply H3; [by left | done]).
    revert p Hreach. apply rtc_ind_r; [done|].
    intros v w _ Hl Hv. by eapply H2.
Qed.

(** X1. The connected set is the set of positions that can be reached
    from the source over linked tiles: positions of the tile map only,
    and none when the source is not on the tile map. *)
Theorem get_connected_tiles_reachable (s : GameState) (R : gset pos) :
  get_connected_tiles s = Ret R →
  (∀ p, p ∈ R ↔ connected_to_source s p) ∧
  (∀ p, p ∈ R → p ∈ (tiles s).*1) ∧
  (source s ∉ (tiles s).*1 → R = ∅).
Proof.
  intros HR. split; [by apply connected_set_spec|]. split.
  - intros p Hp. pose proof (connected_loop_bounds _ _ _ _ _ HR) as [_ Hsub].
    apply elem_of_positions. set_solver.
  - intros Hoff. destruct (is_goal_off_map s Hoff) as [_ Hempty]. congruence.
Qed.

Lemma get_connected_tiles_reachable_witness :
  (∀ p, p ∈ ({[(0, 0); (0, 1)]} : gset pos) ↔ connected_to_source (two_tile_row 3) p) ∧
  (∀ p, p ∈ ({[(0, 0); (0, 1)]} : gset pos) → p ∈ (tiles (two_tile_row 3)).*1) ∧
  (source (two_tile_row 3) ∉ (tiles (two_tile_row 3)).*1 →
   ({[(0, 0); (0, 1)]} : gset pos) = ∅).
Proof.
  apply (get_connected_tiles_reachable (two_tile_row 3)).
  vm_compute. reflexivity.
Defined.

Lemma size_positions_wf tiles :
  dict_wf tiles → size (positions tiles) = length tiles.
Proof.
  intros Hwf. unfold positions. rewrite size_list_to_set by done.
  by rewrite length_fmap.
Qed.

(** X2. With the source on the tile map, [is_goal] is true exactly when
    every tile position can be reached from the source over linked
    tiles. *)
Theorem is_goal_iff_all_connected (s : GameState) (b : bool) :
  dict_wf (tiles s) → source s ∈ (tiles s).*1 → is_goal s = Ret b →
  (b = true ↔ ∀ p, p ∈ (tiles s).*1 → connected_to_source s p).
Proof.
  intros Hwf Hsrc Hgoal. rewrite (is_goal_on_map s Hsrc) in Hgoal.
  inv_bind Hgoal. injection Hgoal as <-. rename a into R.
  pose proof (connected_loop_bounds _ _ _ _ _ Ha) as [_ Hsub].
  assert (R ⊆ positions (tiles s)) as Hsub' by set_solver.
  rewrite bool_decide_eq_true. unfold len. rewrite <- (size_positions_wf _ Hwf).
  split.
  - intros Hsize p Hp.
    apply (connected_set_spec s R Ha).
    assert (R = positions (tiles s)) as ->.
    { apply set_subseteq_size_eq; [done|lia]. }
    by apply elem_of_positions.
  - intros Hall. f_equal. apply Nat.le_antisymm; [by apply subseteq_size|].
    apply subseteq_size. intros p Hp%elem_of_positions.
    by apply (connected_set_spec s R Ha), Hall.
Qed.

Lemma is_goal_iff_all_connected_witness :
  true = true ↔
  ∀ p, p ∈ (tiles (two_tile_row 3)).*1 → connected_to_source (two_tile_row 3) p.
Proof.
  apply (is_goal_iff_all_connected (two_tile_row 3) true).
  - unfold dict_wf. compute_done.
  - compute_done.
  - vm_compute. reflexivity.
Defined.

Lemma opposite_involutive d : opposite (opposite d) = d.
Proof. destruct d as [dr dc]. unfold opposite; simpl. f_equal; lia. Qed.

Lemma neighbor_pos_opposite p d : neighbor_pos (neighbor_pos p d) (opposite d) = p.
Proof.
  destruct p as [r c], d as [dr dc]. unfold neighbor_pos, opposite; simpl.
  f_equal; lia.
Qed.

Lemma linked_sym tiles p q : linked tiles p q → linked tiles q p.
Proof.
  intros (t & d & n & Ht & Hd & -> & Hn & Hopp).
  exists n, (opposite d), t. rewrite neighbor_pos_opposite, opposite_involutive.
  done.
Qed.

(** X3. Symmetric connectivity: expanding the tile at [p] pushes [q]
    exactly when expanding the tile at [q] pushes [p]. *)
Theorem push_neighbors_symmetric (tiles : list (pos * Tile)) (p q : pos)
    (tp tq : Tile) (Fp Fq : list pos) :
  dict_get tiles p = Some tp → dict_get tiles q = Some tq →
  push_neighbors tiles p (get_connections tp) [] = Ret Fp →
  push_neighbors tiles q (get_connections tq) [] = Ret Fq →
  (q ∈ Fp ↔ p ∈ Fq).
Proof.
  intros Hp Hq HFp HFq.
  apply push_neighbors_elem in HFp as (newp & -> & Hnewp).
  apply push_neighbors_elem in HFq as (newq & -> & Hnewq).
  rewrite !app_nil_r, Hnewp, Hnewq.
  assert (∀ a b ta, dict_get tiles a = Some ta →
    (∃ d n, d ∈ get_connections ta ∧ b = neighbor_pos a d ∧
            dict_get tiles b = Some n ∧ opposite d ∈ get_connections n) ↔
    linked tiles a b) as Hlinked.
  { intros a b ta Ha. split.
    - intros (d & n & ?). by exists ta, d, n.
    - intros (t & d & n & Ht & ?). rewrite Ha in Ht. injection Ht as <-. by exists d, n. }
  rewrite (Hlinked p q tp Hp), (Hlinked q p tq Hq).
  split; apply linked_sym.
Qed.

Lemma push_neighbors_symmetric_witness :
  (0, 1) ∈ [(0, 1)] ↔ (0, 0) ∈ [(0, 0)].
Proof.
  apply (push_neighbors_symmetric (tiles (two_tile_row 3)) (0, 0) (0, 1)
           (mkTile "l" 0) (mkTile "e" 3)); reflexivity.
Defined.

(** X4. With the source on the tile map, [is_goal] is true exactly
    when [get_connected_tiles] returns a set with as many positions as
    there are tiles; the source is in that set. *)
Theorem is_goal_connected_size (s : GameState) :
  source s ∈ (tiles s).*1 →
  (is_goal s = Ret true ↔
   ∃ R, get_connected_tiles s = Ret R ∧ size R = length (tiles s)) ∧
  (∀ R, get_connected_tiles s = Ret R → source s ∈ R).
Proof.
  intros Hsrc. split; [|intros R; by apply source_connected].
  rewrite (is_goal_on_map s Hsrc). split.
  - intros H. inv_bind H. injection H as H. apply bool_decide_eq_true in H.
    exists a. split; [done|]. unfold len in H. lia.
  - intros (R & -> & Hsize). simpl. unfold mret, result_ret. f_equal.
    apply bool_decide_eq_true. unfold len. lia.
Qed.

Lemma is_goal_connected_size_witness :
  (is_goal (two_tile_row 3) = Ret true ↔
   ∃ R, get_connected_tiles (two_tile_row 3) = Ret R ∧
        size R = length (tiles (two_tile_row 3))) ∧
  (∀ R, get_connected_tiles (two_tile_row 3) = Ret R → source (two_tile_row 3) ∈ R).
Proof.
  apply (is_goal_connected_size (two_tile_row 3)). compute_done.
Defined.

(** ** Bounds of the heuristic *)

Lemma filter_length_le {A} (P : A → Prop) `{∀ x, Decision (P x)} (l : list A) :
  (length (filter P l) ≤ length l)%nat.
Proof.
  induction l as [|x l IH]; [done|]. rewrite filter_cons.
  destruct (decide (P x)); simpl; lia.
Qed.

Lemma dangling_loop_bounds tiles : 0 <= dangling_loop tiles <= 4 * len tiles.
Proof.
  unfold dangling_loop. rewrite dangling_outer. unfold len.
  assert (∀ items : list (pos * Tile),
    sum_list ((λ '(p, t), length (filter (is_dangling tiles p) (get_connections t)))
              <$> items) ≤ 4 * length items)%nat as Hsum.
  { induction items as [|[p t] items IH]; simpl; [lia|].
    pose proof (filter_length_le (is_dangling tiles p) (get_connections t)).
    pose proof (get_connections_length t). unfold fmap in *. lia. }
  specialize (Hsum tiles). lia.
Qed.

(** X5. The heuristic lies between [-10 * len(tiles)] and
    [4 * len(tiles)]. *)
Theorem heuristic_bounds (state : GameState) (h : Z) :
  heuristic state = Ret h →
  - (10 * len (tiles state)) <= h <= 4 * len (tiles state).
Proof.
  unfold heuristic. intros H. inv_bind H. injection H as <-.
  pose proof (get_connected_tiles_size _ _ Ha).
  pose proof (dangling_loop_bounds (tiles state)). unfold len in *. lia.
Qed.

Lemma heuristic_bounds_witness :
  - (10 * len (tiles (two_tile_row 1))) <= -7 <= 4 * len (tiles (two_tile_row 1)).
Proof. apply (heuristic_bounds (two_tile_row 1) (-7)). reflexivity. Defined.

(** X6. With the source on the tile map, the heuristic is at its lower
    bound [-10 * len(tiles)] exactly in the goal states in which no
    connection dangles. *)
Theorem heuristic_minimum (state : GameState) (h : Z) :
  source state ∈ (tiles state).*1 →
  heuristic state = Ret h →
  (h = - (10 * len (tiles state)) ↔
   is_goal state = Ret true ∧ dangling_loop (tiles state) = 0).
Proof.
  intros Hsrc. rewrite (is_goal_on_map state Hsrc). unfold heuristic.
  intros H. inv_bind H. injection H as <-. rewrite Ha. simpl.
  pose proof (get_connected_tiles_size _ _ Ha).
  pose proof (dangling_loop_bounds (tiles state)).
  unfold mret, result_ret, len in *. split.
  - intros Hh. split; [|lia]. f_equal. apply bool_decide_eq_true. lia.
  - intros [Hg Hd]. injection Hg as Hg. apply bool_decide_eq_true in Hg. lia.
Qed.

Lemma heuristic_minimum_witness :
  -20 = - (10 * len [((0, 0), mkTile "e" 1); ((0, 1), mkTile "e" 3)]) ↔
  is_goal (mkGameState 2 [((0, 0), mkTile "e" 1); ((0, 1), mkTile "e" 3)] (0, 0))
    = Ret true ∧
  dangling_loop [((0, 0), mkTile "e" 1); ((0, 1), mkTile "e" 3)] = 0.
Proof.
  apply (heuristic_minimum
           (mkGameState 2 [((0, 0), mkTile "e" 1); ((0, 1), mkTile "e" 3)] (0, 0)) (-20)).
  - compute_done.
  - reflexivity.
Defined.

(** ** More on the action generator *)

Lemma actions_loop_not_OutOfFuel tiles items acc :
  actions_loop tiles items acc ≠ OutOfFuel.
Proof.
  revert acc. induction items as [|[p t] items IH]; intros acc; simpl; [done|].
  destruct (PIPE_TYPES !! type t); simpl; [apply IH | done].
Qed.

Lemma actions_loop_Ret_known tiles items acc acts :
  actions_loop tiles items acc = Ret acts → known_kinds items.
Proof.
  revert acc. induction items as [|[p t] items IH]; intros acc; simpl.
  - intros _. constructor.
  - intros H. inv_bind H. apply subscript_Ret in Ha.
    constructor; [simpl; by rewrite Ha | by eapply IH].
Qed.

(** X7. [get_possible_actions] returns a list exactly when every tile
    has a kind of [PIPE_TYPES], and raises [KeyError] otherwise. *)
Theorem get_possible_actions_raises (s : GameState) :
  (known_kinds (tiles s) ↔ ∃ acts, get_possible_actions s = Ret acts) ∧
  (¬ known_kinds (tiles s) ↔ get_possible_actions s = Raise KeyError).
Proof.
  assert (known_kinds (tiles s) ↔ ∃ acts, get_possible_actions s = Ret acts) as Hk.
  { split; [apply get_possible_actions_known|].
    intros [acts H]. by eapply actions_loop_Ret_known. }
  split; [done|]. rewrite Hk.
  pose proof (actions_loop_not_OutOfFuel (tiles s) (tiles s) []) as Hno.
  unfold get_possible_actions in *.
  destruct (actions_loop (tiles s) (tiles s) []) as [acts|[]|]; split; try done.
  - intros Hnot. destruct Hnot. by exists acts.
  - intros _ [acts ?]. done.
Qed.

(** X8. Completeness of the generator: an action is emitted exactly when
    it targets a tile of the map with a rotation index of the tile's
    kind other than the tile's current rotation and, for an End tile,
    no direction of the new orientation leads to an End tile. *)
Theorem get_possible_actions_exact (s : GameState) (acts : list Action) (a : Action) :
  dict_wf (tiles s) →
  get_possible_actions s = Ret acts →
  (a ∈ acts ↔
   ∃ t, dict_get (tiles s) (a_pos a) = Some t ∧
        0 <= a_rotation a < variant_count (type t) ∧
        a_rotation a ≠ rotation t ∧
        (type t = "e"%string →
         ∀ d n, d ∈ get_connections (mkTile (type t) (a_rotation a)) →
           dict_get (tiles s) (neighbor_pos (a_pos a) d) = Some n →
           type n ≠ "e"%string)).
Proof.
  intros Hwf Hacts. rewrite (get_possible_actions_elem _ _ _ Hacts). split.
  - intros (t & vs & Hin & Hvs & Hr & Hne & Hend).
    exists t. split; [by apply dict_get_elem_wf|].
    rewrite (variant_count_lookup _ _ Hvs). split; [done|]. split; [done|].
    intros He d n Hd. rewrite (get_connections_in_range _ vs) in Hd by done.
    specialize (Hend He). rewrite faces_end_false in Hend. eauto.
  - intros (t & Ht & Hr & Hne & Hend).
    pose proof (actions_loop_Ret_known _ _ _ _ Hacts) as Hkn.
    pose proof (dict_get_Some_elem _ _ _ Ht) as Hin.
    unfold known_kinds in Hkn. rewrite Forall_forall in Hkn.
    destruct (Hkn _ Hin) as [vs Hvs]. simpl in Hvs.
    rewrite (variant_count_lookup _ _ Hvs) in Hr.
    exists t, vs. repeat split; try done; try lia.
    intros He. apply faces_end_false. intros d n Hd.
    apply (Hend He). by rewrite (get_connections_in_range _ vs).
Qed.

Lemma get_possible_actions_exact_witness :
  mkAction (0, 1) 3 ∈
    [mkAction (0, 0) 1; mkAction (0, 1) 0; mkAction (0, 1) 2; mkAction (0, 1) 3] ↔
  ∃ t, dict_get (tiles (two_tile_row 1)) (0, 1) = Some t ∧
       0 <= 3 < variant_count (type t) ∧
       3 ≠ rotation t ∧
       (type t = "e"%string →
        ∀ d n, d ∈ get_connections (mkTile (type t) 3) →
          dict_get (tiles (two_tile_row 1)) (neighbor_pos (0, 1) d) = Some n →
          type n ≠ "e"%string).
Proof.
  apply (get_possible_actions_exact (two_tile_row 1)
           [mkAction (0, 0) 1; mkAction (0, 1) 0; mkAction (0, 1) 2; mkAction (0, 1) 3]
           (mkAction (0, 1) 3)).
  - unfold dict_wf. compute_done.
  - reflexivity.
Defined.

Lemma PIPE_TYPES_count k vs : PIPE_TYPES !! k = Some vs → (length vs ≤ 4)%nat.
Proof.
  intros Hk%PIPE_TYPES_lookup.
  assert (Forall (λ kv : string * list (list nat), (length kv.2 ≤ 4)%nat) PIPE_TYPES_items)
    as Hall by (repeat constructor; simpl; lia).
  rewrite Forall_forall in Hall. apply (Hall _ Hk).
Qed.

Lemma rotations_loop_length tiles p tile vs rots acc :
  (length (rotations_loop tiles p tile vs rots acc) ≤ length acc + length rots)%nat.
Proof.
  revert acc. induction rots as [|rot rots IH]; intros acc; simpl; [lia|].
  etrans; [apply IH|].
  repeat case_bool_decide; try destruct (faces_end _ _ _);
    rewrite ?length_app; simpl; lia.
Qed.

Lemma rotations_loop_NoDup tiles p tile vs rots acc :
  NoDup acc → NoDup rots →
  (∀ a, a ∈ acc → a_pos a = p → a_rotation a ∉ rots) →
  NoDup (rotations_loop tiles p tile vs rots acc).
Proof.
  revert acc. induction rots as [|rot rots IH]; intros acc Hacc Hrots Hfresh; simpl; [done|].
  apply NoDup_cons in Hrots as [Hrot Hrots].
  assert (NoDup (acc ++ [mkAction p rot])) as Hsnoc.
  { apply NoDup_app. split; [done|]. split; [|apply NoDup_singleton].
    intros a Ha ->%list_elem_of_singleton.
    apply (Hfresh _ Ha); [done|]. left. }
  assert (∀ a, a ∈ acc ++ [mkAction p rot] → a_pos a = p → a_rotation a ∉ rots) as Hfresh'.
  { intros a [Ha| ->%list_elem_of_singleton]%elem_of_app Hp; [|done].
    intros Hin. apply (Hfresh _ Ha Hp). by right. }
  assert (∀ a, a ∈ acc → a_pos a = p → a_rotation a ∉ rots) as Hfresh''.
  { intros a Ha Hp Hin. apply (Hfresh _ Ha Hp). by right. }
  repeat case_bool_decide; try destruct (faces_end _ _ _); by apply IH.
Qed.

Lemma actions_loop_NoDup tiles items acc acts :
  NoDup acc → NoDup items.*1 →
  (∀ a, a ∈ acc → a_pos a ∉ items.*1) →
  actions_loop tiles items acc = Ret acts →
  NoDup acts ∧ (length acts ≤ length acc + 4 * length items)%nat.
Proof.
  revert acc. induction items as [|[p t] items IH]; intros acc Hacc Hkeys Hfresh; simpl.
  - intros [= <-]. split; [done | lia].
  - rewrite fmap_cons in Hkeys. apply NoDup_cons in Hkeys as [Hp Hkeys]. simpl in Hp.
    intros H. inv_bind H. apply subscript_Ret in Ha. rename a into vs.
    pose proof (rotations_loop_length tiles p t vs (seqZ 0 (len vs)) acc) as Hlen.
    rewrite length_seqZ in Hlen.
    pose proof (PIPE_TYPES_count _ _ Ha) as Hcount.
    apply IH in H as [Hnd Hle]; [split; [done|]; unfold len in *; lia| |done|].
    + apply rotations_loop_NoDup; [done|apply NoDup_seqZ|].
      intros a Hin Hpos. destruct (Hfresh _ Hin). rewrite Hpos. left.
    + intros a [Hin|(Hpos & _)]%rotations_loop_elem.
      * intros Hk. apply (Hfresh _ Hin). by right.
      * by rewrite Hpos.
Qed.

(** The actions of a list on one position are as many as their
    rotations, which are indices of the variations of the tile. *)
Lemma actions_at_length s acts p :
  get_possible_actions s = Ret acts → NoDup acts →
  (length (filter (λ a, a_pos a = p) acts) ≤ 4)%nat.
Proof.
  intros Hacts Hnd.
  assert (NoDup (a_rotation <$> filter (λ a, a_pos a = p) acts)) as Hrots.
  { apply NoDup_fmap_2_strong; [|by apply NoDup_filter].
    intros [p1 r1] [p2 r2] [Hp1 _]%list_elem_of_filter [Hp2 _]%list_elem_of_filter Hr.
    simpl in *. congruence. }
  rewrite <- (length_fmap a_rotation).
  change 4%nat with (length (seqZ 0 4)).
  apply submseteq_length, NoDup_submseteq; [done|].
  intros r (a & -> & [_ Ha]%list_elem_of_filter)%list_elem_of_fmap.
  apply (get_possible_actions_elem _ _ _ Hacts) in Ha as (t & vs & _ & Hvs & Hr & _).
  pose proof (PIPE_TYPES_count _ _ Hvs). apply elem_of_seqZ. unfold len in Hr. lia.
Qed.

(** X9. The generator emits no action twice, and at most four actions
    per tile: at most four of the actions have the same position, and
    every action has the position of a tile. *)
Theorem get_possible_actions_NoDup (s : GameState) (acts : list Action) :
  dict_wf (tiles s) →
  get_possible_actions s = Ret acts →
  NoDup acts ∧
  (∀ p, (length (filter (λ a, a_pos a = p) acts) ≤ 4)%nat) ∧
  (∀ a, a ∈ acts → a_pos a ∈ (tiles s).*1) ∧
  (length acts ≤ 4 * length (tiles s))%nat.
Proof.
  intros Hwf Hacts. pose proof Hacts as Hloop.
  apply actions_loop_NoDup in Hloop as [Hnd Hle]; [|constructor|done|].
  - split; [done|]. split; [|split; [|simpl in Hle; lia]].
    + intros p. by apply (actions_at_length s).
    + intros a Ha.
      apply (get_possible_actions_elem _ _ _ Hacts) in Ha as (t & vs & Hin & _).
      by apply (list_elem_of_fmap_2 fst) in Hin.
  - by intros a ?%elem_of_nil.
Qed.

Lemma get_possible_actions_NoDup_witness :
  NoDup [mkAction (0, 0) 1; mkAction (0, 1) 0; mkAction (0, 1) 2; mkAction (0, 1) 3] ∧
  (∀ p, (length (filter (λ a, a_pos a = p)
           [mkAction (0, 0) 1; mkAction (0, 1) 0; mkAction (0, 1) 2; mkAction (0, 1) 3]%Z)
         ≤ 4)%nat) ∧
  (∀ a, a ∈ [mkAction (0, 0) 1; mkAction (0, 1) 0; mkAction (0, 1) 2; mkAction (0, 1) 3] →
        a_pos a ∈ (tiles (two_tile_row 1)).*1) ∧
  (length [mkAction (0, 0) 1; mkAction (0, 1) 0; mkAction (0, 1) 2; mkAction (0, 1) 3]%Z
   ≤ 4 * length (tiles (two_tile_row 1)))%nat.
Proof.
  apply (get_possible_actions_NoDup (two_tile_row 1)).
  - unfold dict_wf. compute_done.
  - reflexivity.
Defined.

(** ** How actions compose *)

Section dict_compose.
Context {K V : Type} `{EqDecision K}.
Implicit Types (d : list (K * V)) (k : K) (v : V).

Lemma dict_set_comm d k1 k2 v1 v2 :
  k1 ≠ k2 → is_Some (dict_get d k1) → is_Some (dict_get d k2) →
  dict_set (dict_set d k1 v1) k2 v2 = dict_set (dict_set d k2 v2) k1 v1.
Proof.
  intros Hne. induction d as [|[k v] d IH]; simpl; [by intros [? ?]|].
  intros H1 H2.
  destruct (decide (k = k1)) as [Hk1|Hk1]; [subst k|].
  - rewrite !(decide_False (P := k1 = k2)) by done. simpl.
    by rewrite decide_False, decide_True.
  - destruct (decide (k = k2)) as [Hk2|Hk2]; [subst k|]; simpl.
    + by rewrite decide_True, decide_False.
    + rewrite !decide_False by done. f_equal. by apply IH.
Qed.

Lemma dict_set_set d k v1 v2 : dict_set (dict_set d k v1) k v2 = dict_set d k v2.
Proof.
  induction d as [|[k' v'] d IH]; simpl.
  - by rewrite decide_True.
  - case_decide; simpl; [by rewrite decide_True|]. rewrite decide_False by done.
    by f_equal.
Qed.

Lemma dict_set_get_id d k v : dict_get d k = Some v → dict_set d k v = d.
Proof.
  induction d as [|[k' v'] d IH]; simpl; [done|].
  case_decide; subst; [by intros [= ->]|]. intros. f_equal. auto.
Qed.
End dict_compose.

(** X10. Actions on different positions commute: applied in either
    order they give the same state, or raise in both orders. *)
Theorem apply_action_commute (s : GameState) (a1 a2 : Action) :
  a_pos a1 ≠ a_pos a2 →
  (s1 ← apply_action s a1; apply_action s1 a2) =
  (s2 ← apply_action s a2; apply_action s2 a1).
Proof.
  intros Hne. unfold apply_action.
  destruct (dict_get (tiles s) (a_pos a1)) as [t1|] eqn:H1,
           (dict_get (tiles s) (a_pos a2)) as [t2|] eqn:H2; simpl;
    rewrite ?dict_get_set_ne by done; rewrite ?H1, ?H2; simpl; try done.
  unfold mret, result_ret. do 2 f_equal.
  apply dict_set_comm; [done|by rewrite H1|by rewrite H2].
Qed.

Lemma apply_action_commute_witness :
  (s1 ← apply_action (two_tile_row 1) (mkAction (0, 0) 1);
   apply_action s1 (mkAction (0, 1) 3)) =
  (s2 ← apply_action (two_tile_row 1) (mkAction (0, 1) 3);
   apply_action s2 (mkAction (0, 0) 1)).
Proof.
  apply (apply_action_commute (two_tile_row 1) (mkAction (0, 0) 1) (mkAction (0, 1) 3)).
  compute_done.
Defined.

(** X11. A second action on the same position overwrites the first, and
    the action back to the old rotation gives back the state. *)
Theorem apply_action_overwrite (s s1 : GameState) (a : Action) :
  apply_action s a = Ret s1 →
  (∀ a2, a_pos a2 = a_pos a → apply_action s1 a2 = apply_action s a2) ∧
  (∀ t, dict_get (tiles s) (a_pos a) = Some t →
        apply_action s1 (mkAction (a_pos a) (rotation t)) = Ret s).
Proof.
  intros (t & Ht & ->)%apply_action_Ret_inv. split.
  - intros a2 Hpos. unfold apply_action; simpl. rewrite Hpos, dict_get_set_eq, Ht; simpl.
    by rewrite dict_set_set.
  - intros t' Ht'. rewrite Ht in Ht'. injection Ht' as <-.
    unfold apply_action; simpl. rewrite dict_get_set_eq; simpl.
    rewrite dict_set_set. unfold rotate; simpl.
    replace {| type := type t; rotation := rotation t |} with t by (by destruct t).
    rewrite dict_set_get_id by done. by destruct s.
Qed.

Lemma apply_action_overwrite_witness :
  (∀ a2, a_pos a2 = (0, 1) →
     apply_action (two_tile_row 3) a2 = apply_action (two_tile_row 1) a2) ∧
  (∀ t, dict_get (tiles (two_tile_row 1)) (0, 1) = Some t →
        apply_action (two_tile_row 3) (mkAction (0, 1) (rotation t))
          = Ret (two_tile_row 1)).
Proof.
  apply (apply_action_overwrite (two_tile_row 1) (two_tile_row 3) (mkAction (0, 1) 3)).
  reflexivity.
Defined.

(** ** More on the canonical key *)

Lemma hash_sorted_items s1 s2 :
  hash s1 = hash s2 → sorted_items (tiles s1) = sorted_items (tiles s2).
Proof.
  unfold hash. generalize (sorted_items (tiles s1)) (sorted_items (tiles s2)).
  induction l as [|[p t] l IH]; intros [|[p' t'] l']; simpl; try done.
  intros [= -> Ht Hr Hl]. f_equal; [|auto].
  destruct t, t'; simpl in *. by subst.
Qed.

Lemma hash_dict_get s1 s2 p :
  dict_wf (tiles s1) → dict_wf (tiles s2) → hash s1 = hash s2 →
  dict_get (tiles s1) p = dict_get (tiles s2) p.
Proof.
  intros Hwf1 Hwf2 Hh%hash_sorted_items.
  assert (∀ d1 d2 : list (pos * Tile), dict_wf d2 →
            sorted_items d1 = sorted_items d2 →
            ∀ t, dict_get d1 p = Some t → dict_get d2 p = Some t) as Hsub.
  { intros d1 d2 Hwf Hs t Ht. apply dict_get_elem_wf; [done|].
    rewrite <- sorted_items_perm, <- Hs, sorted_items_perm.
    by apply dict_get_Some_elem. }
  destruct (dict_get (tiles s1) p) as [t|] eqn:H1.
  - symmetry. by apply (Hsub (tiles s1) (tiles s2)).
  - destruct (dict_get (tiles s2) p) as [t|] eqn:H2; [|done].
    apply (Hsub (tiles s2) (tiles s1)) in H2; [congruence|done..].
Qed.

(** X12. Two states compare equal exactly when their tile maps are equal
    as maps. *)
Theorem GameState_eq_iff (s1 s2 : GameState) :
  dict_wf (tiles s1) → dict_wf (tiles s2) →
  (GameState_eq s1 s2 = true ↔
   ∀ p, dict_get (tiles s1) p = dict_get (tiles s2) p).
Proof.
  intros Hwf1 Hwf2. unfold GameState_eq. rewrite bool_decide_eq_true. split.
  - intros Hh p. by apply hash_dict_get.
  - intros Hget. unfold hash. by rewrite (sorted_items_ext _ _ Hwf1 Hwf2 Hget).
Qed.

Lemma GameState_eq_iff_witness :
  GameState_eq (two_tile_row 1) (two_tile_row 3) = true ↔
  ∀ p, dict_get (tiles (two_tile_row 1)) p = dict_get (tiles (two_tile_row 3)) p.
Proof.
  apply (GameState_eq_iff (two_tile_row 1) (two_tile_row 3));
    unfold dict_wf; compute_done.
Defined.

Lemma pos_le_lt p q : pos_le p q → p ≠ q → pos_lt p q.
Proof.
  destruct p as [r c], q as [r' c']. unfold pos_le, pos_lt; simpl.
  intros [?|[-> ?]] Hne; [by left|]. right. split; [done|].
  destruct (decide (c = c')) as [->|]; [done | lia].
Qed.

Lemma sorted_items_keys_sorted (d : list (pos * Tile)) :
  dict_wf d → StronglySorted pos_lt (sorted_items d).*1.
Proof.
  intros Hwf.
  assert (NoDup (sorted_items d).*1) as Hnd.
  { unfold dict_wf in Hwf. by rewrite sorted_items_perm. }
  pose proof (StronglySorted_merge_sort item_le d) as Hs.
  fold (sorted_items d) in Hs. revert Hnd Hs.
  generalize (sorted_items d). clear.
  induction l as [|x l IH]; [constructor|].
  rewrite fmap_cons, NoDup_cons, StronglySorted_cons. intros [Hx Hnd] [Hall Hs].
  constructor; [auto|].
  apply Forall_fmap, Forall_forall. intros y Hy.
  rewrite Forall_forall in Hall. apply pos_le_lt; [by apply Hall|].
  intros Heq. apply Hx. rewrite Heq. by apply list_elem_of_fmap_2.
Qed.

(** X13. The canonical key lists every tile of the map once, with its
    position, kind and rotation, in strictly ascending order of
    positions. *)
Theorem hash_content (s : GameState) :
  dict_wf (tiles s) →
  (∀ p k r, (p, k, r) ∈ hash s ↔ dict_get (tiles s) p = Some (mkTile k r)) ∧
  length (hash s) = length (tiles s) ∧
  StronglySorted pos_lt ((λ x, x.1.1) <$> hash s).
Proof.
  intros Hwf. split; [|split].
  - intros p k r. unfold hash. rewrite list_elem_of_fmap. split.
    + intros ([p' t] & [= -> -> ->] & Hin). rewrite sorted_items_perm in Hin.
      replace {| type := type t; rotation := rotation t |} with t by (by destruct t).
      by apply dict_get_elem_wf.
    + intros Hget%dict_get_Some_elem. exists (p, mkTile k r). split; [done|].
      by rewrite sorted_items_perm.
  - unfold hash. by rewrite length_fmap, sorted_items_perm.
  - unfold hash. rewrite <- list_fmap_compose.
    pose proof (sorted_items_keys_sorted _ Hwf) as Hs.
    erewrite list_fmap_ext; [exact Hs|]. by intros _ [p t] _.
Qed.

Lemma hash_content_witness :
  (∀ p k r, (p, k, r) ∈ hash (two_tile_row 1) ↔
            dict_get (tiles (two_tile_row 1)) p = Some (mkTile k r)) ∧
  length (hash (two_tile_row 1)) = length (tiles (two_tile_row 1)) ∧
  StronglySorted pos_lt ((λ x, x.1.1) <$> hash (two_tile_row 1)).
Proof.
  apply (hash_content (two_tile_row 1)). unfold dict_wf. compute_done.
Defined.

(** X14. An emitted action leads to a state with another canonical key:
    no successor is taken for its own predecessor. *)
Theorem emitted_action_changes_hash (s s' : GameState) (acts : list Action) (a : Action) :
  dict_wf (tiles s) →
  get_possible_actions s = Ret acts → a ∈ acts →
  apply_action s a = Ret s' →
  hash s' ≠ hash s ∧ GameState_eq s' s = false.
Proof.
  intros Hwf Hacts Ha Happ.
  apply (get_possible_actions_elem _ _ _ Hacts) in Ha
    as (t & vs & Hin & _ & _ & Hrot & _).
  apply (dict_get_elem_wf _ _ _ Hwf) in Hin.
  destruct (apply_action_tiles s a t Hin) as (s'' & Hs'' & _ & _ & Hat & _ & Hkeys).
  rewrite Happ in Hs''. injection Hs'' as <-.
  assert (hash s' ≠ hash s) as Hne.
  { intros Hh. apply (hash_dict_get s' s (a_pos a)) in Hh; [|by unfold dict_wf; rewrite Hkeys|done].
    rewrite Hat, Hin in Hh. injection Hh as Hh. apply Hrot. by rewrite <- Hh. }
  split; [done|]. unfold GameState_eq. by apply bool_decide_eq_false.
Qed.

Lemma emitted_action_changes_hash_witness :
  hash (two_tile_row 3) ≠ hash (two_tile_row 1) ∧
  GameState_eq (two_tile_row 3) (two_tile_row 1) = false.
Proof.
  apply (emitted_action_changes_hash (two_tile_row 1) (two_tile_row 3)
           [mkAction (0, 0) 1; mkAction (0, 1) 0; mkAction (0, 1) 2; mkAction (0, 1) 3]
           (mkAction (0, 1) 3)).
  - unfold dict_wf. compute_done.
  - reflexivity.
  - compute_done.
  - reflexivity.
Defined.

(** ** Runs of the loop of [solve] *)

Lemma solve_loop_run fuel m r :
  solve_loop fuel m = Ret r →
  ∃ m', rtc search_next m m' ∧ solve_step m' = Ret (Return r).
Proof.
  revert m. induction fuel as [|fuel IH]; intros m; simpl; [done|].
  intros H. inv_bind H. destruct a as [r'|m1].
  - injection H as <-. by exists m.
  - apply IH in H as (m' & Hrun & Hret). exists m'. split; [|done].
    by eapply rtc_l.
Qed.

Lemma gen_walk_snoc s path s' a acts s'' :
  gen_walk s path → apply_actions s path = Ret s' →
  get_possible_actions s' = Ret acts → a ∈ acts → apply_action s' a = Ret s'' →
  gen_walk s (path ++ [a]).
Proof.
  revert s. induction path as [|b path IH]; intros s; simpl.
  - intros _ [= ->] Hacts Ha Happ. by exists acts, s''.
  - intros (acts' & s1 & Hacts' & Hb & Happ' & Hwalk) Hpath Hacts Ha Happ.
    rewrite Happ' in Hpath. simpl in Hpath.
    exists acts', s1. repeat split; try done. by eapply IH.
Qed.

(** The paths on the frontier lead from the initial state to the state
    they are stored with, by actions the generator emits. *)
Lemma frontier_paths s0 m :
  search_reachable s0 m →
  ∀ x, x ∈ frontier m →
    apply_actions s0 (node_path x) = Ret (node_state x) ∧ gen_walk s0 (node_path x).
Proof.
  unfold search_reachable. revert m.
  apply (rtc_ind_r (λ m, ∀ x, x ∈ frontier m →
    apply_actions s0 (node_path x) = Ret (node_state x) ∧ gen_walk s0 (node_path x))).
  - intros x ->%list_elem_of_singleton. done.
  - intros m m' _ Hstep IH x Hx.
    apply solve_step_Ret in Hstep as [[_ [=]]|(y & F & HF & Hcases)].
    rewrite HF in IH.
    destruct Hcases as [[_ [=]]|[(_ & f' & _ & _ & [= ->])|
      (_ & _ & acts & F' & c' & Hacts & Hexp & [= ->])]]; simpl in Hx.
    + apply IH. by right.
    + apply expand_Ret in Hexp as (_ & _ & Hnew & _).
      apply Hnew in Hx as [Hx|(a & s' & h & Ha & Happ & _ & _ & Hs & Hp)].
      * apply IH. by right.
      * destruct (IH y) as [Hpath Hwalk]; [left|].
        rewrite Hs, Hp. split; [by eapply apply_actions_snoc|].
        by eapply gen_walk_snoc.
Qed.

(** X15. Whenever [solve] returns a path, on any state, folding
    [apply_action] over the path from the initial state gives a state
    for which [is_goal] is true, and every action of the path was
    emitted by the generator in the state in which it is applied. *)
Theorem solve_sound (fuel : nat) (s0 : GameState) (path : list Action) :
  solve fuel s0 = Ret (Some path) →
  (∃ s', apply_actions s0 path = Ret s' ∧ is_goal s' = Ret true) ∧
  gen_walk s0 path.
Proof.
  intros (m & Hrun & Hret)%solve_loop_run.
  apply solve_step_Ret in Hret as [[_ [=]]|(x & F & HF & Hcases)].
  destruct Hcases as [[Hgoal [= ->]]|[(_ & ? & _ & _ & [=])|(_ & _ & ? & ? & ? & _ & _ & [=])]].
  destruct (frontier_paths s0 m Hrun x) as [Hpath Hwalk]; [rewrite HF; left|].
  split; [by exists (node_state x) | done].
Qed.

Lemma solve_sound_witness :
  (∃ s', apply_actions (two_tile_row 1) [mkAction (0, 1) 3] = Ret s' ∧
         is_goal s' = Ret true) ∧
  gen_walk (two_tile_row 1) [mkAction (0, 1) 3].
Proof.
  apply (solve_sound 2 (two_tile_row 1)). vm_compute. reflexivity.
Defined.

(** X16. [solve] returns the empty path exactly on goal states: one
    iteration is enough on a goal state, and an empty path is returned
    for no other state. *)
Theorem solve_empty_path (s : GameState) :
  (is_goal s = Ret true → ∀ n, solve (S n) s = Ret (Some [])) ∧
  (∀ n, solve n s = Ret (Some []) → is_goal s = Ret true).
Proof.
  split.
  - intros Hgoal n. unfold solve. simpl. unfold solve_step. simpl.
    by rewrite Hgoal.
  - intros n (m & Hrun & Hret)%solve_loop_run.
    apply solve_step_Ret in Hret as [[_ [=]]|(x & F & HF & Hcases)].
    destruct Hcases as [[Hgoal [= Hp]]|[(_ & ? & _ & _ & [=])|(_ & _ & ? & ? & ? & _ & _ & [=])]].
    destruct (frontier_paths s m Hrun x) as [Hpath _]; [rewrite HF; left|].
    rewrite <- Hp in Hpath. simpl in Hpath. injection Hpath as ->. done.
Qed.

Lemma solve_empty_path_witness :
  (is_goal (two_tile_row 3) = Ret true →
   ∀ n, solve (S n) (two_tile_row 3) = Ret (Some [])) ∧
  (∀ n, solve n (two_tile_row 3) = Ret (Some []) → is_goal (two_tile_row 3) = Ret true).
Proof. apply (solve_empty_path (two_tile_row 3)). Defined.

(** X17. [solve] raises [KeyError] in its first iteration when the
    initial state is not a goal and has a tile of a kind that is not in
    [PIPE_TYPES], and when [is_goal] raises on the initial state. *)
Theorem solve_raises (s : GameState) (n : nat) :
  (is_goal s = Ret false → ¬ known_kinds (tiles s) →
   solve (S n) s = Raise KeyError) ∧
  (is_goal s = Raise KeyError → solve (S n) s = Raise KeyError).
Proof.
  split.
  - intros Hgoal Hnot. unfold solve. simpl. unfold solve_step. simpl.
    rewrite Hgoal. simpl. rewrite lookup_empty.
    pose proof (actions_loop_not_OutOfFuel (tiles s) (tiles s) []) as Hno.
    unfold get_possible_actions.
    destruct (actions_loop (tiles s) (tiles s) []) as [acts|[]|] eqn:Hacts; simpl; try done.
    destruct Hnot. by eapply actions_loop_Ret_known.
  - intros Hgoal. unfold solve. simpl. unfold solve_step. simpl. by rewrite Hgoal.
Qed.

Lemma solve_raises_witness :
  solve 1 (mkGameState 1 [((0, 0), mkTile "x" 0); ((0, 1), mkTile "e" 0)] (0, 0))
    = Raise KeyError.
Proof.
  apply (proj1 (solve_raises
    (mkGameState 1 [((0, 0), mkTile "x" 0); ((0, 1), mkTile "e" 0)] (0, 0)) 0)).
  - vm_compute. reflexivity.
  - unfold known_kinds. compute_done.
Defined.

(** ** Invariants of the frontier and of [explored] *)

Lemma heappush_perm heap item : heappush heap item ≡ₚ item :: heap.
Proof.
  induction heap as [|x heap IH]; simpl; [done|].
  case_decide; [done|]. rewrite IH. apply Permutation_swap.
Qed.

Lemma expand_counters s path g acts F c F' c' :
  expand s path g acts F c = Ret (F', c') →
  NoDup (node_counter <$> F) → (∀ x, x ∈ F → node_counter x <= c) →
  c <= c' ∧ NoDup (node_counter <$> F') ∧
  (∀ x, x ∈ F' → x ∈ F ∨ c < node_counter x <= c').
Proof.
  revert F c. induction acts as [|a acts IH]; intros F c; simpl.
  - intros [= <- <-] Hnd Hle. split; [lia|]. split; [done|]. auto.
  - intros H Hnd Hle. inv_bind H. inv_bind H.
    apply IH in H as (Hc & Hnd' & Hnew).
    + split; [lia|]. split; [done|].
      intros x Hx. destruct (Hnew x Hx) as [Hin|?]; [|right; lia].
      apply elem_of_heappush in Hin as [->|?]; [|by left].
      right. unfold node_counter; simpl. lia.
    + rewrite heappush_perm, fmap_cons. apply NoDup_cons. split; [|done].
      intros (x & Hx & Hin)%list_elem_of_fmap. apply Hle in Hin.
      unfold node_counter in *; simpl in *. lia.
    + intros x [->|Hx]%elem_of_heappush; [unfold node_counter; simpl; lia|].
      apply Hle in Hx. lia.
Qed.

(** X18. The sequence numbers of the entries on the frontier are
    pairwise different and at most [counter]: two entries always differ
    in priority or sequence number, so the comparison of two entries
    never goes on to their states. *)
Theorem frontier_counters_distinct (s0 : GameState) (m : search) :
  search_reachable s0 m →
  NoDup (node_counter <$> frontier m) ∧
  (∀ x, x ∈ frontier m → 0 <= node_counter x <= counter m) ∧
  (∀ i j x y, frontier m !! i = Some x → frontier m !! j = Some y → i ≠ j →
     (node_f x, node_counter x) ≠ (node_f y, node_counter y)).
Proof.
  intros Hrun.
  assert (NoDup (node_counter <$> frontier m) ∧
          (∀ x, x ∈ frontier m → 0 <= node_counter x <= counter m)) as [Hnd Hle].
  { revert m Hrun.
    apply (rtc_ind_r (λ m, NoDup (node_counter <$> frontier m) ∧
             (∀ x, x ∈ frontier m → 0 <= node_counter x <= counter m))).
    - simpl. split; [apply NoDup_singleton|].
      intros x ->%list_elem_of_singleton. done.
    - intros m m' _ Hstep [Hnd Hle].
      apply solve_step_Ret in Hstep as [[_ [=]]|(y & F & HF & Hcases)].
      rewrite HF in Hnd, Hle. rewrite fmap_cons in Hnd.
      apply NoDup_cons in Hnd as [_ Hnd].
      destruct Hcases as [[_ [=]]|[(_ & f' & _ & _ & [= ->])|
        (_ & _ & acts & F' & c' & Hacts & Hexp & [= ->])]]; simpl.
      + split; [done|]. intros x Hx. apply Hle. by right.
      + apply expand_counters in Hexp as (Hc & Hnd' & Hnew); [|done|].
        * split; [done|]. intros x Hx.
          destruct (Hnew x Hx) as [Hin|?].
          -- assert (0 <= node_counter x <= counter m) by (apply Hle; by right). lia.
          -- assert (y ∈ y :: F) as Hy by left. apply Hle in Hy. lia.
        * intros x Hx. apply Hle. by right. }
  split; [done|]. split; [done|].
  intros i j x y Hi Hj Hij [= _ Heq].
  apply Hij. eapply NoDup_lookup; [exact Hnd|..]; rewrite list_lookup_fmap.
  - by rewrite Hi.
  - rewrite Hj. simpl. by rewrite Heq.
Qed.

Lemma frontier_counters_distinct_witness :
  ∃ m, search_next (solve_init (two_tile_row 1)) m ∧
    length (frontier m) = 4%nat ∧
    NoDup (node_counter <$> frontier m) ∧
    (∀ x, x ∈ frontier m → 0 <= node_counter x <= counter m) ∧
    (∀ i j x y, frontier m !! i = Some x → frontier m !! j = Some y → i ≠ j →
       (node_f x, node_counter x) ≠ (node_f y, node_counter y)).
Proof.
  eexists. split; [vm_compute; reflexivity|]. split; [reflexivity|].
  apply (frontier_counters_distinct (two_tile_row 1)).
  apply rtc_once. vm_compute. reflexivity.
Defined.

(** X19. Every entry on the frontier other than the first one has a
    non-empty path and the priority [f = len(path) + heuristic(state)]. *)
Theorem frontier_priority (s0 : GameState) (m : search) (x : node) :
  search_reachable s0 m → x ∈ frontier m →
  x = (0, 0, s0, []) ∨
  (node_path x ≠ [] ∧
   heuristic (node_state x) = Ret (node_f x - len (node_path x))).
Proof.
  unfold search_reachable. intros Hrun. revert m Hrun x.
  apply (rtc_ind_r (λ m, ∀ x, x ∈ frontier m →
    x = (0, 0, s0, []) ∨
    (node_path x ≠ [] ∧
     heuristic (node_state x) = Ret (node_f x - len (node_path x))))).
  - intros x ->%list_elem_of_singleton. by left.
  - intros m m' _ Hstep IH x Hx.
    apply solve_step_Ret in Hstep as [[_ [=]]|(y & F & HF & Hcases)].
    rewrite HF in IH.
    destruct Hcases as [[_ [=]]|[(_ & f' & _ & _ & [= ->])|
      (_ & _ & acts & F' & c' & Hacts & Hexp & [= ->])]]; simpl in Hx.
    + apply IH. by right.
    + apply expand_Ret in Hexp as (_ & _ & Hnew & _).
      apply Hnew in Hx as [Hx|(a & s' & h & Ha & Happ & Hh & Hf & Hs & Hp)].
      * apply IH. by right.
      * right. rewrite Hf, Hs, Hp. split; [by destruct (node_path y)|].
        rewrite Hh. f_equal. unfold len. rewrite length_app. simpl. lia.
Qed.

Lemma frontier_priority_witness :
  ∃ m, search_next (solve_init (two_tile_row 1)) m ∧
    ∀ x, x ∈ frontier m →
      x = (0, 0, two_tile_row 1, []) ∨
      (node_path x ≠ [] ∧
       heuristic (node_state x) = Ret (node_f x - len (node_path x))).
Proof.
  eexists. split.
  - vm_compute. reflexivity.
  - intros x Hx. eapply (frontier_priority (two_tile_row 1)); [|exact Hx].
    apply rtc_once. vm_compute. reflexivity.
Defined.

(** X20. [explored] never loses a key, and the priority recorded for a
    key never goes up. *)
Theorem explored_monotone (m m' : search) (k : key) (f : Z) :
  rtc search_next m m' → explored m !! k = Some f →
  ∃ f', explored m' !! k = Some f' ∧ f' <= f.
Proof.
  intros Hrun. revert f. induction Hrun as [m|m m1 m' Hstep _ IH]; intros f Hk.
  - exists f. split; [done | lia].
  - assert (∃ f1, explored m1 !! k = Some f1 ∧ f1 <= f) as (f1 & Hk1 & Hle).
    { apply solve_step_Ret in Hstep as [[_ [=]]|(y & F & HF & Hcases)].
      destruct Hcases as [[_ [=]]|[(_ & f' & _ & _ & [= ->])|
        (_ & Hfresh & acts & F' & c' & Hacts & Hexp & [= ->])]]; simpl.
      - exists f. split; [done | lia].
      - destruct (decide (hash (node_state y) = k)) as [<-|Hne].
        + exists (node_f y). rewrite lookup_insert_eq. split; [done|].
          specialize (Hfresh f Hk). lia.
        + exists f. rewrite lookup_insert_ne by done. split; [done | lia]. }
    destruct (IH f1 Hk1) as (f' & Hk' & Hle'). exists f'. split; [done | lia].
Qed.

Lemma explored_monotone_witness :
  ∃ m', search_next
          (mkSearch [(-3, 7, two_tile_row 1, [])] {[hash (two_tile_row 1) := 5]} 7) m' ∧
    ∃ f', explored m' !! hash (two_tile_row 1) = Some f' ∧ f' <= 5.
Proof.
  eexists. split; [vm_compute; reflexivity|].
  eapply (explored_monotone
            (mkSearch [(-3, 7, two_tile_row 1, [])] {[hash (two_tile_row 1) := 5]} 7)).
  - apply rtc_once. vm_compute. reflexivity.
  - vm_compute. reflexivity.
Defined.

(** * The contract of [solve] *)

(** A goal state that a sequence of actions reaches is reached through
    the generator when none of its End tiles is turned towards an End
    tile. *)
Lemma goal_gen_reach s path g :
  dict_wf (tiles s) → known_kinds (tiles s) →
  apply_actions s path = Ret g → is_goal g = Ret true →
  (∀ p t d n, dict_get (tiles g) p = Some t → type t = "e"%string →
     d ∈ get_connections t → dict_get (tiles g) (neighbor_pos p d) = Some n →
     type n ≠ "e"%string) →
  gen_solvable s.
Proof.
  intros Hwf Hkn Hpath Hgoal Hfaces.
  apply apply_actions_same_kind in Hpath as (Hgrid & Hsrc & Hkind).
  exists (mkGameState (grid_size s) (retarget (tiles s) (tiles g)) (source s)). split.
  - pose proof (retarget_reach (grid_size s) (source s) (tiles s) [] (tiles s) (tiles g)
                  Hwf Hkn) as Hreach.
    simpl in Hreach. destruct s as [G d0 src]. simpl in *. apply Hreach.
    + intros p tg d n Hin He Hd Hn.
      pose proof (Forall2_dict_get d0 (tiles g) (neighbor_pos p d)
                    (λ x y Hxy, proj1 Hxy) Hkind) as Hn0.
      rewrite Hn in Hn0.
      destruct (dict_get (tiles g) (neighbor_pos p d)) as [ng|] eqn:Hng; [|done].
      destruct Hn0 as [_ Hnt]. simpl in Hnt. rewrite <- Hnt.
      apply (Hfaces p tg d ng); try done.
      apply dict_get_elem_wf; [by eapply same_kind_wf | done].
    + apply same_kind_refl.
    + done.
  - rewrite <- Hgoal. apply is_goal_same; [done|].
    by apply retarget_same_connections.
Qed.

Lemma get_connections_DIRS t d : d ∈ get_connections t → d ∈ DIRS.
Proof.
  unfold get_connections. destruct (PIPE_TYPES !! type t) as [vs|] eqn:Hvs.
  - by apply (DIRS_at_elem (type t) vs).
  - by intros ?%elem_of_nil.
Qed.

Lemma neighbor_pos_ne p d : d ∈ DIRS → neighbor_pos p d ≠ p.
Proof.
  unfold DIRS. rewrite !elem_of_cons. destruct p as [r c]. unfold neighbor_pos.
  intros [-> |[-> |[-> |[-> |?%elem_of_nil]]]]; simpl; try done; intros [= ? ?]; lia.
Qed.

(** An End tile has one connection. *)
Lemma end_connections t :
  type t = "e"%string → ∃ d, get_connections t = [d].
Proof.
  intros He. unfold get_connections. rewrite He.
  change (PIPE_TYPES !! "e"%string) with (Some [[0]; [1]; [2]; [3]]%nat).
  cbv beta iota. change (len [[0]; [1]; [2]; [3]]%nat) with 4.
  pose proof (Z.mod_pos_bound (rotation t) 4 ltac:(lia)) as Hr.
  assert (rotation t `mod` 4 = 0 ∨ rotation t `mod` 4 = 1 ∨
          rotation t `mod` 4 = 2 ∨ rotation t `mod` 4 = 3) as [-> |[-> |[-> | ->]]] by lia;
    by eexists.
Qed.

Lemma rtc_linked_sym tiles p q : rtc (linked tiles) p q → rtc (linked tiles) q p.
Proof.
  induction 1 as [|x y z Hxy _ IH]; [done|].
  eapply rtc_r; [exact IH|]. by apply linked_sym.
Qed.

(** In a goal state of other than one tile the source is a position of
    the tile map and every position can be reached from it. *)
Lemma goal_all_linked s :
  dict_wf (tiles s) → is_goal s = Ret true → length (tiles s) ≠ 1%nat →
  source s ∈ (tiles s).*1 ∧
  ∀ p, p ∈ (tiles s).*1 → rtc (linked (tiles s)) (source s) p.
Proof.
  intros Hwf Hgoal Hlen.
  assert (source s ∈ (tiles s).*1) as Hsrc.
  { destruct (decide (source s ∈ (tiles s).*1)) as [|Hoff]; [done|].
    destruct (is_goal_off_map s Hoff) as [Hg _]. rewrite Hg in Hgoal.
    injection Hgoal as Hgoal. apply bool_decide_eq_true in Hgoal.
    unfold len in Hgoal. lia. }
  split; [done|]. intros p Hp.
  destruct (goal_soundness_on_map s Hsrc Hgoal) as (R & HR & Hsize & _).
  pose proof (connected_loop_bounds _ _ _ _ _ HR) as [_ Hsub].
  assert (R = positions (tiles s)) as ->.
  { apply set_subseteq_size_eq; [set_solver|]. rewrite size_positions_wf by done. lia. }
  apply (connected_set_spec s _ HR). by apply elem_of_positions.
Qed.

(** A state in which every position can be reached from the source is a
    goal state. *)
Lemma all_linked_goal s :
  dict_wf (tiles s) → known_kinds (tiles s) → source s ∈ (tiles s).*1 →
  (∀ p, p ∈ (tiles s).*1 → rtc (linked (tiles s)) (source s) p) →
  is_goal s = Ret true.
Proof.
  intros Hwf Hkn Hsrc Hall. rewrite (is_goal_on_map s Hsrc).
  destruct (get_connected_tiles_known s Hkn) as [R HR]. rewrite HR. simpl.
  pose proof (connected_loop_bounds _ _ _ _ _ HR) as [_ Hsub].
  do 2 f_equal. apply bool_decide_eq_true. unfold len.
  rewrite <- (size_positions_wf _ Hwf). f_equal.
  apply Nat.le_antisymm; [apply subseteq_size; set_solver|].
  apply subseteq_size. intros p Hp%elem_of_positions.
  apply (connected_set_spec s R HR). split; [done|]. by apply Hall.
Qed.

(** An End tile turned towards an End tile reaches that tile at most. *)
Lemma end_component tiles p t d n x :
  dict_get tiles p = Some t → type t = "e"%string → d ∈ get_connections t →
  dict_get tiles (neighbor_pos p d) = Some n → type n = "e"%string →
  rtc (linked tiles) p x → x = p ∨ x = neighbor_pos p d.
Proof.
  intros Hp Ht Hd Hn Hnt Hreach.
  destruct (end_connections t Ht) as [d1 Hd1].
  destruct (end_connections n Hnt) as [d2 Hd2].
  rewrite Hd1 in Hd. apply list_elem_of_singleton in Hd. subst d1.
  assert (x = p ∨ (x = neighbor_pos p d ∧ opposite d ∈ get_connections n)) as [?|[? _]];
    [|by left|by right].
  revert x Hreach.
  apply (rtc_ind_r (λ x, x = p ∨ (x = neighbor_pos p d ∧ opposite d ∈ get_connections n)));
    [by left|].
  intros x y _ (t' & d' & n' & Hx & Hd' & -> & Hy & Hopp) [-> |[-> Hback]].
  - rewrite Hp in Hx. injection Hx as <-.
    rewrite Hd1 in Hd'. apply list_elem_of_singleton in Hd'. subst d'.
    right. split; [done|]. rewrite Hn in Hy. by injection Hy as <-.
  - rewrite Hn in Hx. injection Hx as <-.
    rewrite Hd2 in Hd', Hback. apply list_elem_of_singleton in Hd', Hback. subst.
    left. apply neighbor_pos_opposite.
Qed.

(** In a goal state of other than two tiles no End tile is turned
    towards an End tile. *)
Lemma goal_no_facing g p t d n :
  dict_wf (tiles g) → is_goal g = Ret true → length (tiles g) ≠ 2%nat →
  dict_get (tiles g) p = Some t → type t = "e"%string → d ∈ get_connections t →
  dict_get (tiles g) (neighbor_pos p d) = Some n → type n ≠ "e"%string.
Proof.
  intros Hwf Hgoal Hlen Hp Ht Hd Hn Hnt.
  pose proof (neighbor_pos_ne p d (get_connections_DIRS t d Hd)) as Hne.
  assert (p ∈ (tiles g).*1) as Hpk by (apply dict_get_is_Some; by eexists).
  assert (neighbor_pos p d ∈ (tiles g).*1) as Hqk by (apply dict_get_is_Some; by eexists).
  assert ((tiles g).*1 ⊆ [p; neighbor_pos p d]) as Hsub.
  { destruct (goal_all_linked g Hwf Hgoal) as [Hsrc Hall].
    { intros Hone. destruct (tiles g) as [|x [|y l]]; simpl in *; try done.
      apply list_elem_of_singleton in Hpk, Hqk. congruence. }
    intros k Hk.
    assert (rtc (linked (tiles g)) p k) as Hreach.
    { etrans; [apply rtc_linked_sym; by apply Hall | by apply Hall]. }
    destruct (end_component (tiles g) p t d n k Hp Ht Hd Hn Hnt Hreach) as [-> | ->];
      set_solver. }
  apply Hlen. apply Nat.le_antisymm.
  - rewrite <- (length_fmap fst).
    apply (submseteq_length _ [p; neighbor_pos p d]), NoDup_submseteq; [exact Hwf | exact Hsub].
  - rewrite <- (length_fmap fst).
    apply (submseteq_length [p; neighbor_pos p d]), NoDup_submseteq.
    + apply NoDup_cons. split; [|apply NoDup_singleton]. set_solver.
    + intros k [-> |[-> |?%elem_of_nil]%elem_of_cons]%elem_of_cons; done.
Qed.

Lemma gen_reach_same_kind s s' :
  rtc gen_step s s' →
  grid_size s' = grid_size s ∧ source s' = source s ∧
  Forall2 same_kind (tiles s) (tiles s').
Proof.
  induction 1 as [s|s s1 s' (acts & a & _ & _ & Happ) _ (Hg & Hs & Hk)].
  - split; [done|]. split; [done|]. apply same_kind_refl.
  - apply apply_action_same_kind in Happ as (Hg1 & Hs1 & Hk1).
    split; [congruence|]. split; [congruence|].
    eapply Forall2_trans; [|done..].
    intros x y z [? ?] [? ?]. split; congruence.
Qed.

(** The generator never turns an End tile towards an End tile, so the
    tile it has turned is linked to no End tile. *)
Lemma gen_step_end_unlinked s s' :
  dict_wf (tiles s) → gen_step s s' →
  ∃ q t, dict_get (tiles s') q = Some t ∧
    Forall2 same_kind (tiles s) (tiles s') ∧
    (type t = "e"%string →
     ∀ y n, linked (tiles s') q y → dict_get (tiles s') y = Some n → type n ≠ "e"%string).
Proof.
  intros Hwf (acts & a & Hacts & Ha & Happ).
  pose proof (apply_action_same_kind _ _ _ Happ) as (_ & _ & Hkind).
  apply apply_action_Ret_inv in Happ as (ta & Hta & ->). simpl in *.
  apply (get_possible_actions_elem _ _ _ Hacts) in Ha
    as (tile & vs & Hin & Hvs & Hr & Hne & Hfree).
  apply (dict_get_elem_wf _ _ _ Hwf) in Hin. rewrite Hta in Hin. injection Hin as <-.
  exists (a_pos a), (rotate ta (a_rotation a)).
  split; [by rewrite dict_get_set_eq|]. split; [done|].
  intros He y n (t' & d & n' & Ht' & Hd & -> & Hn' & _) Hn.
  rewrite dict_get_set_eq in Ht'. injection Ht' as <-.
  pose proof (neighbor_pos_ne (a_pos a) d (get_connections_DIRS _ d Hd)) as Hy.
  rewrite dict_get_set_ne in Hn by done.
  specialize (Hfree He). rewrite faces_end_false in Hfree.
  apply (Hfree d n); [|done].
  unfold rotate in Hd. by rewrite (get_connections_in_range _ vs) in Hd.
Qed.

(** On a pair of End tiles that is not a goal state the generator
    reaches no goal state. *)
Lemma stuck_not_gen_solvable s :
  dict_wf (tiles s) → stuck_end_pair s → ¬ gen_solvable s.
Proof.
  intros Hwf (p1 & t1 & p2 & t2 & d & Htiles & He1 & He2 & Hd & Hp2 & Hsrc & Hng)
    (s' & Hreach & Hgoal).
  apply rtc_inv_r in Hreach as [-> |(s1 & Hreach & Hstep)]; [congruence|].
  apply gen_reach_same_kind in Hreach as (_ & _ & Hk1).
  pose proof (same_kind_wf _ _ Hwf Hk1) as Hwf1.
  destruct (gen_step_end_unlinked s1 s' Hwf1 Hstep) as (q & t & Hq & Hk2 & Hfree).
  assert (Forall2 same_kind (tiles s) (tiles s')) as Hk.
  { eapply Forall2_trans; [|done..]. intros x y z [? ?] [? ?]. split; congruence. }
  pose proof (same_kind_wf _ _ Hwf Hk) as Hwf'.
  assert (∀ x n, dict_get (tiles s') x = Some n → type n = "e"%string) as Hends.
  { intros x n Hn.
    pose proof (Forall2_dict_get (tiles s) (tiles s') x (λ x y Hxy, proj1 Hxy) Hk) as H0.
    rewrite Hn, Htiles in H0. simpl in H0.
    repeat case_decide; try done; destruct H0 as [_ ->]; done. }
  assert (length (tiles s') = 2%nat) as Hlen.
  { rewrite <- (Forall2_length _ _ _ Hk), Htiles. done. }
  destruct (goal_all_linked s' Hwf' Hgoal) as [Hsrc' Hall]; [lia|].
  assert (∃ q', q' ∈ (tiles s').*1 ∧ q' ≠ q) as (q' & Hq' & Hne).
  { rewrite (same_kind_keys _ _ Hk), Htiles. simpl.
    assert (p1 ≠ p2) as Hp.
    { unfold dict_wf in Hwf. rewrite Htiles in Hwf. simpl in Hwf.
      apply NoDup_cons in Hwf as [Hp _]. set_solver. }
    destruct (decide (q = p1)) as [->|]; [exists p2 | exists p1]; set_solver. }
  assert (rtc (linked (tiles s')) q q') as Hqq.
  { etrans; [apply rtc_linked_sym, Hall | by apply Hall].
    apply dict_get_is_Some. by eexists. }
  apply rtc_inv in Hqq as [->|(y & Hl & _)]; [done|].
  pose proof Hl as (_ & _ & n & _ & _ & _ & Hn & _).
  apply (Hfree (Hends _ _ Hq) y n Hl Hn). by eapply Hends.
Qed.

(** A goal state of two tiles has them side by side, the source on one
    of them. *)
Lemma pair_goal_adjacent g p1 g1 p2 g2 :
  dict_wf (tiles g) → tiles g = [(p1, g1); (p2, g2)] → is_goal g = Ret true →
  source g ∈ [p1; p2] ∧ ∃ d, d ∈ DIRS ∧ p2 = neighbor_pos p1 d.
Proof.
  intros Hwf Htiles Hgoal.
  destruct (goal_all_linked g Hwf Hgoal) as [Hsrc Hall]; [by rewrite Htiles|].
  rewrite Htiles in Hsrc. simpl in Hsrc. split; [done|].
  assert (p1 ≠ p2) as Hp.
  { unfold dict_wf in Hwf. rewrite Htiles in Hwf. simpl in Hwf.
    apply NoDup_cons in Hwf as [Hp _]. set_solver. }
  assert (rtc (linked (tiles g)) p1 p2) as Hreach.
  { etrans; [apply rtc_linked_sym, Hall | apply Hall]; rewrite Htiles; set_solver. }
  apply rtc_inv in Hreach as [->|(y & (t & d & n & Ht & Hd & -> & Hn & _) & _)]; [done|].
  exists d. split; [by eapply get_connections_DIRS|].
  pose proof (neighbor_pos_ne p1 d (get_connections_DIRS _ _ Hd)) as Hne.
  assert (neighbor_pos p1 d ∈ (tiles g).*1) as Hk by (apply dict_get_is_Some; by eexists).
  rewrite Htiles in Hk. set_solver.
Qed.

(** Each direction is the connection of an End tile. *)
Lemma end_towards d :
  d ∈ DIRS → ∃ i, get_connections (mkTile "e" i) = [d].
Proof.
  unfold DIRS. rewrite !elem_of_cons.
  intros [-> |[-> |[-> |[-> |?%elem_of_nil]]]]; [| | | |done].
  - by exists 0.
  - by exists 1.
  - by exists 2.
  - by exists 3.
Qed.

Lemma opposite_DIRS d : d ∈ DIRS → opposite d ∈ DIRS.
Proof.
  unfold DIRS. rewrite !elem_of_cons.
  intros [-> |[-> |[-> |[-> |?%elem_of_nil]]]]; [| | | |done]; compute; tauto.
Qed.

(** A pair of End tiles side by side is solved by turning the two
    towards each other. *)
Lemma stuck_solvable s : dict_wf (tiles s) → stuck_end_pair s → solvable s.
Proof.
  intros Hwf (p1 & t1 & p2 & t2 & d & Htiles & He1 & He2 & Hd & Hp2 & Hsrc & _).
  assert (p1 ≠ p2) as Hp.
  { unfold dict_wf in Hwf. rewrite Htiles in Hwf. simpl in Hwf.
    apply NoDup_cons in Hwf as [Hp _]. set_solver. }
  destruct (end_towards d Hd) as [i Hi].
  destruct (end_towards (opposite d) (opposite_DIRS d Hd)) as [j Hj].
  set (g := mkGameState (grid_size s) [(p1, mkTile "e" i); (p2, mkTile "e" j)] (source s)).
  exists [mkAction p1 i; mkAction p2 j], g. split.
  - cbn [apply_actions].
    rewrite (apply_action_Ret s (mkAction p1 i) t1)
      by (rewrite Htiles; simpl; by rewrite decide_True).
    cbn [mbind result_bind].
    rewrite (apply_action_Ret _ (mkAction p2 j) t2)
      by (rewrite Htiles; repeat (simpl; case_decide; simplify_eq); done).
    cbn [mbind result_bind]. rewrite Htiles.
    repeat (simpl; case_decide; simplify_eq). unfold rotate, g. by rewrite He1, He2.
  - assert (linked (tiles g) p1 p2) as Hl.
    { exists (mkTile "e" i), d, (mkTile "e" j). rewrite Hi, Hj, <- Hp2.
      repeat (simpl; case_decide; simplify_eq).
      repeat split; try done; by apply list_elem_of_singleton. }
    apply all_linked_goal.
    + unfold dict_wf. simpl. apply NoDup_cons. split; [set_solver | apply NoDup_singleton].
    + repeat constructor; simpl; by eexists.
    + done.
    + simpl. intros p Hpk.
      assert (∀ x y, x ∈ [p1; p2] → y ∈ [p1; p2] → rtc (linked (tiles g)) x y) as Hany.
      { intros x y [-> |[-> |?%elem_of_nil]%elem_of_cons]%elem_of_cons
          [-> |[-> |?%elem_of_nil]%elem_of_cons]%elem_of_cons; try done.
        - by apply rtc_once.
        - by apply rtc_once, linked_sym. }
      by apply Hany.
Qed.

(** Apart from the pairs of End tiles, the generator loses no
    solution. *)
Lemma solvable_gen_solvable s :
  dict_wf (tiles s) → known_kinds (tiles s) → ¬ stuck_end_pair s →
  solvable s → gen_solvable s.
Proof.
  intros Hwf Hkn Hfree (path & g & Hpath & Hgoal).
  destruct (is_goal_known s Hkn) as [[|] Hs]; [exists s; by split|].
  pose proof (apply_actions_same_kind _ _ _ Hpath) as (_ & Hsrc & Hkind).
  pose proof (same_kind_wf _ _ Hwf Hkind) as Hwfg.
  apply (goal_gen_reach s path g Hwf Hkn Hpath Hgoal).
  destruct (decide (length (tiles s) = 2%nat)) as [Hlen|Hlen].
  - destruct (tiles s) as [|[p1 t1] [|[p2 t2] [|? ?]]] eqn:Htiles; try done.
    apply Forall2_cons_inv_l in Hkind as ([q1 g1] & dg & [Hq1 Hg1] & Hkind & Hg).
    apply Forall2_cons_inv_l in Hkind as ([q2 g2] & dg' & [Hq2 Hg2] & Hkind & ->).
    apply Forall2_nil_inv_l in Hkind as ->. simpl in *. subst q1 q2.
    assert (¬ (type t1 = "e"%string ∧ type t2 = "e"%string)) as Hmixed.
    { intros [He1 He2]. apply Hfree.
      destruct (pair_goal_adjacent g p1 g1 p2 g2 Hwfg Hg Hgoal) as (Hsg & d & Hd & Hp2).
      exists p1, t1, p2, t2, d. rewrite <- Hsrc. done. }
    assert (p1 ≠ p2) as Hp.
    { unfold dict_wf in Hwf. simpl in Hwf. apply NoDup_cons in Hwf as [Hp _]. set_solver. }
    intros p t d n Ht He Hd Hn Hne.
    pose proof (neighbor_pos_ne p d (get_connections_DIRS _ _ Hd)) as Hnp.
    rewrite Hg in Ht, Hn. simpl in Ht, Hn. apply Hmixed.
    repeat case_decide; simplify_eq; split; congruence.
  - intros p t d n. apply goal_no_facing; [done..|].
    by rewrite <- (Forall2_length _ _ _ Hkind).
Qed.

Lemma stuck_end_pair_dec s : stuck_end_pair s ∨ ¬ stuck_end_pair s.
Proof.
  unfold stuck_end_pair.
  destruct (tiles s) as [|[p1 t1] [|[p2 t2] [|? ?]]] eqn:Htiles;
    try (right; by intros (? & ? & ? & ? & ? & ? & _)).
  destruct (decide (type t1 = "e"%string)) as [He1|He1];
    [|right; intros (? & ? & ? & ? & ? & ? & ? & _); by simplify_eq].
  destruct (decide (type t2 = "e"%string)) as [He2|He2];
    [|right; intros (? & ? & ? & ? & ? & ? & ? & ? & _); by simplify_eq].
  destruct (decide (Exists (λ d, p2 = neighbor_pos p1 d) DIRS)) as [Hadj|Hadj];
    [|right; intros (? & ? & ? & ? & d & ? & ? & ? & Hd & ? & _); simplify_eq;
      apply Hadj, Exists_exists; by exists d].
  destruct (decide (source s ∈ [p1; p2])) as [Hsrc|Hsrc];
    [|right; intros (? & ? & ? & ? & ? & ? & ? & ? & ? & ? & ? & _); by simplify_eq].
  destruct (is_goal s) as [[|]| |] eqn:Hgoal;
    try (right; intros (? & ? & ? & ? & ? & ? & ? & ? & ? & ? & ? & ?); by simplify_eq).
  left. apply Exists_exists in Hadj as (d & Hd & Hp2).
  by exists p1, t1, p2, t2, d.
Qed.

(** C1, as the code has it.  For every initial state with the tile
    kinds of the table, [solve] terminates: from some number of
    iterations on it returns the same result.  A returned action sequence
    folds, by [apply_action] from the initial state, to a state for which
    [is_goal] is true.  A solvable state gets such a sequence and an
    unsolvable one [None], with one exception: a state of exactly two End
    tiles side by side, the source on one of them, that is not a goal
    state already.  Such a state is solvable and [solve] returns [None]
    on it, because the generator never turns an End tile towards an End
    tile.  So [None] is returned exactly on the unsolvable states and on
    these pairs; in terms of the generator, exactly when no goal state
    can be reached through actions it emits. *)
Theorem solve_contract (s0 : GameState) :
  dict_wf (tiles s0) → known_kinds (tiles s0) →
  ∃ fuel r,
    (∀ n, (fuel ≤ n)%nat → solve n s0 = Ret r) ∧
    (∀ path, r = Some path →
       ∃ s', apply_actions s0 path = Ret s' ∧ is_goal s' = Ret true) ∧
    (solvable s0 → ¬ stuck_end_pair s0 → ∃ path, r = Some path) ∧
    (¬ solvable s0 → r = None) ∧
    (stuck_end_pair s0 → solvable s0 ∧ r = None) ∧
    (r = None ↔ ¬ solvable s0 ∨ stuck_end_pair s0) ∧
    (r = None ↔ ¬ gen_solvable s0).
Proof.
  intros Hwf Hkn.
  destruct (solve_terminates s0 Hwf Hkn) as (fuel & r & Hloop & Hr).
  assert (r = None ↔ ¬ gen_solvable s0) as Hnone.
  { destruct r as [path|]; [|done]. split; [done|].
    destruct Hr as (s' & _ & Hreach & Hgoal). intros Hnot. destruct Hnot. by exists s'. }
  assert (¬ solvable s0 → r = None) as Hunsolvable.
  { intros Hno. apply Hnone. intros Hg. by apply Hno, gen_solvable_solvable. }
  assert (stuck_end_pair s0 → r = None) as Hstuck.
  { intros Hst. apply Hnone. by apply stuck_not_gen_solvable. }
  assert (solvable s0 → ¬ stuck_end_pair s0 → ∃ path, r = Some path) as Hfound.
  { intros Hs Hfree. destruct r as [path|]; [by exists path|].
    destruct (proj1 Hnone eq_refl). by apply solvable_gen_solvable. }
  exists fuel, r. split; [|split; [|split; [|split; [|split; [|split]]]]]; try done.
  - intros n Hn. replace n with (fuel + (n - fuel))%nat by lia.
    by apply solve_loop_more.
  - intros path ->. destruct Hr as (s' & Hpath & _ & Hgoal). by exists s'.
  - intros Hst. split; [by apply stuck_solvable | by apply Hstuck].
  - split.
    + intros ->. destruct (stuck_end_pair_dec s0) as [Hst|Hfree]; [by right|].
      left. intros Hs. by destruct (Hfound Hs Hfree).
    + intros [Hno|Hst]; auto.
Qed.

Lemma solve_contract_witness :
  ∃ fuel r,
    (∀ n, (fuel ≤ n)%nat → solve n (two_tile_row 1) = Ret r) ∧
    (∀ path, r = Some path →
       ∃ s', apply_actions (two_tile_row 1) path = Ret s' ∧ is_goal s' = Ret true) ∧
    (solvable (two_tile_row 1) → ¬ stuck_end_pair (two_tile_row 1) →
       ∃ path, r = Some path) ∧
    (¬ solvable (two_tile_row 1) → r = None) ∧
    (stuck_end_pair (two_tile_row 1) → solvable (two_tile_row 1) ∧ r = None) ∧
    (r = None ↔ ¬ solvable (two_tile_row 1) ∨ stuck_end_pair (two_tile_row 1)) ∧
    (r = None ↔ ¬ gen_solvable (two_tile_row 1)).
Proof.
  apply (solve_contract (two_tile_row 1)).
  - unfold dict_wf. compute_done.
  - unfold known_kinds. compute_done.
Defined.

(** C1 as stated fails: the pair of End tiles is solved by one valid
    action, turning the left tile to the right, and [solve] returns
    [None] on it, because the generator never emits an action that turns
    an End tile towards an End tile. *)
Lemma solve_misses_facing_ends :
  solvable end_pair ∧
  (∃ s', apply_actions end_pair [mkAction (0, 0) 1] = Ret s' ∧ is_goal s' = Ret true) ∧
  (∀ n, solve (60 + n) end_pair = Ret None).
Proof.
  assert (∃ s', apply_actions end_pair [mkAction (0, 0) 1] = Ret s' ∧
                is_goal s' = Ret true) as Hsol.
  { eexists. split; vm_compute; reflexivity. }
  split; [|split; [done|]].
  - destruct Hsol as (s' & ? & ?). by exists [mkAction (0, 0) 1], s'.
  - intros n. vm_compute. reflexivity.
Qed.

(** * The game of [game.py] *)

(** ** The tiles of the game *)

Lemma Game_PIPE_TYPES : Game.PIPE_TYPES = PIPE_TYPES.
Proof. reflexivity. Qed.

Lemma index_in_range {A} (l : list A) (i : Z) :
  0 <= i < len l → Game.index l i = from_option Game.Done (Game.Fail Game.IndexError) (l !! Z.to_nat i).
Proof.
  intros Hi. unfold Game.index.
  rewrite (bool_decide_eq_false_2 (i < 0)) by lia.
  rewrite (bool_decide_eq_true_2 (0 <= i)) by lia.
  by destruct (l !! Z.to_nat i).
Qed.

Lemma modulo_pos (a b : Z) : 0 < b → Game.modulo a b = Game.Done (a `mod` b).
Proof. intros Hb. unfold Game.modulo. by rewrite bool_decide_eq_false_2 by lia. Qed.

Lemma index_mod {A} (l : list A) (r : Z) :
  0 < len l → ∃ a, Game.index l (r `mod` len l) = Game.Done a ∧
                   l !! Z.to_nat (r `mod` len l) = Some a.
Proof.
  intros Hlen. pose proof (Z.mod_pos_bound r (len l) Hlen) as Hr.
  rewrite index_in_range by done.
  destruct (lookup_lt_is_Some_2 l (Z.to_nat (r `mod` len l))) as [a Ha].
  { unfold len in *. lia. }
  exists a. by rewrite Ha.
Qed.

(** X21. [Tile(type_name, rotation)] raises [KeyError] exactly for a
    kind that is not in [PIPE_TYPES]; otherwise it gives an unlocked tile
    with the rotation reduced modulo the number of variations, whose
    connections are, as offsets, those the solver's [Tile] of the same
    kind and rotation reports. *)
Theorem Tile_init_spec (k : string) (r : Z) :
  (Game.Tile_init k r = Game.Fail Game.KeyError ↔ Game.PIPE_TYPES !! k = None) ∧
  (∀ t, Game.Tile_init k r = Game.Done t →
     tile_ok t ∧ Game.type_name t = k ∧ Game.locked t = false ∧
     Game.rotation t = r `mod` len (Game.variations t) ∧
     DIRS_at <$> Game.get_connections t = get_connections (mkTile k r)) ∧
  (is_Some (Game.PIPE_TYPES !! k) → ∃ t, Game.Tile_init k r = Game.Done t).
Proof.
  unfold Game.Tile_init. destruct (Game.PIPE_TYPES !! k) as [vs|] eqn:Hk.
  - pose proof Hk as Hk'. rewrite Game_PIPE_TYPES in Hk'.
    pose proof (PIPE_TYPES_nonempty _ _ Hk') as Hlen.
    destruct (index_mod vs r Hlen) as (c & Hidx & Hc).
    rewrite modulo_pos by done. cbn [mbind Game.outcome_bind]. rewrite Hidx. simpl.
    split; [done|]. split; [|by eauto].
    intros t [= <-]. unfold tile_ok; simpl.
    pose proof (Z.mod_pos_bound r (len vs) Hlen).
    repeat split; try done; try lia.
    unfold get_connections, Game.get_connections, variation; simpl.
    by rewrite Hk', Hc.
  - split; [done|]. split; [done|]. by intros [? ?].
Qed.

Lemma rotate_unlocked (t : Game.Tile) (cw : bool) :
  tile_ok t → Game.locked t = false →
  ∃ c, Game.variations t !!
         Z.to_nat ((Game.rotation t + (if cw then 1 else -1)) `mod` len (Game.variations t))
       = Some c ∧
    Game.rotate t cw =
    Game.Done (Game.mkTile (Game.type_name t) (Game.variations t)
      ((Game.rotation t + (if cw : bool then 1 else -1)) `mod` len (Game.variations t))
      c false).
Proof.
  intros (Hk & Hr & Hc) Hl. unfold Game.rotate. rewrite Hl.
  assert (0 < len (Game.variations t)) as Hlen by lia.
  destruct (index_mod (Game.variations t) (Game.rotation t + (if cw then 1 else -1)) Hlen)
    as (c & Hidx & Hc').
  exists c. split; [done|].
  rewrite modulo_pos by done. cbn [mbind Game.outcome_bind]. by rewrite Hidx.
Qed.

Lemma tile_eta (t : Game.Tile) :
  Game.mkTile (Game.type_name t) (Game.variations t) (Game.rotation t)
    (Game.connections t) (Game.locked t) = t.
Proof. by destruct t. Qed.

Lemma rotate_times_unlocked n t :
  tile_ok t → Game.locked t = false →
  ∃ c, Game.variations t !!
         Z.to_nat ((Game.rotation t + Z.of_nat n) `mod` len (Game.variations t)) = Some c ∧
    rotate_times n t =
    Game.Done (Game.mkTile (Game.type_name t) (Game.variations t)
      ((Game.rotation t + Z.of_nat n) `mod` len (Game.variations t)) c false).
Proof.
  revert t. induction n as [|n IH]; intros t Hok Hl.
  - destruct Hok as (Hk & Hr & Hc). exists (Game.connections t).
    rewrite Z.add_0_r, Z.mod_small by done. split; [done|].
    simpl. by rewrite <- Hl, tile_eta.
  - destruct (rotate_unlocked t true Hok Hl) as (c & Hc & Hrot).
    simpl. rewrite Hrot. simpl.
    destruct Hok as (Hk & Hr & _).
    assert (0 < len (Game.variations t)) as Hlen by lia.
    pose proof (Z.mod_pos_bound (Game.rotation t + 1) (len (Game.variations t)) Hlen).
    destruct (IH (Game.mkTile (Game.type_name t) (Game.variations t)
      ((Game.rotation t + 1) `mod` len (Game.variations t)) c false))
      as (c' & Hc' & Hrec); [done..|].
    simpl in *. rewrite Hrec.
    replace (((Game.rotation t + 1) `mod` len (Game.variations t) + Z.of_nat n)
               `mod` len (Game.variations t))
      with ((Game.rotation t + Z.of_nat (S n)) `mod` len (Game.variations t)) in *.
    + by exists c'.
    + rewrite Zplus_mod_idemp_l. f_equal. lia.
Qed.

(** X22. [rotate] on a tile as [__init__] and [rotate] leave it: a
    locked tile stays as it is; an unlocked tile keeps its kind and gets
    a rotation within its variations with the connections of that
    rotation; a clockwise and a counter-clockwise turn undo each other;
    and as many clockwise turns as the kind has variations give back the
    tile. *)
Theorem rotate_spec (t : Game.Tile) (cw : bool) :
  tile_ok t →
  (Game.locked t = true → Game.rotate t cw = Game.Done t) ∧
  (∃ t', Game.rotate t cw = Game.Done t' ∧ tile_ok t' ∧
         Game.type_name t' = Game.type_name t ∧ Game.locked t' = Game.locked t) ∧
  (Game.locked t = false →
     (t' ← Game.rotate t cw; Game.rotate t' (negb cw)) = Game.Done t ∧
     rotate_times (length (Game.variations t)) t = Game.Done t).
Proof.
  intros Hok. split; [|split].
  - intros Hl. unfold Game.rotate. by rewrite Hl.
  - destruct (Game.locked t) eqn:Hl.
    + exists t. unfold Game.rotate. rewrite Hl. done.
    + destruct (rotate_unlocked t cw Hok Hl) as (c & Hc & ->). eexists. split; [done|].
      destruct Hok as (Hk & Hr & _). unfold tile_ok; simpl.
      assert (0 < len (Game.variations t)) as Hlen by lia.
      pose proof (Z.mod_pos_bound (Game.rotation t + (if cw then 1 else -1))
                    (len (Game.variations t)) Hlen).
      repeat split; try done; lia.
  - intros Hl. pose proof Hok as (Hk & Hr & Hc).
    assert (0 < len (Game.variations t)) as Hlen by lia. split.
    + destruct (rotate_unlocked t cw Hok Hl) as (c & Hc1 & ->). simpl.
      pose proof (Z.mod_pos_bound (Game.rotation t + (if cw then 1 else -1))
                    (len (Game.variations t)) Hlen).
      destruct (rotate_unlocked
        (Game.mkTile (Game.type_name t) (Game.variations t)
           ((Game.rotation t + (if cw then 1 else -1)) `mod` len (Game.variations t)) c false)
        (negb cw)) as (c' & Hc2 & ->); [done..|]. simpl in *.
      assert (((Game.rotation t + (if cw then 1 else -1)) `mod` len (Game.variations t) +
               (if negb cw then 1 else -1)) `mod` len (Game.variations t)
              = Game.rotation t) as Hback.
      { rewrite Zplus_mod_idemp_l.
        replace (Game.rotation t + (if cw then 1 else -1) + (if negb cw then 1 else -1))
          with (Game.rotation t) by (destruct cw; simpl; lia).
        by apply Z.mod_small. }
      rewrite Hback in *. rewrite Hc in Hc2. injection Hc2 as <-.
      by rewrite <- Hl, tile_eta.
    + destruct (rotate_times_unlocked (length (Game.variations t)) t Hok Hl)
        as (c & Hc' & ->).
      assert ((Game.rotation t + Z.of_nat (length (Game.variations t)))
                `mod` len (Game.variations t) = Game.rotation t) as Hfull.
      { unfold len. rewrite <- (Z.mul_1_l (Z.of_nat (length (Game.variations t)))) at 1.
        rewrite Z_mod_plus_full. by apply Z.mod_small. }
      rewrite Hfull in *. rewrite Hc in Hc'. injection Hc' as <-.
      by rewrite <- Hl, tile_eta.
Qed.

(** ** Neighbours on the grid *)

Lemma outcome_bind_Done {A B} (m : Game.outcome A) (f : A → Game.outcome B) b :
  m ≫= f = Game.Done b ↔ ∃ a, m = Game.Done a ∧ f a = Game.Done b.
Proof.
  destruct m; simpl; split; try done; try by intros (? & ? & ?).
  - eauto.
  - by intros (? & [= <-] & ?).
Qed.

Lemma cell_in_grid g r c :
  grid_ok g → in_grid g (r, c) → ∃ t, Game.cell g r c = Game.Done t.
Proof.
  intros [Hrows Hcols] [Hr Hc]. simpl in *. unfold Game.cell.
  rewrite index_in_range by lia.
  destruct (lookup_lt_is_Some_2 (Game.grid g) (Z.to_nat r)) as [row Hrow].
  { unfold len in *. lia. }
  rewrite Hrow. simpl.
  rewrite Forall_forall in Hcols. apply list_elem_of_lookup_2, Hcols in Hrow as Hlen.
  rewrite index_in_range by lia.
  destruct (lookup_lt_is_Some_2 row (Z.to_nat c)) as [t Ht].
  { unfold len in *. lia. }
  rewrite Ht. by exists t.
Qed.

Lemma neighbor_entry_skip g row col dr dc md td ds x :
  ¬ (in_grid g (row + dr, col + dc) ∧
     ∃ mine theirs,
       Game.cell g row col = Game.Done mine ∧ md ∈ Game.get_connections mine ∧
       Game.cell g (row + dr) (col + dc) = Game.Done theirs ∧
       td ∈ Game.get_connections theirs) →
  neighbor_entry g row col ((dr, dc, md, td) :: ds) x ↔ neighbor_entry g row col ds x.
Proof.
  intros Hno. split.
  - intros (dr' & dc' & md' & td' & mine & theirs & [[= -> -> -> ->]|Hin]%elem_of_cons
            & Hx & Hg & Hm & Hmd & Ht & Htd).
    + destruct Hno. split; [done|]. by exists mine, theirs.
    + by exists dr', dc', md', td', mine, theirs.
  - intros (dr' & dc' & md' & td' & mine & theirs & Hin & Hrest).
    exists dr', dc', md', td', mine, theirs. split; [by right | done].
Qed.

Lemma neighbors_loop_spec g row col ds acc ns :
  Game.neighbors_loop g row col ds acc = Game.Done ns →
  ∃ new, ns = acc ++ new ∧ (length new <= length ds)%nat ∧
    ∀ x, x ∈ new ↔ neighbor_entry g row col ds x.
Proof.
  revert acc. induction ds as [|[[[dr dc] md] td] ds IH]; intros acc; simpl.
  - intros [= <-]. exists []. rewrite app_nil_r. split; [done|]. split; [done|].
    intros x. split; [by intros ?%elem_of_nil|].
    by intros (? & ? & ? & ? & ? & ? & ?%elem_of_nil & _).
  - destruct (bool_decide (0 <= row + dr < Game.grid_size g) &&
              bool_decide (0 <= col + dc < Game.grid_size g)) eqn:Hb.
    + apply andb_true_iff in Hb as [Hr%bool_decide_eq_true Hc%bool_decide_eq_true].
      intros (mine & Hmine & H)%outcome_bind_Done.
      destruct (bool_decide (md ∈ Game.get_connections mine)) eqn:Hmd.
      * apply bool_decide_eq_true in Hmd.
        apply outcome_bind_Done in H as (theirs & Htheirs & H).
        destruct (bool_decide (td ∈ Game.get_connections theirs)) eqn:Htd.
        -- apply bool_decide_eq_true in Htd.
           apply IH in H as (new & -> & Hlen & Hnew).
           exists ((row + dr, col + dc, md, td) :: new).
           split; [by rewrite <- app_assoc|]. split; [simpl; lia|].
           intros x. rewrite elem_of_cons, Hnew. split.
           ++ intros [-> |(dr' & dc' & md' & td' & m' & t' & Hin & Hrest)].
              ** exists dr, dc, md, td, mine, theirs. split; [by left|]. done.
              ** exists dr', dc', md', td', m', t'. split; [by right | done].
           ++ intros (dr' & dc' & md' & td' & m' & t' & [[= -> -> -> ->]|Hin]%elem_of_cons
                      & Hrest).
              ** left. by destruct Hrest.
              ** right. by exists dr', dc', md', td', m', t'.
        -- apply bool_decide_eq_false in Htd.
           apply IH in H as (new & -> & Hlen & Hnew).
           exists new. split; [done|]. split; [simpl; lia|].
           intros x. rewrite Hnew, neighbor_entry_skip; [done|].
           intros (_ & m' & t' & _ & _ & Ht' & Hin). congruence.
      * apply bool_decide_eq_false in Hmd.
        apply IH in H as (new & -> & Hlen & Hnew).
        exists new. split; [done|]. split; [simpl; lia|].
        intros x. rewrite Hnew, neighbor_entry_skip; [done|].
        intros (_ & m' & t' & Hm' & Hin & _). congruence.
    + intros H. apply IH in H as (new & -> & Hlen & Hnew).
      exists new. split; [done|]. split; [simpl; lia|].
      intros x. rewrite Hnew, neighbor_entry_skip; [done|].
      intros [[Hr Hc] _]. simpl in *.
      apply andb_false_iff in Hb as [Hb|Hb]; apply bool_decide_eq_false in Hb; done.
Qed.

Lemma neighbors_loop_total g row col ds acc :
  grid_ok g → in_grid g (row, col) →
  ∃ ns, Game.neighbors_loop g row col ds acc = Game.Done ns.
Proof.
  intros Hok Hin. revert acc.
  induction ds as [|[[[dr dc] md] td] ds IH]; intros acc; simpl; [by eauto|].
  destruct (bool_decide (0 <= row + dr < Game.grid_size g) &&
            bool_decide (0 <= col + dc < Game.grid_size g)) eqn:Hb; [|done].
  apply andb_true_iff in Hb as [Hr%bool_decide_eq_true Hc%bool_decide_eq_true].
  destruct (cell_in_grid g row col Hok Hin) as [mine ->]. simpl.
  destruct (bool_decide (md ∈ Game.get_connections mine)); [|done].
  destruct (cell_in_grid g (row + dr) (col + dc) Hok) as [theirs ->]; [done|]. simpl.
  by destruct (bool_decide (td ∈ Game.get_connections theirs)).
Qed.

Lemma deltas_opposite dr dc md td :
  (dr, dc, md, td) ∈ Game.deltas → (- dr, - dc, td, md) ∈ Game.deltas.
Proof.
  unfold Game.deltas. rewrite !elem_of_cons.
  intros [[= -> -> -> ->]|[[= -> -> -> ->]|[[= -> -> -> ->]|[[= -> -> -> ->]|?%elem_of_nil]]]];
    [| | |  | done]; simpl; set_solver.
Qed.

Lemma get_neighbors_elem g row col ns nr nc md td :
  Game.get_neighbors g row col = Game.Done ns →
  (nr, nc, md, td) ∈ ns ↔
    in_grid g (nr, nc) ∧ (nr - row, nc - col, md, td) ∈ Game.deltas ∧
    ∃ mine theirs,
      Game.cell g row col = Game.Done mine ∧ md ∈ Game.get_connections mine ∧
      Game.cell g nr nc = Game.Done theirs ∧ td ∈ Game.get_connections theirs.
Proof.
  intros (new & -> & _ & Hnew)%neighbors_loop_spec. simpl. rewrite Hnew. split.
  - intros (dr & dc & md' & td' & mine & theirs & Hd & [= -> -> -> ->] & Hg & Hrest).
    split; [done|]. split; [|by exists mine, theirs].
    by replace (row + dr - row) with dr by lia; replace (col + dc - col) with dc by lia.
  - intros (Hg & Hd & mine & theirs & Hrest).
    exists (nr - row), (nc - col), md, td, mine, theirs. split; [done|].
    by replace (row + (nr - row)) with nr by lia; replace (col + (nc - col)) with nc by lia.
Qed.

(** X23. On a grid of [grid_size] rows of [grid_size] tiles,
    [get_neighbors] of a cell within the bounds returns, without an
    error, at most four entries: exactly the cells within the bounds one
    step north, east, south or west to which the tile of the cell has an
    arm and whose own tile has the opposite arm, each with the two
    directions. *)
Theorem get_neighbors_exact (g : Game.PipesGame) (row col : Z) :
  grid_ok g → in_grid g (row, col) →
  ∃ ns, Game.get_neighbors g row col = Game.Done ns ∧ (length ns <= 4)%nat ∧
    ∀ nr nc md td, (nr, nc, md, td) ∈ ns ↔
      in_grid g (nr, nc) ∧ (nr - row, nc - col, md, td) ∈ Game.deltas ∧
      ∃ mine theirs,
        Game.cell g row col = Game.Done mine ∧ md ∈ Game.get_connections mine ∧
        Game.cell g nr nc = Game.Done theirs ∧ td ∈ Game.get_connections theirs.
Proof.
  intros Hok Hin.
  destruct (neighbors_loop_total g row col Game.deltas [] Hok Hin) as [ns Hns].
  exists ns. split; [done|]. split.
  - apply neighbors_loop_spec in Hns as (new & -> & Hlen & _). simpl in *. lia.
  - intros nr nc md td. by apply get_neighbors_elem.
Qed.

(** X24. Being a neighbour is symmetric: when [get_neighbors] of a cell
    within the bounds lists a cell, [get_neighbors] of that cell lists
    the first one, with the two directions swapped. *)
Theorem get_neighbors_symmetric (g : Game.PipesGame) (row col nr nc : Z)
    (md td : nat) (ns ns' : list (Z * Z * nat * nat)) :
  in_grid g (row, col) →
  Game.get_neighbors g row col = Game.Done ns →
  Game.get_neighbors g nr nc = Game.Done ns' →
  (nr, nc, md, td) ∈ ns → (row, col, td, md) ∈ ns'.
Proof.
  intros Hin Hns Hns'.
  rewrite (get_neighbors_elem _ _ _ _ _ _ _ _ Hns), (get_neighbors_elem _ _ _ _ _ _ _ _ Hns').
  intros (Hg & Hd & mine & theirs & Hm & Hmd & Ht & Htd).
  split; [done|]. split; [|by exists theirs, mine].
  apply deltas_opposite in Hd.
  by replace (row - nr) with (- (nr - row)) by lia; replace (col - nc) with (- (nc - col)) by lia.
Qed.

(** ** The flood fill of the game *)

Lemma cells_elem g p : p ∈ Game.cells g ↔ in_grid g p.
Proof.
  unfold Game.cells, in_grid. destruct p as [r c]. simpl.
  rewrite list_elem_of_bind. split.
  - intros (r' & (c' & [= -> ->]%list_elem_of_singleton & Hc%elem_of_seqZ)%list_elem_of_bind
            & Hr%elem_of_seqZ). lia.
  - intros [Hr Hc]. exists r. split; [|apply elem_of_seqZ; lia].
    apply list_elem_of_bind. exists c. split; [by apply list_elem_of_singleton|].
    apply elem_of_seqZ. lia.
Qed.

Lemma push_unvisited_spec (V : gset pos) (ns : list (Z * Z * nat * nat)) (stack : list pos) :
  ∃ new, Game.push_unvisited V ns stack = new ++ stack ∧
    (length new <= length ns)%nat ∧
    ∀ q : pos, q ∈ new ↔ (q ∉ V) ∧ (∃ md td, (q.1, q.2, md, td) ∈ ns).
Proof.
  revert stack. induction ns as [|[[[nr nc] md] td] ns IH]; intros stack; simpl.
  - exists []. split; [done|]. split; [done|]. intros q. split; [by intros ?%elem_of_nil|].
    by intros (_ & ? & ? & ?%elem_of_nil).
  - destruct (bool_decide ((nr, nc) ∉ V)) eqn:Hv.
    + apply bool_decide_eq_true in Hv.
      destruct (IH ((nr, nc) :: stack)) as (new & -> & Hlen & Hnew).
      exists (new ++ [(nr, nc)]). split; [by rewrite <- app_assoc|].
      split; [rewrite length_app; simpl; lia|].
      intros q. rewrite elem_of_app, Hnew, list_elem_of_singleton. split.
      * intros [(Hq & md' & td' & Hin)| ->].
        -- split; [done|]. exists md', td'. by right.
        -- split; [done|]. exists md, td. by left.
      * intros (Hq & md' & td' & [[= Hr Hc -> ->]|Hin]%elem_of_cons).
        -- right. destruct q; simpl in *; by subst.
        -- left. split; [done|]. by exists md', td'.
    + apply bool_decide_eq_false in Hv. apply dec_stable in Hv.
      destruct (IH stack) as (new & -> & Hlen & Hnew).
      exists new. split; [done|]. split; [lia|].
      intros q. rewrite Hnew. split.
      * intros (Hq & md' & td' & Hin). split; [done|]. exists md', td'. by right.
      * intros (Hq & md' & td' & [[= Hr Hc -> ->]|Hin]%elem_of_cons).
        -- destruct q; simpl in *; by subst.
        -- split; [done|]. by exists md', td'.
Qed.

Lemma neighbors_linked g r c ns q :
  Game.get_neighbors g r c = Game.Done ns →
  (∃ md td, (q.1, q.2, md, td) ∈ ns) ↔ game_linked g (r, c) q.
Proof.
  intros Hns. unfold game_linked. simpl. split.
  - intros (md & td & Hin).
    apply (get_neighbors_elem _ _ _ _ _ _ _ _ Hns) in Hin as (Hg & Hd & mine & theirs & H).
    split; [by destruct q|]. by exists md, td, mine, theirs.
  - intros (Hg & md & td & mine & theirs & Hd & H). exists md, td.
    apply (get_neighbors_elem _ _ _ _ _ _ _ _ Hns).
    split; [by destruct q|]. split; [done|]. by exists mine, theirs.
Qed.

(** The fuel of the flood fill is enough. *)
Lemma flood_loop_total (fuel : nat) (g : Game.PipesGame) (U C V : gset pos) (F : list pos) :
  grid_ok g → (∀ q, q ∈ U ↔ in_grid g q) → V ⊆ U → (∀ q, q ∈ F → in_grid g q) →
  (4 * size (U ∖ V) + length F < fuel)%nat →
  ∃ R, Game.flood_loop fuel g C V F = Game.Done R.
Proof.
  intros Hok HU. revert C V F.
  induction fuel as [|fuel IH]; intros C V F HV HF Hfuel; simpl; [lia|].
  destruct F as [|[r c] F]; [by eauto|].
  destruct (bool_decide ((r, c) ∈ V)) eqn:Hv.
  - apply IH; [done| |simpl in Hfuel; lia].
    intros q Hq. apply HF. by right.
  - apply bool_decide_eq_false in Hv.
    assert (in_grid g (r, c)) as Hin by (apply HF; by left).
    destruct (cell_in_grid g r c Hok Hin) as [t ->]. simpl.
    destruct (neighbors_loop_total g r c Game.deltas [] Hok Hin) as [ns Hns].
    unfold Game.get_neighbors at 1. rewrite Hns. simpl.
    destruct (push_unvisited_spec ({[(r, c)]} ∪ V) ns F) as (new & -> & Hlen & Hnew).
    assert ((length ns <= 4)%nat) as Hns4.
    { apply neighbors_loop_spec in Hns as (new' & -> & Hlen' & _). simpl in *. lia. }
    assert (size (U ∖ V) = S (size (U ∖ ({[(r, c)]} ∪ V)))) as Hsize.
    { replace (U ∖ V) with ({[(r, c)]} ∪ U ∖ ({[(r, c)]} ∪ V)).
      - rewrite size_union by set_solver. by rewrite size_singleton.
      - apply set_eq. intros q. rewrite elem_of_union, !elem_of_difference, elem_of_union,
          elem_of_singleton.
        destruct (decide (q = (r, c))) as [->|]; [|naive_solver].
        split; [intros _; split; [by apply HU | done] | by left]. }
    apply IH.
    + apply union_subseteq. split; [|done]. apply singleton_subseteq_l. by apply HU.
    + intros q [Hq|Hq]%elem_of_app; [|apply HF; by right].
      apply Hnew in Hq as (_ & Hq). apply (neighbors_linked _ _ _ _ _ Hns) in Hq. by destruct Hq.
    + rewrite length_app. simpl in Hfuel. lia.
Qed.

(** The invariant of the flood fill: what is visited or waiting can be
    reached from the source, a linked neighbour of a visited cell is
    visited or waiting, and the connected tiles are the visited cells
    with a pipe. *)
Lemma flood_loop_reach (fuel : nat) (g : Game.PipesGame) (src : pos) (C V : gset pos) (F : list pos) R :
  Game.flood_loop fuel g C V F = Game.Done R →
  (∀ q, q ∈ V ∨ q ∈ F → rtc (game_linked g) src q) →
  (∀ v w, v ∈ V → game_linked g v w → w ∈ V ∨ w ∈ F) →
  (∀ q, q ∈ C ↔ q ∈ V ∧ has_pipe g q) →
  ∃ V' : gset pos,
    (∀ q, q ∈ R ↔ q ∈ V' ∧ has_pipe g q) ∧
    (∀ q, q ∈ V' → rtc (game_linked g) src q) ∧
    (∀ v w, v ∈ V' → game_linked g v w → w ∈ V') ∧
    (∀ q, q ∈ V ∨ q ∈ F → q ∈ V').
Proof.
  revert C V F. induction fuel as [|fuel IH]; intros C V F; simpl; [done|].
  destruct F as [|[r c] F].
  - intros [= <-] Hreach Hclosed HC. exists V. split; [done|]. split; [auto|]. split.
    + intros v w Hv Hl. destruct (Hclosed v w Hv Hl) as [?|?%elem_of_nil]; done.
    + by intros q [?|?%elem_of_nil].
  - destruct (bool_decide ((r, c) ∈ V)) eqn:Hv.
    + apply bool_decide_eq_true in Hv. intros H Hreach Hclosed HC.
      apply IH in H as (V' & H1 & H2 & H3 & H4); [| | |done].
      2:{ intros q [?|?]; apply Hreach; [by left | right; by right]. }
      * exists V'. split; [done|]. split; [done|]. split; [done|].
        intros q [Hq|[-> |Hq]%elem_of_cons]; auto.
      * intros v w Hv' Hl. destruct (Hclosed v w Hv' Hl) as [?|[-> |?]%elem_of_cons]; auto.
    + apply bool_decide_eq_false in Hv. intros H Hreach Hclosed HC.
      apply outcome_bind_Done in H as (t & Ht & H).
      apply outcome_bind_Done in H as (ns & Hns & H).
      destruct (push_unvisited_spec ({[(r, c)]} ∪ V) ns F) as (new & Hpush & _ & Hnew).
      rewrite Hpush in H.
      apply IH in H as (V' & H1 & H2 & H3 & H4).
      * exists V'. split; [done|]. split; [done|]. split; [done|].
        intros q [Hq|[-> |Hq]%elem_of_cons].
        -- apply H4. left. set_solver.
        -- apply H4. left. set_solver.
        -- apply H4. right. apply elem_of_app. by right.
      * intros q [[->%elem_of_singleton|Hq]%elem_of_union|[Hq|Hq]%elem_of_app].
        -- apply Hreach. right. left.
        -- apply Hreach. by left.
        -- apply Hnew in Hq as [_ Hq]. apply (neighbors_linked _ _ _ _ _ Hns) in Hq.
           eapply rtc_r; [apply Hreach; right; left | done].
        -- apply Hreach. right. by right.
      * intros v w [->%elem_of_singleton|Hv']%elem_of_union Hl.
        -- destruct (decide (w ∈ {[(r, c)]} ∪ V)) as [|Hw]; [by left|].
           right. apply elem_of_app. left. apply Hnew. split; [done|].
           by apply (neighbors_linked _ _ _ _ _ Hns).
        -- destruct (Hclosed v w Hv' Hl) as [?|[-> |?]%elem_of_cons].
           ++ left. set_solver.
           ++ left. set_solver.
           ++ right. apply elem_of_app. by right.
      * intros q. destruct (bool_decide (Game.get_connections t ≠ [])) eqn:Hpipe.
        -- apply bool_decide_eq_true in Hpipe.
           rewrite !elem_of_union, !elem_of_singleton, HC. split.
           ++ intros [-> |[? ?]]; [|by auto]. split; [by left|]. by exists t.
           ++ intros [[-> |?] ?]; auto.
        -- apply bool_decide_eq_false in Hpipe.
           rewrite !elem_of_union, !elem_of_singleton, HC. split.
           ++ intros [? ?]; auto.
           ++ intros [[-> |?] Hp]; [|done].
              destruct Hp as (t' & Ht' & Hne). simpl in Ht'.
              rewrite Ht in Ht'. injection Ht' as <-. done.
Qed.

(** X25. On a grid of [grid_size] rows of [grid_size] tiles with the
    water source within the bounds, [update_connected_tiles] ends without
    an error, and the connected tiles are exactly the cells with a pipe
    that can be reached from the water source over linked cells. *)
Theorem update_connected_tiles_reachable (g : Game.PipesGame) :
  grid_ok g → in_grid g (Game.water_source g) →
  ∃ R, Game.update_connected_tiles g = Game.Done R ∧
    ∀ p, p ∈ R ↔ rtc (game_linked g) (Game.water_source g) p ∧ has_pipe g p.
Proof.
  intros Hok Hsrc. unfold Game.update_connected_tiles.
  destruct (flood_loop_total (Game.flood_fuel g) g (list_to_set (Game.cells g)) ∅ ∅
              [Game.water_source g] Hok) as [R HR].
  - intros q. by rewrite elem_of_list_to_set, cells_elem.
  - set_solver.
  - by intros q ->%list_elem_of_singleton.
  - unfold Game.flood_fuel. rewrite difference_empty_L. simpl.
    pose proof (size_list_to_set_le (Game.cells g)). lia.
  - exists R. split; [done|].
    destruct (flood_loop_reach _ _ (Game.water_source g) _ _ _ _ HR)
      as (V' & H1 & H2 & H3 & H4).
    + intros q [?| ->%list_elem_of_singleton]; [set_solver | done].
    + intros v w Hv. set_solver.
    + intros q. set_solver.
    + intros p. rewrite H1. split; [intros [? ?]; auto|]. intros [Hreach Hp].
      split; [|done].
      assert (Game.water_source g ∈ V') as Hin by (apply H4; right; by left).
      revert p Hreach Hp. apply (rtc_ind_r (λ p, has_pipe g p → p ∈ V')); [done|].
      intros v w _ Hl Hv Hw. eapply H3; [|done]. apply Hv.
      destruct Hl as (_ & md & td & mine & theirs & _ & Hm & Hmd & _).
      exists mine. split; [done|]. intros Hnil. rewrite Hnil in Hmd. by apply elem_of_nil in Hmd.
Qed.

(** ** The union-find forest *)

Lemma getitem_Done {V} (d : list (pos * V)) k v :
  Game.getitem d k = Game.Done v ↔ dict_get d k = Some v.
Proof. unfold Game.getitem. destruct (dict_get d k); naive_solver. Qed.

Lemma dict_set_is_key {V} (d : list (pos * V)) k v k' :
  k' ∈ d.*1 → k' ∈ (dict_set d k v).*1.
Proof.
  induction d as [|[k0 v0] d IH]; simpl; [by intros ?%elem_of_nil|].
  case_decide; subst; simpl; rewrite !elem_of_cons; naive_solver.
Qed.

Lemma rep_fun parent x r1 r2 : rep parent x r1 → rep parent x r2 → r1 = r2.
Proof.
  intros H1. revert r2. induction H1 as [x Hx|x y r Hx Hne _ IH]; intros r2 H2.
  - inversion H2; subst; congruence.
  - inversion H2; subst; [congruence|]. apply IH. congruence.
Qed.

Lemma rep_root_key parent x r : rep parent x r → dict_get parent r = Some r.
Proof. induction 1; done. Qed.

Lemma rep_key parent x r : rep parent x r → x ∈ parent.*1.
Proof. intros H. apply dict_get_is_Some. destruct H; eauto. Qed.

Lemma rep_rank parent rank x r :
  uf_inv parent rank → rep parent x r →
  rk rank x <= rk rank r ∧ (x ≠ r → rk rank x < rk rank r).
Proof.
  intros Hinv. induction 1 as [x Hx|x y r Hx Hne _ [IH _]].
  - split; [lia | done].
  - pose proof (uf_rank_lt _ _ Hinv _ _ Hx Hne). lia.
Qed.

(** Path compression keeps every root. *)
Lemma rep_compress parent x r z r' :
  rep parent x r → rep parent z r' → rep (dict_set parent x r) z r'.
Proof.
  intros Hx. induction 1 as [z Hz|z y r' Hz Hne Hy IH].
  - destruct (decide (z = x)) as [->|Hzx].
    + assert (r = x) as -> by (eapply rep_fun; [done | by constructor]).
      constructor. by rewrite dict_get_set_eq.
    + constructor. by rewrite dict_get_set_ne.
  - destruct (decide (z = x)) as [->|Hzx].
    + assert (r' = r) as -> by (eapply rep_fun; [|done]; by econstructor).
      destruct (decide (r = x)) as [->|Hrx].
      * constructor. by rewrite dict_get_set_eq.
      * apply rep_step with r; [by rewrite dict_get_set_eq | done |].
        constructor. rewrite dict_get_set_ne by done. by eapply rep_root_key.
    + apply rep_step with y; [by rewrite dict_get_set_ne | done | done].
Qed.

(** Hanging the root [a] under the root [b] moves the class of [a] to
    [b] and leaves the other roots. *)
Lemma rep_link parent a b z c :
  dict_get parent a = Some a → dict_get parent b = Some b → a ≠ b →
  rep parent z c → rep (dict_set parent a b) z (if decide (c = a) then b else c).
Proof.
  intros Ha Hb Hab. induction 1 as [z Hz|z y c Hz Hne Hy IH].
  - destruct (decide (z = a)) as [->|Hza].
    + apply rep_step with b; [by rewrite dict_get_set_eq | done |].
      constructor. by rewrite dict_get_set_ne.
    + constructor. by rewrite dict_get_set_ne.
  - assert (z ≠ a) by congruence.
    apply rep_step with y; [by rewrite dict_get_set_ne | done | done].
Qed.

Lemma higher_lt parent rank x y :
  uf_inv parent rank → dict_get parent x = Some y → y ≠ x →
  (size (higher parent rank y) < size (higher parent rank x))%nat.
Proof.
  intros Hinv Hx Hne. pose proof (uf_rank_lt _ _ Hinv _ _ Hx Hne) as Hlt.
  apply subset_size. unfold higher. split.
  - intros k. rewrite !elem_of_filter. intros [? ?]. split; [lia | done].
  - intros Hsub. specialize (Hsub y). rewrite !elem_of_filter, elem_of_list_to_set in Hsub.
    destruct Hsub as [? _]; [|lia]. split; [done|]. by eapply uf_closed.
Qed.

Lemma higher_fuel parent rank x :
  (size (higher parent rank x) < Game.find_fuel parent)%nat.
Proof.
  unfold Game.find_fuel, higher.
  pose proof (size_list_to_set_le parent.*1) as Hle. rewrite length_fmap in Hle.
  pose proof (subseteq_size
    (filter (λ k, rk rank x < rk rank k) (list_to_set parent.*1 : gset pos))
    (list_to_set parent.*1)) as Hsub.
  assert (filter (λ k, rk rank x < rk rank k) (list_to_set parent.*1 : gset pos)
          ⊆ list_to_set parent.*1) as H by (intros k [_ ?]%elem_of_filter; done).
  specialize (Hsub H). lia.
Qed.

Lemma find_run fuel parent rank x :
  uf_inv parent rank → x ∈ parent.*1 →
  (size (higher parent rank x) < fuel)%nat →
  ∃ parent' r,
    Game.find fuel parent x = Game.Done (parent', r) ∧
    rep parent x r ∧ uf_inv parent' rank ∧ parent'.*1 = parent.*1 ∧
    dict_get parent' x = Some r ∧
    ∀ z r', rep parent z r' → rep parent' z r'.
Proof.
  intros Hinv. revert x. induction fuel as [|fuel IH]; intros x Hx Hfuel; [lia|].
  apply dict_get_is_Some in Hx as [px Hpx]. simpl.
  rewrite (proj2 (getitem_Done parent x px) Hpx). simpl.
  destruct (bool_decide (px ≠ x)) eqn:Hne.
  - apply bool_decide_eq_true in Hne. simpl.
    pose proof (higher_lt _ _ _ _ Hinv Hpx Hne) as Hlt.
    destruct (IH px) as (parent1 & root & -> & Hrep & Hinv1 & Hkeys & _ & Hkeep);
      [by eapply uf_closed | lia |].
    simpl. unfold Game.getitem. rewrite dict_get_set_eq. simpl.
    assert (rep parent x root) as Hx by (by apply rep_step with px).
    assert (x ∈ parent1.*1) as Hk1.
    { rewrite Hkeys. apply dict_get_is_Some. by eexists. }
    exists (dict_set parent1 x root), root. split; [done|]. split; [done|].
    split; [|split; [|split; [by rewrite dict_get_set_eq|]]].
    + split.
      * intros a b. destruct (decide (a = x)) as [->|Hax].
        -- rewrite dict_get_set_eq. intros [= <-]. apply dict_set_is_key.
           apply dict_get_is_Some. exists root. eapply rep_root_key. by apply Hkeep.
        -- rewrite dict_get_set_ne by done. intros Hab. apply dict_set_is_key.
           by eapply uf_closed.
      * intros a. rewrite dict_set_keys by (by apply dict_get_is_Some).
        by apply uf_ranked.
      * intros a b. destruct (decide (a = x)) as [->|Hax].
        -- rewrite dict_get_set_eq. intros [= <-] Hrx.
           by apply (rep_rank parent rank x root Hinv Hx).
        -- rewrite dict_get_set_ne by done. by apply uf_rank_lt.
    + rewrite dict_set_keys by (by apply dict_get_is_Some). done.
    + intros z r' Hz. apply rep_compress; by apply Hkeep.
  - apply bool_decide_eq_false in Hne. apply dec_stable in Hne. subst px. simpl.
    rewrite (proj2 (getitem_Done parent x x) Hpx). simpl.
    exists parent, x. split; [done|]. split; [by constructor|]. done.
Qed.

Lemma find_ok parent rank x :
  uf_inv parent rank → x ∈ parent.*1 →
  ∃ parent' r,
    Game.find (Game.find_fuel parent) parent x = Game.Done (parent', r) ∧
    rep parent x r ∧ uf_inv parent' rank ∧ parent'.*1 = parent.*1 ∧
    dict_get parent' x = Some r ∧
    ∀ z r', rep parent' z r' ↔ rep parent z r'.
Proof.
  intros Hinv Hx.
  destruct (find_run (Game.find_fuel parent) parent rank x Hinv Hx (higher_fuel _ _ _))
    as (parent' & r & Hfind & Hrep & Hinv' & Hkeys & Hget & Hkeep).
  exists parent', r. split; [done|]. split; [done|]. split; [done|]. split; [done|].
  split; [done|]. intros z r'. split; [|by apply Hkeep]. intros Hz.
  assert (z ∈ parent.*1) as Hzk by (rewrite <- Hkeys; by eapply rep_key).
  destruct (find_run (Game.find_fuel parent) parent rank z Hinv Hzk (higher_fuel _ _ _))
    as (_ & r0 & _ & Hr0 & _).
  by rewrite (rep_fun _ _ _ _ Hz (Hkeep _ _ Hr0)).
Qed.

Lemma rep_total parent rank x :
  uf_inv parent rank → x ∈ parent.*1 → ∃ r, rep parent x r.
Proof.
  intros Hinv Hx. destruct (find_ok parent rank x Hinv Hx) as (_ & r & _ & ? & _).
  by exists r.
Qed.

Lemma same_class_sym parent x y : same_class parent x y → same_class parent y x.
Proof. intros (r & ? & ?). by exists r. Qed.

Lemma same_class_trans parent x y z :
  same_class parent x y → same_class parent y z → same_class parent x z.
Proof.
  intros (r & Hx & Hy) (r' & Hy' & Hz). rewrite (rep_fun _ _ _ _ Hy Hy') in Hx.
  by exists r'.
Qed.

Lemma same_class_rep parent x y r :
  rep parent x r → same_class parent x y ↔ rep parent y r.
Proof.
  intros Hx. split.
  - intros (r' & Hx' & Hy). by rewrite (rep_fun _ _ _ _ Hx Hx').
  - intros Hy. by exists r.
Qed.

Lemma uf_link parent rank rank' a b :
  uf_inv parent rank →
  dict_get parent a = Some a → dict_get parent b = Some b → a ≠ b →
  (∀ k, k ∈ rank.*1 → k ∈ rank'.*1) →
  (∀ k, k ≠ b → rk rank' k = rk rank k) →
  rk rank b <= rk rank' b → rk rank a < rk rank' b →
  uf_inv (dict_set parent a b) rank'.
Proof.
  intros Hinv Ha Hb Hab Hkeys Hsame Hb' Hlt.
  assert ((dict_set parent a b).*1 = parent.*1) as Hk by (by apply dict_set_keys).
  split.
  - intros u v. rewrite Hk. destruct (decide (u = a)) as [->|Hua].
    + rewrite dict_get_set_eq. intros [= <-]. apply dict_get_is_Some. by eexists.
    + rewrite dict_get_set_ne by done. by apply (uf_closed parent rank Hinv).
  - intros u. rewrite Hk. intros Hu. apply Hkeys. by apply (uf_ranked parent rank Hinv).
  - intros u v. destruct (decide (u = a)) as [->|Hua].
    + rewrite dict_get_set_eq. intros [= <-] _. rewrite (Hsame a) by done. done.
    + rewrite dict_get_set_ne by done. intros Hu Hvu.
      assert (u ≠ b) by congruence.
      pose proof (uf_rank_lt _ _ Hinv _ _ Hu Hvu) as Hr.
      rewrite (Hsame u) by done.
      destruct (decide (v = b)) as [->|Hvb]; [lia|]. by rewrite (Hsame v).
Qed.

Lemma link_classes parent rank a b z w :
  uf_inv parent rank →
  dict_get parent a = Some a → dict_get parent b = Some b → a ≠ b →
  same_class (dict_set parent a b) z w ↔
    same_class parent z w ∨ (rep parent z a ∧ rep parent w b) ∨
    (rep parent z b ∧ rep parent w a).
Proof.
  intros Hinv Ha Hb Hab.
  assert ((dict_set parent a b).*1 = parent.*1) as Hk by (by apply dict_set_keys).
  split.
  - intros (r & Hz & Hw).
    destruct (rep_total parent rank z Hinv) as [cz Hcz];
      [rewrite <- Hk; by eapply rep_key|].
    destruct (rep_total parent rank w Hinv) as [cw Hcw];
      [rewrite <- Hk; by eapply rep_key|].
    pose proof (rep_link parent a b z cz Ha Hb Hab Hcz) as Hz'.
    pose proof (rep_link parent a b w cw Ha Hb Hab Hcw) as Hw'.
    pose proof (rep_fun _ _ _ _ Hz Hz') as E1.
    pose proof (rep_fun _ _ _ _ Hw Hw') as E2.
    destruct (decide (cz = a)) as [->|Hza], (decide (cw = a)) as [->|Hwa].
    + left. by exists a.
    + right. left. split; [done|]. congruence.
    + right. right. split; [|done]. congruence.
    + left. exists cz. split; [done|]. congruence.
  - intros [(r & Hz & Hw)|[[Hz Hw]|[Hz Hw]]].
    + exists (if decide (r = a) then b else r). split; by apply rep_link.
    + exists b. split.
      * pose proof (rep_link parent a b z a Ha Hb Hab Hz) as H.
        by rewrite decide_True in H.
      * pose proof (rep_link parent a b w b Ha Hb Hab Hw) as H.
        by rewrite decide_False in H.
    + exists b. split.
      * pose proof (rep_link parent a b z b Ha Hb Hab Hz) as H.
        by rewrite decide_False in H.
      * pose proof (rep_link parent a b w a Ha Hb Hab Hw) as H.
        by rewrite decide_True in H.
Qed.

Lemma rk_set_eq rank k v : rk (dict_set rank k v) k = v.
Proof. unfold rk. by rewrite dict_get_set_eq. Qed.

Lemma rk_set_ne rank k k' v : k' ≠ k → rk (dict_set rank k v) k' = rk rank k'.
Proof. intros. unfold rk. by rewrite dict_get_set_ne. Qed.

Lemma union_ok parent rank x y :
  uf_inv parent rank → x ∈ parent.*1 → y ∈ parent.*1 →
  ∃ parent' rank' merged,
    Game.union parent rank x y = Game.Done (parent', rank', merged) ∧
    uf_inv parent' rank' ∧ parent'.*1 = parent.*1 ∧
    (merged = false ↔ same_class parent x y) ∧
    ∀ z w, same_class parent' z w ↔
      same_class parent z w ∨
      (merged = true ∧
       ((same_class parent z x ∧ same_class parent y w) ∨
        (same_class parent z y ∧ same_class parent x w))).
Proof.
  intros Hinv Hx Hy. unfold Game.union.
  destruct (find_ok parent rank x Hinv Hx)
    as (p1 & px & -> & Hpx & Hinv1 & Hk1 & _ & Hrep1).
  cbn [mbind Game.outcome_bind].
  destruct (find_ok p1 rank y Hinv1) as (p2 & py & -> & Hpy & Hinv2 & Hk2 & _ & Hrep2);
    [by rewrite Hk1|].
  cbn [mbind Game.outcome_bind].
  assert (∀ z r, rep p2 z r ↔ rep parent z r) as Hrep.
  { intros z r. by rewrite Hrep2, Hrep1. }
  assert (∀ z w, same_class p2 z w ↔ same_class parent z w) as Hsame.
  { intros z w. unfold same_class. by setoid_rewrite Hrep. }
  apply Hrep1 in Hpy.
  assert (dict_get p2 px = Some px) as Hrx.
  { eapply rep_root_key. apply Hrep. done. }
  assert (dict_get p2 py = Some py) as Hry.
  { eapply rep_root_key. apply Hrep. done. }
  assert (∀ z w,
    (rep parent z py ∧ rep parent w px) ∨ (rep parent z px ∧ rep parent w py) ↔
    (same_class parent z x ∧ same_class parent y w) ∨
    (same_class parent z y ∧ same_class parent x w)) as Hcases.
  { intros z w.
    rewrite <- (same_class_rep parent x w px Hpx), <- (same_class_rep parent y w py Hpy).
    assert (∀ u r, rep parent u r → ∀ v, same_class parent v u ↔ rep parent v r) as Hs.
    { intros u r Hu v. split.
      - intros H%same_class_sym. by apply (same_class_rep parent u v r Hu).
      - intros H. apply same_class_sym. by apply (same_class_rep parent u v r Hu). }
    rewrite (Hs x px Hpx z), (Hs y py Hpy z). tauto. }
  destruct (bool_decide (px = py)) eqn:Heq.
  - apply bool_decide_eq_true in Heq. subst py. simpl.
    exists p2, rank, false. split; [done|]. split; [done|]. split; [congruence|].
    split; [split; [intros _; by exists px | done]|].
    intros z w. rewrite Hsame. split; [by left | intros [?|[? _]]; done].
  - apply bool_decide_eq_false in Heq.
    assert (∃ rx, dict_get rank px = Some rx ∧ rk rank px = rx) as (rx & Hgx & Hkx).
    { destruct (proj2 (dict_get_is_Some rank px)) as [rx Hg].
      - apply (uf_ranked p2 rank Hinv2). apply dict_get_is_Some. by eexists.
      - exists rx. unfold rk. by rewrite Hg. }
    assert (∃ ry, dict_get rank py = Some ry ∧ rk rank py = ry) as (ry & Hgy & Hky).
    { destruct (proj2 (dict_get_is_Some rank py)) as [ry Hg].
      - apply (uf_ranked p2 rank Hinv2). apply dict_get_is_Some. by eexists.
      - exists ry. unfold rk. by rewrite Hg. }
    rewrite !(proj2 (getitem_Done rank px rx) Hgx). simpl.
    rewrite !(proj2 (getitem_Done rank py ry) Hgy). simpl.
    assert (¬ same_class parent x y) as Hnot.
    { intros H. apply (same_class_rep parent x y px Hpx) in H.
      apply Heq. by eapply rep_fun. }
    assert (∀ (p' : list (pos * pos)) rank',
      uf_inv p' rank' → p'.*1 = p2.*1 →
      (∀ z w, same_class p' z w ↔
         same_class p2 z w ∨ (rep p2 z py ∧ rep p2 w px) ∨ (rep p2 z px ∧ rep p2 w py)) →
      ∃ parent' rank'0 merged,
        Game.Done (p', rank', true) = Game.Done (parent', rank'0, merged) ∧
        uf_inv parent' rank'0 ∧ parent'.*1 = parent.*1 ∧
        (merged = false ↔ same_class parent x y) ∧
        ∀ z w, same_class parent' z w ↔
          same_class parent z w ∨
          (merged = true ∧
           ((same_class parent z x ∧ same_class parent y w) ∨
            (same_class parent z y ∧ same_class parent x w)))) as Hfinish.
    { intros p' rank' Hinv' Hk' Hcl. exists p', rank', true.
      split; [done|]. split; [done|]. split; [congruence|]. split; [done|].
      intros z w. rewrite Hcl, Hsame, !Hrep, Hcases. tauto. }
    destruct (bool_decide (rx > ry)) eqn:Hgt; [|destruct (bool_decide (rx < ry)) eqn:Hl].
    + apply bool_decide_eq_true in Hgt. simpl. apply Hfinish.
      * apply (uf_link p2 rank rank py px); try done; try congruence; lia.
      * by apply dict_set_keys.
      * intros z w. by rewrite (link_classes p2 rank py px z w) by (done || congruence).
    + apply bool_decide_eq_true in Hl. simpl. apply Hfinish.
      * apply (uf_link p2 rank rank px py); try done; try congruence; lia.
      * by apply dict_set_keys.
      * intros z w. rewrite (link_classes p2 rank px py z w) by done. tauto.
    + apply bool_decide_eq_false in Hgt, Hl. simpl. apply Hfinish.
      * apply (uf_link p2 rank (dict_set rank px (rx + 1)) py px); try done.
        all: try (intros k; apply dict_set_is_key).
        all: try (intros k Hk; by apply rk_set_ne).
        all: try (rewrite rk_set_eq; lia).
        all: try congruence.
      * by apply dict_set_keys.
      * intros z w. by rewrite (link_classes p2 rank py px z w) by (done || congruence).
Qed.

(** ** The win check *)

Lemma dict_set_fresh {V} (d : list (pos * V)) k v :
  k ∉ d.*1 → dict_set d k v = d ++ [(k, v)].
Proof.
  induction d as [|[k0 v0] d IH]; simpl; [done|].
  rewrite not_elem_of_cons. intros [Hne Hk]. rewrite decide_False by done.
  by rewrite IH.
Qed.

Lemma has_pipeb_true g p : has_pipeb g p = true ↔ has_pipe g p.
Proof.
  unfold has_pipeb, has_pipe. destruct (Game.cell g p.1 p.2) as [t| |].
  - rewrite bool_decide_eq_true. split; [by exists t | by intros (? & [= <-] & ?)].
  - split; [done | by intros (? & ? & _)].
  - split; [done | by intros (? & ? & _)].
Qed.

Lemma pipe_cells_elem g p : p ∈ pipe_cells g ↔ in_grid g p ∧ has_pipe g p.
Proof.
  unfold pipe_cells. rewrite list_elem_of_filter, cells_elem, <- has_pipeb_true.
  rewrite Is_true_true. tauto.
Qed.

Lemma cells_NoDup g : NoDup (Game.cells g).
Proof.
  unfold Game.cells. apply NoDup_bind.
  - intros r1 r2 p _ _ (c1 & ->%list_elem_of_singleton & _)%list_elem_of_bind
      (c2 & [= -> _]%list_elem_of_singleton & _)%list_elem_of_bind. done.
  - intros r _. apply NoDup_bind.
    + intros c1 c2 p _ _ ->%list_elem_of_singleton [= ->]%list_elem_of_singleton. done.
    + intros c _. apply NoDup_singleton.
    + apply NoDup_seqZ.
  - apply NoDup_seqZ.
Qed.

Lemma pipe_cells_NoDup g : NoDup (pipe_cells g).
Proof. apply NoDup_filter, cells_NoDup. Qed.

Lemma init_cells_run g cs parent rank n :
  grid_ok g → (∀ p, p ∈ cs → in_grid g p) → NoDup cs →
  (∀ p, p ∈ cs → (p ∉ parent.*1) ∧ (p ∉ rank.*1)) →
  Game.init_cells g cs parent rank n =
  Game.Done (parent ++ ((λ p, (p, p)) <$> filter (λ p, has_pipeb g p) cs),
             rank ++ ((λ p, (p, 0)) <$> filter (λ p, has_pipeb g p) cs),
             n + len (filter (λ p, has_pipeb g p) cs)).
Proof.
  intros Hok. revert parent rank n.
  induction cs as [|[r c] cs IH]; intros parent rank n Hin Hnd Hfresh; simpl.
  - rewrite !app_nil_r. unfold len. simpl. by rewrite Z.add_0_r.
  - apply NoDup_cons in Hnd as [Hrc Hnd].
    destruct (cell_in_grid g r c Hok) as [t Ht]; [apply Hin; by left|].
    rewrite Ht. simpl. rewrite filter_cons.
    assert (has_pipeb g (r, c) = bool_decide (Game.get_connections t ≠ [])) as Hb.
    { unfold has_pipeb. simpl. by rewrite Ht. }
    destruct (Hfresh (r, c)) as [Hp Hr]; [by left|].
    destruct (bool_decide (Game.get_connections t ≠ [])) eqn:Hpipe.
    + rewrite decide_True by (by rewrite Hb).
      rewrite !dict_set_fresh by done. rewrite IH; [| |done|].
      * simpl. rewrite <- !app_assoc. simpl. unfold len. simpl length.
        do 2 f_equal. lia.
      * intros p Hp'. apply Hin. by right.
      * intros p Hp'. rewrite !fmap_app, !elem_of_app. simpl.
        rewrite !list_elem_of_singleton.
        destruct (Hfresh p) as [? ?]; [by right|].
        assert (p ≠ (r, c)) by (intros ->; by apply Hrc). naive_solver.
    + rewrite decide_False by (rewrite Hb; simpl; tauto).
      apply IH; [|done|].
      * intros p Hp'. apply Hin. by right.
      * intros p Hp'. apply Hfresh. by right.
Qed.

Lemma dict_get_diag {V} (f : pos → V) (K : list pos) p :
  dict_get ((λ p, (p, f p)) <$> K) p = if decide (p ∈ K) then Some (f p) else None.
Proof.
  induction K as [|k K IH].
  - destruct (decide (p ∈ [])) as [?%elem_of_nil|]; done.
  - rewrite fmap_cons. cbn [dict_get]. destruct (decide (k = p)) as [->|Hne].
    + rewrite decide_True; [done | by left].
    + rewrite IH. destruct (decide (p ∈ K)).
      * rewrite decide_True; [done | by right].
      * rewrite decide_False; [done|]. rewrite not_elem_of_cons. split; [congruence | done].
Qed.

Lemma diag_keys {V} (f : pos → V) (K : list pos) : ((λ p, (p, f p)) <$> K).*1 = K.
Proof. rewrite <- list_fmap_compose. simpl. apply list_fmap_id. Qed.

Lemma loop_inv_init K :
  loop_inv K ((λ p, (p, p)) <$> K) ((λ p, (p, 0)) <$> K) (λ _ _, False).
Proof.
  split; [split| | |]; try done.
  - intros x y. rewrite dict_get_diag, diag_keys. case_decide; [|done]. by intros [= <-].
  - intros x. by rewrite !diag_keys.
  - intros x y. rewrite dict_get_diag. case_decide; [|done]. by intros [= <-].
  - apply diag_keys.
Qed.

Lemma loop_inv_ext K parent rank (P Q : pos → pos → Prop) :
  (∀ a b, P a b ↔ Q a b) → loop_inv K parent rank P → loop_inv K parent rank Q.
Proof.
  intros HPQ [H1 H2 H3 H4]. split; [done | done | |].
  - intros a b ?%HPQ. auto.
  - intros a b ?%HPQ ?%HPQ. by eapply H4.
Qed.

Lemma same_class_refl parent rank x :
  uf_inv parent rank → x ∈ parent.*1 → same_class parent x x.
Proof. intros Hinv Hx. destruct (rep_total parent rank x Hinv Hx) as [r ?]. by exists r. Qed.

Lemma union_neighbors_run K ns r c parent rank edges (P : pos → pos → Prop) :
  loop_inv K parent rank P → (r, c) ∈ K →
  (∀ nr nc md td, (nr, nc, md, td) ∈ ns → (nr, nc) ∈ K ∧ (nr, nc) ≠ (r, c)) →
  ∃ next, Game.union_neighbors ns r c parent rank edges = Game.Done next ∧
    match next with
    | Game.Return b => b = false
    | Game.Next (parent', rank', _) =>
        loop_inv K parent' rank'
          (λ a b, P a b ∨ (a = (r, c) ∧ ∃ md td, (b.1, b.2, md, td) ∈ ns))
    end.
Proof.
  revert parent rank edges P.
  induction ns as [|[[[nr nc] md] td] ns IH]; intros parent rank edges P Hinv Hrc Hns; simpl.
  - eexists. split; [done|]. simpl. eapply loop_inv_ext; [|done].
    intros a b. split; [by left|]. by intros [?|(_ & ? & ? & ?%elem_of_nil)].
  - destruct (Hns nr nc md td) as [HqK Hqne]; [by left|].
    pose proof (li_keys _ _ _ _ Hinv) as Hkeys.
    rewrite (proj2 (dict_mem_true parent (nr, nc))) by (by rewrite Hkeys).
    destruct (union_ok parent rank (r, c) (nr, nc) (li_uf _ _ _ _ Hinv))
      as (parent' & rank' & merged & -> & Hinv' & Hk' & Hmerged & Hclasses);
      [by rewrite Hkeys..|].
    cbn [mbind Game.outcome_bind]. destruct merged; simpl.
    + set (P1 := λ a b : pos, P a b ∨ (a = (r, c) ∧ b = (nr, nc))).
      assert (¬ same_class parent (r, c) (nr, nc)) as Hnot.
      { intros H%Hmerged. done. }
      assert (loop_inv K parent' rank' P1) as Hinv1.
      { split; [done | congruence | |].
        - intros a b [Hab|[-> ->]]; apply Hclasses.
          + left. by eapply li_same.
          + right. split; [done|]. left.
            split; eapply same_class_refl; try apply (li_uf _ _ _ _ Hinv);
              by rewrite Hkeys.
        - intros a b [Hab|[-> ->]] [Hba|[Ha Hb]].
          + by eapply (li_once _ _ _ _ Hinv).
          + subst. apply Hnot, same_class_sym. by eapply li_same.
          + apply Hnot, same_class_sym. by eapply li_same.
          + congruence. }
      destruct (IH parent' rank'
        (if bool_decide (r < nr ∨ r = nr ∧ c < nc) then edges + 1 else edges) P1 Hinv1 Hrc)
        as (next & Hnext & Hres).
      { intros nr' nc' md' td' Hin. eapply Hns. by right. }
      exists next. split; [done|]. destruct next as [[[p'' r''] e'']|b]; [|done].
      eapply loop_inv_ext; [|done]. intros a b. unfold P1. split.
      * intros [[?|[-> ->]]|(-> & md' & td' & Hin)]; [by left| |].
        -- right. split; [done|]. exists md, td. by left.
        -- right. split; [done|]. exists md', td'. by right.
      * intros [?|(-> & md' & td' & [[= Hb1 Hb2 _ _]|Hin]%elem_of_cons)].
        -- left. by left.
        -- left. right. split; [done|]. destruct b; simpl in *; by subst.
        -- right. split; [done|]. by exists md', td'.
    + by exists (Game.Return false).
Qed.

Lemma game_linked_sym g p q : in_grid g p → game_linked g p q → game_linked g q p.
Proof.
  intros Hp (Hq & md & td & mine & theirs & Hd & Hm & Hmd & Ht & Htd).
  split; [done|]. exists td, md, theirs, mine. split; [|done].
  apply deltas_opposite in Hd.
  by replace (p.1 - q.1) with (- (q.1 - p.1)) by lia;
     replace (p.2 - q.2) with (- (q.2 - p.2)) by lia.
Qed.

Lemma game_linked_ne g p q : game_linked g p q → q ≠ p.
Proof.
  intros (_ & md & td & _ & _ & Hd & _) ->. rewrite !Z.sub_diag in Hd.
  unfold Game.deltas in Hd. rewrite !elem_of_cons in Hd.
  destruct Hd as [[=]|[[=]|[[=]|[[=]|?%elem_of_nil]]]]; done.
Qed.

Lemma game_linked_pipe g p q :
  game_linked g p q → has_pipe g p ∧ in_grid g q ∧ has_pipe g q.
Proof.
  intros (Hq & md & td & mine & theirs & _ & Hm & Hmd & Ht & Htd).
  split; [|split; [done|]].
  - exists mine. split; [done|]. intros E. rewrite E in Hmd. by apply elem_of_nil in Hmd.
  - exists theirs. split; [done|]. intros E. rewrite E in Htd. by apply elem_of_nil in Htd.
Qed.

Lemma union_cells_run g cs parent rank edges (P : pos → pos → Prop) :
  grid_ok g → loop_inv (pipe_cells g) parent rank P → (∀ p, p ∈ cs → in_grid g p) →
  ∃ next, Game.union_cells g cs parent rank edges = Game.Done next ∧
    match next with
    | Game.Return b => b = false
    | Game.Next (parent', rank', _) =>
        loop_inv (pipe_cells g) parent' rank' (λ a b, P a b ∨ (a ∈ cs ∧ game_linked g a b))
    end.
Proof.
  intros Hok. revert parent rank edges P.
  induction cs as [|[r c] cs IH]; intros parent rank edges P Hinv Hcs;
    cbn [Game.union_cells].
  - eexists. split; [done|]. simpl. eapply loop_inv_ext; [|done].
    intros a b. split; [by left|]. by intros [?|[?%elem_of_nil _]].
  - assert (in_grid g (r, c)) as Hrc by (apply Hcs; by left).
    assert (∀ p, p ∈ cs → in_grid g p) as Hcs' by (intros p ?; apply Hcs; by right).
    pose proof (li_keys _ _ _ _ Hinv) as Hkeys.
    match goal with |- context [dict_mem ?a ?b] => destruct (dict_mem a b) eqn:Hmem end.
    + apply dict_mem_true in Hmem. rewrite Hkeys in Hmem.
      destruct (neighbors_loop_total g r c Game.deltas [] Hok Hrc) as [ns Hns].
      unfold Game.get_neighbors at 1. rewrite Hns. cbn [mbind Game.outcome_bind].
      destruct (union_neighbors_run (pipe_cells g) ns r c parent rank edges P Hinv Hmem)
        as (next & -> & Hres).
      { intros nr nc md td Hin.
        assert (game_linked g (r, c) (nr, nc)) as Hl.
        { apply (neighbors_linked g r c ns (nr, nc) Hns). by exists md, td. }
        split; [|by eapply game_linked_ne].
        apply pipe_cells_elem. by apply game_linked_pipe in Hl as (_ & ? & ?). }
      cbn [mbind Game.outcome_bind].
      destruct next as [[[p' r'] e']|b]; [|by exists (Game.Return b)].
      destruct (IH p' r' e' _ Hres Hcs') as (next & -> & Hfinal).
      exists next. split; [done|]. destruct next as [[[p'' r''] e'']|b]; [|done].
      eapply loop_inv_ext; [|done]. intros a b. split.
      * intros [[?|(-> & Hin)]|[Ha Hl]]; [by left| |].
        -- right. split; [by left|]. by apply (neighbors_linked g r c ns b Hns).
        -- right. split; [by right | done].
      * intros [?|[[-> |Ha]%elem_of_cons Hl]].
        -- left. by left.
        -- left. right. split; [done|]. by apply (neighbors_linked g r c ns b Hns).
        -- right. done.
    + assert ((r, c) ∉ pipe_cells g) as Hno.
      { intros Hin. rewrite <- Hkeys in Hin. apply dict_mem_true in Hin.
        unfold pos in *. congruence. }
      destruct (IH parent rank edges P Hinv Hcs') as (next & -> & Hfinal).
      exists next. split; [done|]. destruct next as [[[p'' r''] e'']|b]; [|done].
      eapply loop_inv_ext; [|done]. intros a b. split.
      * intros [?|[Ha Hl]]; [by left|]. right. split; [by right | done].
      * intros [?|[[-> |Ha]%elem_of_cons Hl]]; [by left| |by right].
        destruct Hno. apply pipe_cells_elem. split; [done|].
        by apply game_linked_pipe in Hl as (? & _).
Qed.

Lemma union_cells_idle g cs parent rank edges :
  grid_ok g → (∀ p, p ∈ cs → in_grid g p) →
  (∀ p q, in_grid g p → ¬ game_linked g p q) →
  Game.union_cells g cs parent rank edges = Game.Done (Game.Next (parent, rank, edges)).
Proof.
  intros Hok Hcs Hno. induction cs as [|[r c] cs IH]; cbn [Game.union_cells]; [done|].
  assert (in_grid g (r, c)) as Hrc by (apply Hcs; by left).
  assert (Game.union_cells g cs parent rank edges =
          Game.Done (Game.Next (parent, rank, edges))) as IH'.
  { apply IH. intros p ?. apply Hcs. by right. }
  match goal with |- context [dict_mem ?a ?b] => destruct (dict_mem a b) end; [|done].
  destruct (neighbors_loop_total g r c Game.deltas [] Hok Hrc) as [ns Hns].
  unfold Game.get_neighbors at 1. rewrite Hns. cbn [mbind Game.outcome_bind].
  destruct ns as [|[[[nr nc] md] td] ns]; [done|].
  destruct (Hno (r, c) (nr, nc) Hrc).
  apply (neighbors_linked g r c _ (nr, nc) Hns). exists md, td. by left.
Qed.

Lemma find_root parent x :
  dict_get parent x = Some x →
  Game.find (Game.find_fuel parent) parent x = Game.Done (parent, x).
Proof.
  intros Hx. unfold Game.find_fuel. simpl. unfold Game.getitem. rewrite Hx. simpl.
  rewrite bool_decide_eq_false_2 by (intros H; by apply H). simpl. by rewrite Hx.
Qed.

Lemma find_missing parent x :
  dict_get parent x = None →
  Game.find (Game.find_fuel parent) parent x = Game.Fail Game.KeyError.
Proof. intros Hx. unfold Game.find_fuel. simpl. unfold Game.getitem. by rewrite Hx. Qed.

Lemma all_find_diag (K ks : list pos) src :
  (∀ k, k ∈ ks → k ∈ K) →
  Game.all_find ks ((λ p, (p, p)) <$> K) src =
  Game.Done (forallb (λ k, bool_decide (k = src)) ks).
Proof.
  induction ks as [|k ks IH]; intros Hks; [done|].
  cbn [Game.all_find forallb]. rewrite find_root.
  - cbn [mbind Game.outcome_bind]. destruct (bool_decide (k = src)); [|done].
    apply IH. intros k' ?. apply Hks. by right.
  - rewrite dict_get_diag, decide_True; [done|]. apply Hks. by left.
Qed.

Lemma forallb_only (K : list pos) src :
  NoDup K → src ∈ K →
  forallb (λ k, bool_decide (k = src)) K = bool_decide (K = [src]).
Proof.
  intros Hnd Hsrc. destruct K as [|k K]; [by apply elem_of_nil in Hsrc|].
  simpl. destruct (bool_decide (k = src)) eqn:Hk.
  - apply bool_decide_eq_true in Hk. subst k. apply NoDup_cons in Hnd as [Hnot Hnd].
    destruct K as [|k' K]; [by rewrite bool_decide_eq_true_2|].
    rewrite (bool_decide_eq_false_2 (src :: k' :: K = [src])) by done.
    simpl. rewrite (bool_decide_eq_false_2 (k' = src)); [done|].
    intros ->. apply Hnot. by left.
  - apply bool_decide_eq_false in Hk. simpl.
    rewrite bool_decide_eq_false_2; [done|]. by intros [= ? _].
Qed.

(** The function after its first pair of loops. *)
Lemma check_unfold g :
  grid_ok g →
  Game.check_connected_and_acyclic g =
  if bool_decide (pipe_cells g = []) then Game.Done true
  else
    next ← Game.union_cells g (Game.cells g)
              ((λ p, (p, p)) <$> pipe_cells g) ((λ p, (p, 0)) <$> pipe_cells g) 0;
    match next with
    | Game.Return b => Game.Done b
    | Game.Next (parent, rank, edges) =>
        '(parent, root) ← Game.find (Game.find_fuel parent) parent (Game.water_source g);
        Game.all_find parent.*1 parent root
    end.
Proof.
  intros Hok. unfold Game.check_connected_and_acyclic.
  rewrite (init_cells_run g (Game.cells g) [] [] 0 Hok).
  - cbn [mbind Game.outcome_bind app]. fold (pipe_cells g).
    destruct (pipe_cells g) as [|k K] eqn:HK.
    + by rewrite !bool_decide_eq_true_2.
    + rewrite !bool_decide_eq_false_2; [done..|]. unfold len. simpl. lia.
  - intros p. apply cells_elem.
  - apply cells_NoDup.
  - intros p _. split; apply not_elem_of_nil.
Qed.

Lemma check_linked g p q :
  grid_ok g → in_grid g p → game_linked g p q →
  Game.check_connected_and_acyclic g = Game.Done false.
Proof.
  intros Hok Hp Hl. rewrite check_unfold by done.
  pose proof (game_linked_pipe g p q Hl) as (Hpp & Hq & Hqp).
  rewrite bool_decide_eq_false_2.
  2:{ intros E. assert (p ∈ pipe_cells g) as Hin by (by apply pipe_cells_elem).
      rewrite E in Hin. by apply elem_of_nil in Hin. }
  destruct (union_cells_run g (Game.cells g) _ _ 0 _ Hok (loop_inv_init (pipe_cells g)))
    as (next & -> & Hres); [intros ?; apply cells_elem|].
  cbn [mbind Game.outcome_bind]. destruct next as [[[p' r'] e']|b]; [|by subst b].
  destruct (li_once _ _ _ _ Hres p q).
  - right. split; [by apply cells_elem | done].
  - right. split; [by apply cells_elem | by apply game_linked_sym].
Qed.

Lemma check_unlinked g :
  grid_ok g → (∀ p q, in_grid g p → ¬ game_linked g p q) →
  Game.check_connected_and_acyclic g =
  match pipe_cells g with
  | [] => Game.Done true
  | _ :: _ =>
      if bool_decide (Game.water_source g ∈ pipe_cells g)
      then Game.Done (bool_decide (pipe_cells g = [Game.water_source g]))
      else Game.Fail Game.KeyError
  end.
Proof.
  intros Hok Hno. rewrite check_unfold by done.
  destruct (pipe_cells g) as [|k K] eqn:HK; [done|]. rewrite <- HK.
  rewrite bool_decide_eq_false_2 by (by rewrite HK).
  rewrite union_cells_idle; [|done|intros ?; apply cells_elem|done].
  cbn [mbind Game.outcome_bind].
  destruct (bool_decide (Game.water_source g ∈ pipe_cells g)) eqn:Hsrc.
  - apply bool_decide_eq_true in Hsrc.
    rewrite find_root by (by rewrite dict_get_diag, decide_True).
    cbn [mbind Game.outcome_bind]. rewrite diag_keys, all_find_diag by done.
    by rewrite forallb_only by (done || apply pipe_cells_NoDup).
  - apply bool_decide_eq_false in Hsrc.
    by rewrite find_missing by (by rewrite dict_get_diag, decide_False).
Qed.

(** Running the function tells whether two cells are linked. *)
Lemma check_cases g :
  grid_ok g →
  Game.check_connected_and_acyclic g = Game.Done false ∨
  (∀ p q, in_grid g p → ¬ game_linked g p q).
Proof.
  intros Hok. rewrite check_unfold by done.
  destruct (bool_decide (pipe_cells g = [])) eqn:HK.
  - right. apply bool_decide_eq_true in HK. intros p q Hp Hl.
    assert (p ∈ pipe_cells g) as Hin.
    { apply pipe_cells_elem. split; [done|]. by apply game_linked_pipe in Hl as (? & _). }
    rewrite HK in Hin. by apply elem_of_nil in Hin.
  - destruct (union_cells_run g (Game.cells g) _ _ 0 _ Hok (loop_inv_init (pipe_cells g)))
      as (next & -> & Hres); [intros ?; apply cells_elem|].
    cbn [mbind Game.outcome_bind]. destruct next as [[[p' r'] e']|b]; [|left; by subst b].
    right. intros p q Hp Hl. destruct (li_once _ _ _ _ Hres p q).
    + right. split; [by apply cells_elem | done].
    + right. split; [|by apply game_linked_sym].
      apply cells_elem. by apply game_linked_pipe in Hl as (_ & ? & _).
Qed.

Lemma check_true g :
  grid_ok g →
  Game.check_connected_and_acyclic g = Game.Done true ↔
  pipe_cells g = [] ∨ pipe_cells g = [Game.water_source g].
Proof.
  intros Hok. split.
  - intros Htrue. destruct (check_cases g Hok) as [Hfalse|Hno]; [congruence|].
    rewrite (check_unlinked g Hok Hno) in Htrue.
    destruct (pipe_cells g) as [|k K] eqn:HK; [by left|]. right.
    destruct (bool_decide (Game.water_source g ∈ k :: K)); [|done].
    injection Htrue as Htrue. by apply bool_decide_eq_true in Htrue.
  - intros HK. rewrite check_unlinked; [|done|].
    + destruct HK as [-> | ->]; [done|].
      rewrite bool_decide_eq_true_2 by (by left). by rewrite bool_decide_eq_true_2.
    + intros p q Hp Hl. pose proof (game_linked_pipe g p q Hl) as (Hpp & Hq & Hqp).
      pose proof (game_linked_ne g p q Hl) as Hne.
      assert (p ∈ pipe_cells g) as Hp' by (by apply pipe_cells_elem).
      assert (q ∈ pipe_cells g) as Hq' by (by apply pipe_cells_elem).
      destruct HK as [HK|HK]; rewrite HK in Hp', Hq'.
      * by apply elem_of_nil in Hp'.
      * apply list_elem_of_singleton in Hp', Hq'. congruence.
Qed.

(** ** The theorems on the win check *)

Lemma rotate_spec_witness :
  (Game.locked (end_tile 3) = true → Game.rotate (end_tile 3) true = Game.Done (end_tile 3)) ∧
  (∃ t', Game.rotate (end_tile 3) true = Game.Done t' ∧ tile_ok t' ∧
         Game.type_name t' = Game.type_name (end_tile 3) ∧
         Game.locked t' = Game.locked (end_tile 3)) ∧
  (Game.locked (end_tile 3) = false →
     (t' ← Game.rotate (end_tile 3) true; Game.rotate t' (negb true)) = Game.Done (end_tile 3) ∧
     rotate_times (length (Game.variations (end_tile 3))) (end_tile 3) = Game.Done (end_tile 3)).
Proof.
  apply (rotate_spec (end_tile 3) true).
  split; [reflexivity|]. split; [unfold len; simpl; lia | reflexivity].
Defined.

Lemma column_game_ok top bottom : grid_ok (column_game top bottom).
Proof. split; [reflexivity|]. repeat constructor. Qed.

Lemma unlinkedb_true g :
  unlinkedb g = true → ∀ p q, in_grid g p → ¬ game_linked g p q.
Proof.
  unfold unlinkedb. rewrite forallb_forall. intros Hall p q Hp Hl.
  specialize (Hall p). rewrite <- list_elem_of_In, cells_elem in Hall.
  specialize (Hall Hp).
  destruct (Game.get_neighbors g p.1 p.2) as [[|e ns]| |] eqn:Hns; try done.
  destruct p as [r c]. apply (neighbors_linked g r c [] q Hns) in Hl as (md & td & Hin).
  by apply elem_of_nil in Hin.
Qed.

Lemma forest_inv : uf_inv forest_parent forest_rank.
Proof.
  split.
  - intros x y. unfold forest_parent. simpl.
    repeat case_decide; intros Hxy; simplify_eq; set_solver.
  - intros x. unfold forest_parent, forest_rank. simpl. done.
  - intros x y. unfold forest_parent, forest_rank, rk. simpl.
    repeat case_decide; intros Hxy Hne; simplify_eq; simpl;
      repeat case_decide; simplify_eq; simpl; try done; lia.
Qed.

(** X26. [find] raises [KeyError] on a key that [parent] does not
    hold.  On a forest it returns the root of the chain of parents of
    [x] and leaves [x] pointing at that root; the keys, and the root of
    every key, stay as they were. *)
Theorem find_representative (parent : list (pos * pos)) (rank : list (pos * Z)) (x : pos) :
  (x ∉ parent.*1 → Game.find (Game.find_fuel parent) parent x = Game.Fail Game.KeyError) ∧
  (uf_inv parent rank → x ∈ parent.*1 →
   ∃ parent' r,
     Game.find (Game.find_fuel parent) parent x = Game.Done (parent', r) ∧
     rep parent x r ∧ uf_inv parent' rank ∧ parent'.*1 = parent.*1 ∧
     dict_get parent' x = Some r ∧
     ∀ z r', rep parent' z r' ↔ rep parent z r').
Proof.
  split.
  - intros Hx. apply find_missing. by apply dict_get_None.
  - apply find_ok.
Qed.

Lemma find_representative_witness :
  ∃ parent' r,
    Game.find (Game.find_fuel forest_parent) forest_parent (0, 0) = Game.Done (parent', r) ∧
    rep forest_parent (0, 0) r ∧ uf_inv parent' forest_rank ∧
    parent'.*1 = forest_parent.*1 ∧
    dict_get parent' (0, 0) = Some r ∧
    ∀ z r', rep parent' z r' ↔ rep forest_parent z r'.
Proof.
  apply (proj2 (find_representative forest_parent forest_rank (0, 0))).
  - exact forest_inv.
  - vm_compute. set_solver.
Defined.

(** X27. [union] on two keys of a forest returns [False] exactly when
    they are in one class already, and then no class changes; otherwise
    it returns [True] and the two classes become one, all others staying
    as they were.  The keys stay the same and the result is a forest. *)
Theorem union_merges (parent : list (pos * pos)) (rank : list (pos * Z)) (x y : pos) :
  uf_inv parent rank → x ∈ parent.*1 → y ∈ parent.*1 →
  ∃ parent' rank' merged,
    Game.union parent rank x y = Game.Done (parent', rank', merged) ∧
    uf_inv parent' rank' ∧ parent'.*1 = parent.*1 ∧
    (merged = false ↔ same_class parent x y) ∧
    ∀ z w, same_class parent' z w ↔
      same_class parent z w ∨
      (merged = true ∧
       ((same_class parent z x ∧ same_class parent y w) ∨
        (same_class parent z y ∧ same_class parent x w))).
Proof. apply union_ok. Qed.

Lemma union_merges_witness :
  ∃ parent' rank' merged,
    Game.union forest_parent forest_rank (0, 0) (1, 1) = Game.Done (parent', rank', merged) ∧
    uf_inv parent' rank' ∧ parent'.*1 = forest_parent.*1 ∧
    (merged = false ↔ same_class forest_parent (0, 0) (1, 1)) ∧
    ∀ z w, same_class parent' z w ↔
      same_class forest_parent z w ∨
      (merged = true ∧
       ((same_class forest_parent z (0, 0) ∧ same_class forest_parent (1, 1) w) ∨
        (same_class forest_parent z (1, 1) ∧ same_class forest_parent (0, 0) w))).
Proof.
  apply (union_merges forest_parent forest_rank (0, 0) (1, 1)).
  - exact forest_inv.
  - vm_compute. set_solver.
  - vm_compute. set_solver.
Defined.

(** X28. On a grid of [grid_size] rows of [grid_size] tiles,
    [check_connected_and_acyclic] returns [False] as soon as two cells
    are linked: every link is handed to [union] from both of its ends,
    and the second call finds the two cells in one class. *)
Theorem check_false_when_linked (g : Game.PipesGame) (p q : pos) :
  grid_ok g → in_grid g p → game_linked g p q →
  Game.check_connected_and_acyclic g = Game.Done false.
Proof. apply check_linked. Qed.

Lemma check_false_when_linked_witness :
  Game.check_connected_and_acyclic (column_game (end_tile 2) (end_tile 0)) = Game.Done false.
Proof.
  apply (check_false_when_linked (column_game (end_tile 2) (end_tile 0)) (1, 1) (0, 1)).
  - apply column_game_ok.
  - split; simpl; lia.
  - split; [split; simpl; lia|].
    exists 0%nat, 2%nat, (end_tile 0), (end_tile 2). simpl.
    split; [vm_compute; set_solver|]. split; [reflexivity|].
    split; [vm_compute; set_solver|]. split; [reflexivity|]. vm_compute. set_solver.
Defined.

(** X29. On such a grid without two linked cells,
    [check_connected_and_acyclic] returns [True] when no tile has a
    pipe; otherwise it raises [KeyError] when the tile of the water
    source has no pipe, and returns whether the tile of the water source
    is the only one with a pipe. *)
Theorem check_without_links (g : Game.PipesGame) :
  grid_ok g → (∀ p q, in_grid g p → ¬ game_linked g p q) →
  Game.check_connected_and_acyclic g =
  match pipe_cells g with
  | [] => Game.Done true
  | _ :: _ =>
      if bool_decide (Game.water_source g ∈ pipe_cells g)
      then Game.Done (bool_decide (pipe_cells g = [Game.water_source g]))
      else Game.Fail Game.KeyError
  end.
Proof. apply check_unlinked. Qed.

Lemma check_without_links_witness :
  Game.check_connected_and_acyclic (column_game (end_tile 0) none_tile) =
  match pipe_cells (column_game (end_tile 0) none_tile) with
  | [] => Game.Done true
  | _ :: _ =>
      if bool_decide (Game.water_source (column_game (end_tile 0) none_tile)
                      ∈ pipe_cells (column_game (end_tile 0) none_tile))
      then Game.Done (bool_decide (pipe_cells (column_game (end_tile 0) none_tile) =
                                   [Game.water_source (column_game (end_tile 0) none_tile)]))
      else Game.Fail Game.KeyError
  end.
Proof.
  apply (check_without_links (column_game (end_tile 0) none_tile)).
  - apply column_game_ok.
  - apply unlinkedb_true. vm_compute. reflexivity.
Defined.

(** X30. On such a grid [check_connected_and_acyclic] returns [True],
    and [check_win] prints its message, exactly when no tile has a pipe
    or the tile of the water source is the only one that has. *)
Theorem check_true_iff (g : Game.PipesGame) :
  grid_ok g →
  (Game.check_connected_and_acyclic g = Game.Done true ↔
   pipe_cells g = [] ∨ pipe_cells g = [Game.water_source g]) ∧
  (Game.check_win g = Game.Done ["You win! All pipes connected without loops."] ↔
   pipe_cells g = [] ∨ pipe_cells g = [Game.water_source g]).
Proof.
  intros Hok. split; [by apply check_true|].
  rewrite <- (check_true g Hok). unfold Game.check_win.
  destruct (Game.check_connected_and_acyclic g) as [[|]| |]; simpl; split; done.
Qed.

Lemma check_true_iff_witness :
  (Game.check_connected_and_acyclic (column_game none_tile (end_tile 0)) = Game.Done true ↔
   pipe_cells (column_game none_tile (end_tile 0)) = [] ∨
   pipe_cells (column_game none_tile (end_tile 0)) =
     [Game.water_source (column_game none_tile (end_tile 0))]) ∧
  (Game.check_win (column_game none_tile (end_tile 0)) =
     Game.Done ["You win! All pipes connected without loops."] ↔
   pipe_cells (column_game none_tile (end_tile 0)) = [] ∨
   pipe_cells (column_game none_tile (end_tile 0)) =
     [Game.water_source (column_game none_tile (end_tile 0))]).
Proof. apply (check_true_iff (column_game none_tile (end_tile 0))), column_game_ok. Defined.

Lemma get_neighbors_exact_witness :
  ∃ ns, Game.get_neighbors (column_game (end_tile 2) (end_tile 0)) 1 1 = Game.Done ns ∧
    (length ns <= 4)%nat ∧
    ∀ nr nc md td, (nr, nc, md, td) ∈ ns ↔
      in_grid (column_game (end_tile 2) (end_tile 0)) (nr, nc) ∧
      (nr - 1, nc - 1, md, td) ∈ Game.deltas ∧
      ∃ mine theirs,
        Game.cell (column_game (end_tile 2) (end_tile 0)) 1 1 = Game.Done mine ∧
        md ∈ Game.get_connections mine ∧
        Game.cell (column_game (end_tile 2) (end_tile 0)) nr nc = Game.Done theirs ∧
        td ∈ Game.get_connections theirs.
Proof.
  apply (get_neighbors_exact (column_game (end_tile 2) (end_tile 0)) 1 1).
  - apply column_game_ok.
  - split; simpl; lia.
Defined.

Lemma get_neighbors_symmetric_witness :
  (1, 1, 2%nat, 0%nat) ∈ [(1, 1, 2%nat, 0%nat)].
Proof.
  apply (get_neighbors_symmetric (column_game (end_tile 2) (end_tile 0)) 1 1 0 1 0%nat 2%nat
           [(0, 1, 0%nat, 2%nat)] [(1, 1, 2%nat, 0%nat)]).
  - split; simpl; lia.
  - reflexivity.
  - reflexivity.
  - apply list_elem_of_singleton. reflexivity.
Defined.

Lemma update_connected_tiles_reachable_witness :
  ∃ R, Game.update_connected_tiles (column_game (end_tile 2) (end_tile 0)) = Game.Done R ∧
    ∀ p, p ∈ R ↔
      rtc (game_linked (column_game (end_tile 2) (end_tile 0)))
          (Game.water_source (column_game (end_tile 2) (end_tile 0))) p ∧
      has_pipe (column_game (end_tile 2) (end_tile 0)) p.
Proof.
  apply (update_connected_tiles_reachable (column_game (end_tile 2) (end_tile 0))).
  - apply column_game_ok.
  - split; simpl; lia.
Defined.
